(** * Query cache and request coalescing of the AI tutor

    A shallow embedding of [QueryCache] and of the orchestration handlers of
    [src/ai_engine_optimized.py], with the properties of the caching layer
    stated and settled against it.

    Conventions.
    - A Python [str] is a Rocq [string] holding its UTF-8 bytes, so
      [str.encode()] is the list of those bytes.
    - Instants and durations are integers counting milliseconds; the
      second-valued parameters of the source ([ttl_seconds], [lock_ttl],
      [lock_timeout]) are scaled by [seconds] where they meet the clock.
    - The clock that [time.time()] reads is part of the state the methods run in.
    - Calls of different callers are interleaved on one shared state.  A
      call is one step of the interleaving, except [acquire_lock], whose
      test and write on the local mapping are two steps between which other
      callers can run ([acquire_step]). *)

From Stdlib Require Import ZArith Lia List Ascii String.
From stdpp Require Import base option list strings pretty gmap fin_maps sorting.

Local Open Scope Z_scope.
Set Warnings "-register-all".
Set Default Proof Using "Type".

(** ** hashlib.md5

    The digest of RFC 1321 on 32-bit words held in [Z]. *)

Module MD5.

Definition mask32 : Z := 0xffffffff.

Definition add32 (x y : Z) : Z := Z.land (x + y) mask32.

Definition not32 (x : Z) : Z := Z.lxor x mask32.

Definition rotl32 (x : Z) (c : Z) : Z :=
  Z.land (Z.lor (Z.shiftl x c) (Z.shiftr x (32 - c))) mask32.

Definition shifts : list Z :=
  [7; 12; 17; 22; 7; 12; 17; 22; 7; 12; 17; 22; 7; 12; 17; 22;
   5; 9; 14; 20; 5; 9; 14; 20; 5; 9; 14; 20; 5; 9; 14; 20;
   4; 11; 16; 23; 4; 11; 16; 23; 4; 11; 16; 23; 4; 11; 16; 23;
   6; 10; 15; 21; 6; 10; 15; 21; 6; 10; 15; 21; 6; 10; 15; 21].

Definition sines : list Z :=
  [0xd76aa478; 0xe8c7b756; 0x242070db; 0xc1bdceee;
   0xf57c0faf; 0x4787c62a; 0xa8304613; 0xfd469501;
   0x698098d8; 0x8b44f7af; 0xffff5bb1; 0x895cd7be;
   0x6b901122; 0xfd987193; 0xa679438e; 0x49b40821;
   0xf61e2562; 0xc040b340; 0x265e5a51; 0xe9b6c7aa;
   0xd62f105d; 0x02441453; 0xd8a1e681; 0xe7d3fbc8;
   0x21e1cde6; 0xc33707d6; 0xf4d50d87; 0x455a14ed;
   0xa9e3e905; 0xfcefa3f8; 0x676f02d9; 0x8d2a4c8a;
   0xfffa3942; 0x8771f681; 0x6d9d6122; 0xfde5380c;
   0xa4beea44; 0x4bdecfa9; 0xf6bb4b60; 0xbebfbc70;
   0x289b7ec6; 0xeaa127fa; 0xd4ef3085; 0x04881d05;
   0xd9d4d039; 0xe6db99e5; 0x1fa27cf8; 0xc4ac5665;
   0xf4292244; 0x432aff97; 0xab9423a7; 0xfc93a039;
   0x655b59c3; 0x8f0ccc92; 0xffeff47d; 0x85845dd1;
   0x6fa87e4f; 0xfe2ce6e0; 0xa3014314; 0x4e0811a1;
   0xf7537e82; 0xbd3af235; 0x2ad7d2bb; 0xeb86d391].

Definition nthZ (l : list Z) (i : Z) : Z := nth (Z.to_nat i) l 0.

(** The 32-bit word whose little-endian bytes are the four given ones. *)
Definition word_of_bytes (bs : list Z) : Z :=
  nthZ bs 0 + 256 * nthZ bs 1 + 65536 * nthZ bs 2 + 16777216 * nthZ bs 3.

Definition bytes_of_word (w : Z) : list Z :=
  [Z.land w 255; Z.land (Z.shiftr w 8) 255;
   Z.land (Z.shiftr w 16) 255; Z.land (Z.shiftr w 24) 255].

(** The eight little-endian bytes of the message length in bits. *)
Definition length_bytes (bits : Z) : list Z :=
  map (fun i => Z.land (Z.shiftr bits (8 * i)) 255) [0; 1; 2; 3; 4; 5; 6; 7].

(** Padding: one 0x80 byte, zeros up to 56 modulo 64, then the length. *)
Definition pad (msg : list Z) : list Z :=
  let n := Z.of_nat (length msg) in
  let zeros := (55 - n) mod 64 in
  msg ++ [128] ++ repeat 0 (Z.to_nat zeros) ++ length_bytes (8 * n).

Fixpoint words_of_block (n : nat) (bs : list Z) : list Z :=
  match n with
  | O => []
  | S n' => word_of_bytes (take 4 bs) :: words_of_block n' (drop 4 bs)
  end.

Record regs := Regs { rA : Z; rB : Z; rC : Z; rD : Z }.

Definition round (m : list Z) (r : regs) (i : Z) : regs :=
  let '(Regs a b c d) := r in
  let '(f, g) :=
    if i <? 16 then (Z.lor (Z.land b c) (Z.land (not32 b) d), i)
    else if i <? 32 then (Z.lor (Z.land d b) (Z.land (not32 d) c), (5 * i + 1) mod 16)
    else if i <? 48 then (Z.lxor (Z.lxor b c) d, (3 * i + 5) mod 16)
    else (Z.lxor c (Z.lor b (not32 d)), (7 * i) mod 16) in
  let f' := add32 (add32 (add32 f a) (nthZ sines i)) (nthZ m g) in
  Regs d (add32 b (rotl32 f' (nthZ shifts i))) b c.

Definition rounds : list Z := map Z.of_nat (seq 0 64).

Definition process_block (r : regs) (block : list Z) : regs :=
  let m := words_of_block 16 block in
  let r' := fold_left (round m) rounds r in
  Regs (add32 (rA r) (rA r')) (add32 (rB r) (rB r'))
       (add32 (rC r) (rC r')) (add32 (rD r) (rD r')).

Fixpoint process (n : nat) (r : regs) (bs : list Z) : regs :=
  match n with
  | O => r
  | S n' => process n' (process_block r (take 64 bs)) (drop 64 bs)
  end.

Definition init : regs := Regs 0x67452301 0xefcdab89 0x98badcfe 0x10325476.

(** The sixteen bytes of the digest. *)
Definition digest (msg : list Z) : list Z :=
  let p := pad msg in
  let r := process (Nat.div (length p) 64) init p in
  bytes_of_word (rA r) ++ bytes_of_word (rB r) ++
  bytes_of_word (rC r) ++ bytes_of_word (rD r).

Definition hex_digit (n : Z) : ascii :=
  nth (Z.to_nat n)
      ["0"; "1"; "2"; "3"; "4"; "5"; "6"; "7";
       "8"; "9"; "a"; "b"; "c"; "d"; "e"; "f"]%char "0"%char.

Fixpoint hex (bs : list Z) : string :=
  match bs with
  | [] => EmptyString
  | b :: bs' =>
      String (hex_digit (Z.shiftr b 4)) (String (hex_digit (Z.land b 15)) (hex bs'))
  end.

(** [s.encode()] *)
Fixpoint encode (s : string) : list Z :=
  match s with
  | EmptyString => []
  | String c s' => Z.of_N (N_of_ascii c) :: encode s'
  end.

(** [hashlib.md5(s.encode()).hexdigest()] *)
Definition hexdigest (s : string) : string := hex (digest (encode s)).

End MD5.

(** ** Python values

    The payloads the handlers cache are JSON-shaped: a bilingual
    [{english, swahili}] dict, a list of question records, or an empty list.
    [VNone] is Python's [None], which [get] also returns for a miss. *)

Inductive value :=
| VNone
| VBool (b : bool)
| VInt (n : Z)
| VStr (s : string)
| VList (items : list value)
| VDict (items : list (string * value)).

(** The truth value Python gives an object in [if cached:]. *)
Definition truthy (v : value) : bool :=
  match v with
  | VNone => false
  | VBool b => b
  | VInt n => negb (n =? 0)
  | VStr s => negb (String.eqb s "")
  | VList l => match l with [] => false | _ => true end
  | VDict l => match l with [] => false | _ => true end
  end.

(** The positional arguments of the cache methods: strings and numbers. *)
Inductive arg :=
| AStr (s : string)
| AInt (n : Z).

(** [str(arg)] *)
Definition str (a : arg) : string :=
  match a with
  | AStr s => s
  | AInt n => pretty n
  end.

(** [sep.join(parts)] *)
Fixpoint join (sep : string) (parts : list string) : string :=
  match parts with
  | [] => ""
  | [p] => p
  | p :: rest => p +:+ sep +:+ join sep rest
  end.

Definition _hash_key (args : list arg) : string :=
  let key_str := join "|" (map str args) in
  MD5.hexdigest key_str.

Definition _redis_key (key : string) : string := "ai_cache:" +:+ key.

Definition lock_suffix : string := ":lock".
Definition mem_lock_key (key : string) : string := "lock:" +:+ key.

(** ** Exceptions and results *)

Inductive exn :=
| ConnectionError      (* the shared store cannot be reached *)
| ResponseError        (* the shared store rejects the command *)
| JSONDecodeError      (* json.loads on text that is not JSON *)
| AttributeError       (* a method call on None *)
| UpstreamError.       (* retrieval or completion failed *)

Inductive result (A : Type) :=
| Ok (a : A)
| Raise (e : exn).
Arguments Ok {A} a.
Arguments Raise {A} e.

(** ** The clock *)

Definition seconds (s : Z) : Z := 1000 * s.
Definition poll_interval : Z := 500.     (* 0.5 s *)

(** ** The shared store

    The Redis commands the cache issues, with the semantics Redis documents
    for them.  A record carries the instant after which it is expired; an
    expired record is invisible to every command.  [faults] schedules the
    outcome of the next calls of this client: each call consumes the head,
    and a [true] head makes that call raise [ConnectionError]. *)

Record Redis := mkRedis {
  db : gmap string (string * Z);
  faults : list bool
}.

Definition live (now : Z) (rec : string * Z) : bool := now <=? rec.2.

Definition visible (now : Z) (d : gmap string (string * Z)) (k : string) : option string :=
  match d !! k with
  | Some rec => if live now rec then Some rec.1 else None
  | None => None
  end.

(** One round trip to the server: either the connection fails, or the
    command [f] runs on the data. *)
Definition command {A} (f : gmap string (string * Z) -> gmap string (string * Z) * result A)
    (r : Redis) : Redis * result A :=
  match faults r with
  | true :: fs => (mkRedis (db r) fs, Raise ConnectionError)
  | false :: fs => let '(d, x) := f (db r) in (mkRedis d fs, x)
  | [] => let '(d, x) := f (db r) in (mkRedis d [], x)
  end.

(** GET *)
Definition redis_get (k : string) (now : Z) : Redis -> Redis * result (option string) :=
  command (fun d => (d, Ok (visible now d k))).

(** SET k v EX ex *)
Definition redis_set (k v : string) (ex : Z) (now : Z) : Redis -> Redis * result bool :=
  command (fun d =>
    if ex <=? 0 then (d, Raise ResponseError)
    else (<[k := (v, now + seconds ex)]> d, Ok true)).

(** SET k v NX EX ex; redis-py answers [None] when the key exists, here [false]. *)
Definition redis_set_nx (k v : string) (ex : Z) (now : Z) : Redis -> Redis * result bool :=
  command (fun d =>
    if ex <=? 0 then (d, Raise ResponseError)
    else match visible now d k with
         | Some _ => (d, Ok false)
         | None => (<[k := (v, now + seconds ex)]> d, Ok true)
         end).

(** DEL k1 k2 ... *)
Definition redis_delete (ks : list string) : Redis -> Redis * result unit :=
  command (fun d => (foldr delete d ks, Ok tt)).

(** EXISTS *)
Definition redis_exists (k : string) (now : Z) : Redis -> Redis * result bool :=
  command (fun d => (d, Ok (bool_decide (is_Some (visible now d k))))).

(** KEYS prefix* *)
Definition redis_keys (prefix : string) (now : Z) : Redis -> Redis * result (list string) :=
  command (fun d =>
    (d, Ok (filter (fun k => String.prefix prefix k = true ∧ is_Some (visible now d k))
                   (map_to_list d).*1))).

(** ** The cache object and the world it runs in *)

Record QueryCache := mkQueryCache {
  ttl_seconds : Z;
  _mem_cache : gmap string (value * Z);
  _use_redis : bool;
  _redis : option Redis
}.

Record World := mkWorld {
  self : QueryCache;
  clock : Z                      (* what time.time() returns *)
}.

Definition with_mem (m : gmap string (value * Z)) (w : World) : World :=
  mkWorld (mkQueryCache (ttl_seconds (self w)) m (_use_redis (self w)) (_redis (self w)))
          (clock w).

Definition with_redis (r : option Redis) (w : World) : World :=
  mkWorld (mkQueryCache (ttl_seconds (self w)) (_mem_cache (self w)) (_use_redis (self w)) r)
          (clock w).

Definition with_clock (t : Z) (w : World) : World := mkWorld (self w) t.

(** ** A state and exception monad for the methods *)

Definition M (A : Type) : Type := World -> World * result A.

Definition ret {A} (a : A) : M A := fun w => (w, Ok a).
Definition raise {A} (e : exn) : M A := fun w => (w, Raise e).

Definition bind {A B} (m : M A) (k : A -> M B) : M B :=
  fun w => match m w with
           | (w', Ok a) => k a w'
           | (w', Raise e) => (w', Raise e)
           end.

Notation "x <- m ;; k" := (bind m (fun x => k))
  (at level 100, m at next level, right associativity).
Notation "m ;;; k" := (bind m (fun _ => k))
  (at level 100, right associativity).

(** [try: body except Exception: handler] *)
Definition try_except {A} (body : M A) (handler : M A) : M A :=
  fun w => match body w with
           | (w', Ok a) => (w', Ok a)
           | (w', Raise _) => handler w'
           end.

(** [try: body finally: cleanup] *)
Definition try_finally {A} (body : M A) (cleanup : M unit) : M A :=
  fun w => match body w with
           | (w', Ok a) =>
               match cleanup w' with
               | (w'', Ok _) => (w'', Ok a)
               | (w'', Raise e) => (w'', Raise e)
               end
           | (w', Raise e) =>
               match cleanup w' with
               | (w'', Ok _) => (w'', Raise e)
               | (w'', Raise e') => (w'', Raise e')
               end
           end.

Definition gets {A} (f : World -> A) : M A := fun w => (w, Ok (f w)).
Definition modify (f : World -> World) : M unit := fun w => (f w, Ok tt).

(** [time.time()] *)
Definition time_time : M Z := gets clock.

(** A call [self._redis.cmd(...)]; on [None] Python raises AttributeError. *)
Definition on_redis {A} (cmd : Z -> Redis -> Redis * result A) : M A :=
  fun w => match _redis (self w) with
           | Some r => let '(r', x) := cmd (clock w) r in (with_redis (Some r') w, x)
           | None => (w, Raise AttributeError)
           end.

(** [self._use_redis and self._redis] *)
Definition use_redis_and_client (w : World) : bool :=
  _use_redis (self w) && bool_decide (is_Some (_redis (self w))).

(** ** QueryCache

    The methods are parameterised by [json.dumps], [json.loads] and the
    activity of the other clients of the shared store.  [loads] answers
    [None] where [json.loads] raises.  [others t d] is the content of the
    store after the other clients have worked on [d] during a sleep of this
    caller that started at instant [t]. *)

Class Environment := {
  dumps : value -> string;
  loads : string -> option value;
  others : Z -> gmap string (string * Z) -> gmap string (string * Z)
}.

Section QueryCache.

Context `{Environment}.

Definition json_loads (s : string) : M value :=
  match loads s with
  | Some v => ret v
  | None => raise JSONDecodeError
  end.

(** [time.sleep(d)]: the clock advances and the other clients run. *)
Definition time_sleep (d : Z) : M unit :=
  fun w =>
    let r' := match _redis (self w) with
              | Some r => Some (mkRedis (others (clock w) (db r)) (faults r))
              | None => None
              end in
    (with_clock (clock w + d) (with_redis r' w), Ok tt).

(** [if val:] on the answer of GET. *)
Definition val_truthy (val : option string) : option string :=
  match val with
  | Some s => if String.eqb s "" then None else Some s
  | None => None
  end.

(** [try: return json.loads(val) except Exception: return None] *)
Definition decode (s : string) : M value := try_except (json_loads s) (ret VNone).

(** The polling loop of [get].  [waited] counts milliseconds; the answer
    [None] means that [fuel] iterations did not reach the end of the loop. *)
Fixpoint poll (fuel : nat) (rk : string) (lock_timeout : Z) (waited : Z)
    (w : World) : option (World * result value) :=
  match fuel with
  | O => None
  | S fuel' =>
      if waited <? seconds lock_timeout then
        match on_redis (redis_get rk) w with
        | (w1, Raise e) => Some (w1, Raise e)
        | (w1, Ok val) =>
            match val_truthy val with
            | Some s => Some (decode s w1)
            | None =>
                (* if lock no longer exists, break and let caller compute *)
                match on_redis (redis_exists (rk +:+ lock_suffix)) w1 with
                | (w2, Raise e) => Some (w2, Raise e)
                | (w2, Ok false) => Some (w2, Ok VNone)
                | (w2, Ok true) =>
                    poll fuel' rk lock_timeout (waited + poll_interval)
                         (time_sleep poll_interval w2).1
                end
            end
        end
      else Some (w, Ok VNone)
  end.

(** Enough iterations for a window of [lock_timeout] seconds. *)
Definition poll_fuel (lock_timeout : Z) : nat := S (Z.to_nat (2 * lock_timeout)).

Definition get (args : list arg) (wait_for_result : bool) (lock_timeout : Z) : M value :=
  let key := _hash_key args in
  fun w =>
    if _use_redis (self w) then
      let rk := _redis_key key in
      match on_redis (redis_get rk) w with
      | (w1, Raise e) => (w1, Raise e)
      | (w1, Ok val) =>
          match val_truthy val with
          | Some s => decode s w1
          | None =>
              (* If waiting is allowed, poll until result appears or timeout *)
              if wait_for_result then
                default (w1, Ok VNone) (poll (poll_fuel lock_timeout) rk lock_timeout 0 w1)
              else (w1, Ok VNone)
          end
      end
    else
      (* Fallback: in-memory *)
      match _mem_cache (self w) !! key with
      | Some (result, timestamp) =>
          if clock w - timestamp <? seconds (ttl_seconds (self w)) then (w, Ok result)
          else (with_mem (delete key (_mem_cache (self w))) w, Ok VNone)
      | None => (w, Ok VNone)
      end.

(** [self._mem_cache[key] = (result, time.time())] *)
Definition mem_store (key : string) (result : value) : M unit :=
  modify (fun w => with_mem (<[key := (result, clock w)]> (_mem_cache (self w))) w).

Definition set (result : value) (args : list arg) : M unit :=
  let key := _hash_key args in
  fun w =>
    if use_redis_and_client w then
      let rk := _redis_key key in
      try_except
        (_ <- on_redis (redis_set rk (dumps result) (ttl_seconds (self w))) ;;
         (* remove lock to signal waiters *)
         on_redis (fun _ => redis_delete [rk +:+ lock_suffix]))
        (* fall back to in-memory set *)
        (mem_store key result) w
    else mem_store key result w.

Definition acquire_lock (args : list arg) (lock_ttl : Z) : M bool :=
  let key := _hash_key args in
  fun w =>
    if use_redis_and_client w then
      let lock_key := _redis_key key +:+ lock_suffix in
      try_except (on_redis (redis_set_nx lock_key "1" lock_ttl)) (ret false) w
    else
      (* naive in-memory lock (not safe across processes) — use timestamp *)
      match _mem_cache (self w) !! mem_lock_key key with
      | Some _ => (w, Ok false)
      | None => (mem_store (mem_lock_key key) (VDict []) ;;; ret true) w
      end.

Definition release_lock (args : list arg) : M unit :=
  let key := _hash_key args in
  fun w =>
    if use_redis_and_client w then
      let lock_key := _redis_key key +:+ lock_suffix in
      try_except (on_redis (fun _ => redis_delete [lock_key])) (ret tt) w
    else
      match _mem_cache (self w) !! mem_lock_key key with
      | Some _ => (with_mem (delete (mem_lock_key key) (_mem_cache (self w))) w, Ok tt)
      | None => (w, Ok tt)
      end.

Definition clear : M unit :=
  fun w =>
    ((if use_redis_and_client w then
        (* careful: only delete keys with our prefix *)
        try_except
          (keys <- on_redis (redis_keys "ai_cache:") ;;
           match keys with
           | [] => ret tt
           | _ => on_redis (fun _ => redis_delete keys)
           end)
          (ret tt)
      else ret tt) ;;;
     modify (with_mem ∅)) w.

Definition get_cache_count : M Z :=
  fun w =>
    if use_redis_and_client w then
      try_except
        (keys <- on_redis (redis_keys "ai_cache:") ;; ret (Z.of_nat (length keys)))
        (gets (fun w' => Z.of_nat (size (_mem_cache (self w')))))
        w
    else (w, Ok (Z.of_nat (size (_mem_cache (self w))))).

End QueryCache.

(** ** Well-formed argument tuples *)

Fixpoint occurs (c : ascii) (s : string) : bool :=
  match s with
  | EmptyString => false
  | String c' s' => Ascii.eqb c c' || occurs c s'
  end.

(** A part is well formed when the delimiter does not occur in it. *)
Definition delimiter_free (s : string) : Prop := occurs "|" s = false.

(** The string [_hash_key] feeds to the digest. *)
Definition key_str (args : list arg) : string := join "|" (map str args).

Definition well_formed (args : list arg) : Prop :=
  args ≠ [] ∧ Forall (fun a => delimiter_free (str a)) args.


(** ** Retrieval helpers and handlers

    The vector store, the token estimator of [src/utils/token_utils] and the
    completion chains are collaborators.  A chain stands for everything the
    handler does between building the prompt and [parse_bilingual]: it
    either raises or yields the (english, swahili) pair. *)

Record Document := mkDocument {
  page_content : value;
  metadata : list (string * string)
}.

Inductive filter_value :=
| FIs (s : string)
| FIn (l : list string).        (* {"$in": l} *)

Class Upstream := {
  similarity_search : string -> Z -> list (string * filter_value) -> result (list Document);
  estimate_tokens : string -> Z;
  summary_chain : string -> list Document -> result (string * string);
  answer_chain : string -> result (string * string)
}.

(** White space as [str.strip] and [str.isspace] see it: the code points
    U+0009 to U+000D, U+001C to U+0020, U+0085, U+00A0, U+1680, U+2000 to
    U+200A, U+2028, U+2029, U+202F, U+205F and U+3000, each by its UTF-8
    bytes.  [is_space] holds of those of one byte, [is_space2] and
    [is_space3] of those of two and of three bytes. *)
Definition is_space (c : ascii) : bool :=
  let n := N_of_ascii c in
  ((9 <=? n) && (n <=? 13) || (28 <=? n) && (n <=? 32))%N.

Definition is_space2 (c1 c2 : ascii) : bool :=
  let a := N_of_ascii c1 in
  let b := N_of_ascii c2 in
  ((a =? 194) && ((b =? 133) || (b =? 160)))%N.          (* U+0085, U+00A0 *)

Definition is_space3 (c1 c2 c3 : ascii) : bool :=
  let a := N_of_ascii c1 in
  let b := N_of_ascii c2 in
  let c := N_of_ascii c3 in
  ((a =? 225) && (b =? 154) && (c =? 128)                 (* U+1680 *)
   || (a =? 226) && (b =? 128)
      && ((128 <=? c) && (c <=? 138)                      (* U+2000 to U+200A *)
          || (c =? 168) || (c =? 169) || (c =? 175))      (* U+2028, U+2029, U+202F *)
   || (a =? 226) && (b =? 129) && (c =? 159)              (* U+205F *)
   || (a =? 227) && (b =? 128) && (c =? 128))%N.          (* U+3000 *)

(** The bytes of exactly one white-space code point. *)
Definition one_space (s : string) : bool :=
  match s with
  | String c1 EmptyString => is_space c1
  | String c1 (String c2 EmptyString) => is_space2 c1 c2
  | String c1 (String c2 (String c3 EmptyString)) => is_space3 c1 c2 c3
  | _ => false
  end.

Fixpoint lstrip (s : string) : string :=
  match s with
  | EmptyString => EmptyString
  | String c1 s1 =>
      if is_space c1 then lstrip s1
      else
        match s1 with
        | String c2 s2 =>
            if is_space2 c1 c2 then lstrip s2
            else
              match s2 with
              | String c3 s3 => if is_space3 c1 c2 c3 then lstrip s3 else s
              | EmptyString => s
              end
        | EmptyString => s
        end
  end.

(** What is left of the tail decides: the character and that rest are
    dropped when together they are one white-space code point. *)
Fixpoint rstrip (s : string) : string :=
  match s with
  | EmptyString => EmptyString
  | String c s' =>
      let rest := rstrip s' in
      if one_space (String c rest) then EmptyString else String c rest
  end.

Definition strip (s : string) : string := rstrip (lstrip s).

(** [len(s)]: the code points of [s], that is its bytes other than UTF-8
    continuation bytes. *)
Fixpoint len (s : string) : Z :=
  match s with
  | EmptyString => 0
  | String c s' =>
      (if N.eqb (N.land (N_of_ascii c) 192) 128 then 0 else 1) + len s'
  end.

(** Generate chapter variants (e.g., '3' -> ['3', '3.1', ... '3.9']). *)
Definition _chapter_variants (chapter_query : string) : list string :=
  let s := strip chapter_query in
  if occurs "." s then [s]
  else s :: map (fun i : Z => s +:+ "." +:+ pretty i) [1; 2; 3; 4; 5; 6; 7; 8; 9].

Section Handlers.

Context `{Environment} `{Upstream}.

Definition lift {A} (r : result A) : M A := fun w => (w, r).

Definition _fetch_docs_by (meta_type chapter_query : string) (k : Z) : M (list Document) :=
  let variants := _chapter_variants chapter_query in
  let neutral_query := meta_type +:+ " chapter " +:+ chapter_query in
  lift (similarity_search neutral_query k
          [("type", FIs meta_type); ("chapter", FIn variants)]).

(** [isinstance(d.page_content, str) and len(d.page_content.strip()) > 50] *)
Definition usable (d : Document) : bool :=
  match page_content d with
  | VStr s => 50 <? len (strip s)
  | _ => false
  end.

Definition content_len (d : Document) : Z :=
  match page_content d with
  | VStr s => len s
  | _ => 0
  end.

(** [cleaned.sort(key=..., reverse=True)]: longest first, ties in their
    original order. *)
Fixpoint insert_desc (d : Document) (l : list Document) : list Document :=
  match l with
  | [] => [d]
  | e :: l' => if content_len e <? content_len d then d :: l else e :: insert_desc d l'
  end.

Definition sort_desc (l : list Document) : list Document :=
  fold_left (fun acc d => insert_desc d acc) l [].

(** Select docs up to token limit. *)
Fixpoint select_docs (cleaned : list Document) (token_total : Z) : list Document :=
  match cleaned with
  | [] => []
  | d :: rest =>
      let t := match page_content d with VStr s => estimate_tokens s | _ => 0 end in
      if 10000 <? token_total + t then []
      else d :: select_docs rest (token_total + t)
  end.

Definition bilingual (english swahili : string) : value :=
  VDict [("english", VStr english); ("swahili", VStr swahili)].

(** The part of [summarize_chapter] after the cache and the lock. *)
Definition summarize_compute (got_lock : bool) (chapter_query : string) : M value :=
  let args := [AStr "summarize"; AStr chapter_query] in
  (* Fetch docs *)
  chapter_docs <- _fetch_docs_by "content" chapter_query 200 ;;
  let cleaned := sort_desc (filter (fun d => usable d = true) chapter_docs) in
  match select_docs cleaned 0 with
  | [] =>
      let result :=
        bilingual ("No usable content found for Chapter " +:+ chapter_query +:+ ".") "" in
      set result args ;;; ret result
  | selected =>
      try_finally
        ((* Generate summary *)
         out <- lift (summary_chain chapter_query selected) ;;
         let response := bilingual out.1 out.2 in
         (* Cache result *)
         set response args ;;; ret response)
        ((* Release the coalesce lock if we hold it *)
         if got_lock then release_lock args else ret tt)
  end.

Definition summarize_chapter (chapter_query : string) : M value :=
  let args := [AStr "summarize"; AStr chapter_query] in
  (* Check cache *)
  cached <- get args true 30 ;;
  if truthy cached then ret cached
  else
    (* Try to acquire coalesce lock; if not acquired, wait for the result *)
    got_lock <- acquire_lock args 30 ;;
    if got_lock then summarize_compute got_lock chapter_query
    else
      cached2 <- get args true 30 ;;
      if truthy cached2 then ret cached2
      else summarize_compute got_lock chapter_query.

(** The part of [answer_general_question] after the cache and the lock.
    Building the prompt, the retriever and the chain constructs objects
    and is taken not to raise. *)
Definition answer_compute (got_lock : bool) (user_question : string) : M value :=
  let args := [AStr "ask"; AStr user_question] in
  try_finally
    (out <- lift (answer_chain user_question) ;;
     let response := bilingual out.1 out.2 in
     (* Cache result *)
     set response args ;;; ret response)
    (if got_lock then release_lock args else ret tt).

Definition answer_general_question (user_question : string) : M value :=
  let args := [AStr "ask"; AStr user_question] in
  cached <- get args true 30 ;;
  if truthy cached then ret cached
  else
    got_lock <- acquire_lock args 30 ;;
    if got_lock then answer_compute got_lock user_question
    else
      cached2 <- get args true 30 ;;
      if truthy cached2 then ret cached2
      else answer_compute got_lock user_question.

End Handlers.

(** ** A JSON codec

    An instance of [dumps] and [loads] for running the methods on concrete
    payloads: the text [json.dumps] prints with its default separators, and
    a reader of that grammar, for strings of printable ASCII.  The reader
    covers the texts the printer produces and no more: of the escapes it
    reads the escaped quote and the escaped backslash, of the numbers the
    integers, where [json.loads] reads every escape, fractions and
    exponents.  The properties of the cache are stated for every instance
    of [Environment]; this one serves the examples, on payloads where it
    agrees with the library. *)

Module Json.

Definition dquote : ascii := "034"%char.
Definition backslash : ascii := "092"%char.

Fixpoint escape (s : string) : string :=
  match s with
  | EmptyString => EmptyString
  | String c s' =>
      if Ascii.eqb c dquote || Ascii.eqb c backslash
      then String backslash (String c (escape s'))
      else String c (escape s')
  end.

Definition quote (s : string) : string :=
  String dquote (escape s +:+ String dquote EmptyString).

Fixpoint dumps (v : value) : string :=
  match v with
  | VNone => "null"
  | VBool true => "true"
  | VBool false => "false"
  | VInt n => pretty n
  | VStr s => quote s
  | VList l => "[" +:+ join ", " (map dumps l) +:+ "]"
  | VDict l =>
      "{" +:+ join ", " (map (fun kv => match kv with
                                        | (k, x) => quote k +:+ ": " +:+ dumps x
                                        end) l) +:+ "}"
  end.

Definition is_ws (c : ascii) : bool :=
  Ascii.eqb c " " || Ascii.eqb c "010" || Ascii.eqb c "009" || Ascii.eqb c "013".

Fixpoint skip_ws (s : string) : string :=
  match s with
  | EmptyString => EmptyString
  | String c s' => if is_ws c then skip_ws s' else s
  end.

(** The characters of a string literal, after its opening quote. *)
Fixpoint read_string (s : string) : option (string * string) :=
  match s with
  | EmptyString => None
  | String c s' =>
      if Ascii.eqb c dquote then Some (EmptyString, s')
      else if Ascii.eqb c backslash then
        match s' with
        | String e s'' =>
            if Ascii.eqb e dquote || Ascii.eqb e backslash then
              match read_string s'' with
              | Some (x, rest) => Some (String e x, rest)
              | None => None
              end
            else None
        | EmptyString => None
        end
      else
        match read_string s' with
        | Some (x, rest) => Some (String c x, rest)
        | None => None
        end
  end.

Definition digit (c : ascii) : option Z :=
  let n := Z.of_N (N_of_ascii c) in
  if (48 <=? n) && (n <=? 57) then Some (n - 48) else None.

Fixpoint read_digits (s : string) (acc : Z) : Z * string :=
  match s with
  | EmptyString => (acc, s)
  | String c s' =>
      match digit c with
      | Some d => read_digits s' (10 * acc + d)
      | None => (acc, s)
      end
  end.

Definition expect (word : string) (s : string) (v : value) : option (value * string) :=
  if String.prefix word s
  then Some (v, String.substring (String.length word) (String.length s - String.length word) s)
  else None.

Fixpoint read_value (fuel : nat) (s : string) : option (value * string) :=
  match fuel with
  | O => None
  | S fuel' =>
      match skip_ws s with
      | EmptyString => None
      | String c rest =>
          if Ascii.eqb c "n" then expect "ull" rest VNone
          else if Ascii.eqb c "t" then expect "rue" rest (VBool true)
          else if Ascii.eqb c "f" then expect "alse" rest (VBool false)
          else if Ascii.eqb c dquote then
            match read_string rest with
            | Some (x, r) => Some (VStr x, r)
            | None => None
            end
          else if Ascii.eqb c "[" then
            match skip_ws rest with
            | String "]" r => Some (VList [], r)
            | _ =>
                match read_items fuel' rest with
                | Some (l, r) => Some (VList l, r)
                | None => None
                end
            end
          else if Ascii.eqb c "{" then
            match skip_ws rest with
            | String "}" r => Some (VDict [], r)
            | _ =>
                match read_members fuel' rest with
                | Some (l, r) => Some (VDict l, r)
                | None => None
                end
            end
          else if Ascii.eqb c "-" then
            match rest with
            | String d _ =>
                match digit d with
                | Some _ => let '(n, r) := read_digits rest 0 in Some (VInt (- n), r)
                | None => None
                end
            | EmptyString => None
            end
          else
            match digit c with
            | Some _ => let '(n, r) := read_digits (String c rest) 0 in Some (VInt n, r)
            | None => None
            end
      end
  end
with read_items (fuel : nat) (s : string) : option (list value * string) :=
  match fuel with
  | O => None
  | S fuel' =>
      match read_value fuel' s with
      | Some (v, r) =>
          match skip_ws r with
          | String "," r' =>
              match read_items fuel' r' with
              | Some (l, r'') => Some (v :: l, r'')
              | None => None
              end
          | String "]" r' => Some ([v], r')
          | _ => None
          end
      | None => None
      end
  end
with read_members (fuel : nat) (s : string) : option (list (string * value) * string) :=
  match fuel with
  | O => None
  | S fuel' =>
      match skip_ws s with
      | String c rest =>
          if Ascii.eqb c dquote then
            match read_string rest with
            | Some (k, r) =>
                match skip_ws r with
                | String ":" r1 =>
                    match read_value fuel' r1 with
                    | Some (v, r2) =>
                        match skip_ws r2 with
                        | String "," r3 =>
                            match read_members fuel' r3 with
                            | Some (l, r4) => Some ((k, v) :: l, r4)
                            | None => None
                            end
                        | String "}" r3 => Some ([(k, v)], r3)
                        | _ => None
                        end
                    | None => None
                    end
                | _ => None
                end
            | None => None
            end
          else None
      | EmptyString => None
      end
  end.

Definition loads (s : string) : option value :=
  match read_value (S (String.length s)) s with
  | Some (v, rest) =>
      match skip_ws rest with
      | EmptyString => Some v
      | _ => None
      end
  | None => None
  end.

End Json.

(** The environment of a process that is alone on the shared store. *)
#[export] Instance alone : Environment := {
  dumps := Json.dumps;
  loads := Json.loads;
  others := fun _ d => d
}.

(** A cache as [QueryCache(ttl_seconds)] builds it without a store url. *)
Definition local_cache (ttl : Z) : QueryCache := mkQueryCache ttl ∅ false None.

(** A cache connected to the shared store [r]. *)
Definition shared_cache (ttl : Z) (r : Redis) : QueryCache := mkQueryCache ttl ∅ true (Some r).

(** The result a computation leaves, and the state it leaves. *)
Definition outcome {A} (m : M A) (w : World) : result A := (m w).2.
Definition after {A} (m : M A) (w : World) : World := (m w).1.

(** ** Vocabulary of the properties *)

(** The two variants of the backing store. *)
Definition is_local (w : World) : Prop := _use_redis (self w) = false.

Definition is_shared (w : World) (r : Redis) : Prop :=
  _use_redis (self w) = true ∧ _redis (self w) = Some r.

(** No connection failure is scheduled. *)
Definition healthy (r : Redis) : Prop := faults r = [].

(** The next call to the store, if there is a store, goes through. *)
Definition next_call_ok (w : World) : Prop :=
  match _redis (self w) with
  | Some r => match faults r with true :: _ => False | _ => True end
  | None => True
  end.

(** Time passes. *)
Definition elapse (d : Z) (w : World) : World := with_clock (clock w + d) w.

(** A lock record for [key] exists: a record of the store that has not
    expired, or a record of the local mapping. *)
Definition lock_held (key : string) (w : World) : bool :=
  if use_redis_and_client w then
    match _redis (self w) with
    | Some r => bool_decide (is_Some (visible (clock w) (db r) (_redis_key key +:+ lock_suffix)))
    | None => false
    end
  else bool_decide (is_Some (_mem_cache (self w) !! mem_lock_key key)).

(** The calls the callers of one cache make, in the order in which they
    take effect. *)
Inductive op :=
| OpGet (args : list arg) (wait_for_result : bool) (lock_timeout : Z)
| OpSet (result : value) (args : list arg)
| OpAcquire (args : list arg) (lock_ttl : Z)
| OpRelease (args : list arg)
| OpClear
| OpCount
| OpElapse (d : Z).

Section Traces.

Context `{Environment}.

Definition step (o : op) (w : World) : World :=
  match o with
  | OpGet a wait lt => after (get a wait lt) w
  | OpSet v a => after (set v a) w
  | OpAcquire a ttl => after (acquire_lock a ttl) w
  | OpRelease a => after (release_lock a) w
  | OpClear => after clear w
  | OpCount => after get_cache_count w
  | OpElapse d => elapse d w
  end.

Definition run (tr : list op) (w : World) : World := fold_left (fun w' o => step o w') tr w.

(** The other clients leave the record under [k] alone. *)
Definition others_keep (k : string) : Prop :=
  ∀ t d, others t d !! k = d !! k.

End Traces.

(** A call that neither releases the lock of [key] nor turns the clock back. *)
Definition keeps_lock (key : string) (o : op) : Prop :=
  match o with
  | OpSet _ a => _hash_key a ≠ key
  | OpRelease a => _hash_key a ≠ key
  | OpClear => False
  | OpElapse d => 0 <= d
  | _ => True
  end.

(** The lock record of the tuple [a], as an invariant of each variant: in
    the shared store a record that expires after instant [exp], in the local
    mapping a record under the lock key. *)
Definition shared_lock (a : list arg) (exp : Z) (w : World) : Prop :=
  _use_redis (self w) = true ∧
  ∃ r x, _redis (self w) = Some r ∧
         db r !! (_redis_key (_hash_key a) +:+ lock_suffix) = Some (x, exp).

Definition local_lock (a : list arg) (w : World) : Prop :=
  use_redis_and_client w = false ∧
  is_Some (_mem_cache (self w) !! mem_lock_key (_hash_key a)).

(** A computation keeps the property [P] of the state. *)
Definition preserves {A} (P : World -> Prop) (m : M A) : Prop :=
  ∀ w, P w -> P (m w).1.

(** A command of the store that leaves the record under [k] as it is. *)
Definition quiet {A} (k : string) (cmd : Z -> Redis -> Redis * result A) : Prop :=
  ∀ now r, db (cmd now r).1 !! k = db r !! k.

(** How a wait of [get] for the entry [rk] that started at instant [c0] has
    ended, in state [w'] with result [x]: the store raised; or the entry
    appeared and was decoded; or the lock record is gone; or the window of
    [lock_timeout] seconds has elapsed. *)
Definition poll_ended `{Environment} (c0 lock_timeout : Z) (rk : string)
    (w' : World) (x : result value) : Prop :=
  match x with
  | Raise _ => True
  | Ok v =>
      ∃ r', _redis (self w') = Some r' ∧
        ((∃ s, val_truthy (visible (clock w') (db r') rk) = Some s ∧
               (decode s w').2 = Ok v) ∨
         (v = VNone ∧ val_truthy (visible (clock w') (db r') rk) = None ∧
          visible (clock w') (db r') (rk +:+ lock_suffix) = None) ∨
         (v = VNone ∧ c0 + seconds lock_timeout <= clock w'))
  end.

(** ** What a waiting caller sees

    A caller that waits in [get] from instant [c0] on, on a store that
    answers and holds the content [d], looks at the store once before each
    sleep.  [store_after i c0 d] is the content at its look number [i]: the
    other clients have worked on the store during each of the [i] sleeps
    before it.  The clock of the model advances in the sleeps and nowhere
    else, as the count [waited] of the loop does. *)

Section Waiting.

Context `{Environment}.

Fixpoint store_after (i : nat) (c0 : Z) (d : gmap string (string * Z))
    : gmap string (string * Z) :=
  match i with
  | O => d
  | S i' => others (c0 + poll_interval * Z.of_nat i') (store_after i' c0 d)
  end.

Definition instant_after (i : nat) (c0 : Z) : Z := c0 + poll_interval * Z.of_nat i.

(** The entry and the lock record as the look number [i] finds them. *)
Definition entry_seen (rk : string) (c0 : Z) (d : gmap string (string * Z)) (i : nat)
    : option string :=
  val_truthy (visible (instant_after i c0) (store_after i c0 d) rk).

Definition lock_seen (rk : string) (c0 : Z) (d : gmap string (string * Z)) (i : nat)
    : option string :=
  visible (instant_after i c0) (store_after i c0 d) (rk +:+ lock_suffix).

(** Nothing ends the wait in its first [n] looks: at each of them the
    window of [lock_timeout] seconds is still open, the entry is absent and
    the lock record is present. *)
Definition keeps_waiting (rk : string) (lock_timeout c0 : Z) (d : gmap string (string * Z))
    (n : nat) : Prop :=
  ∀ i, (i < n)%nat ->
       poll_interval * Z.of_nat i < seconds lock_timeout ∧
       entry_seen rk c0 d i = None ∧
       is_Some (lock_seen rk c0 d i).

(** The state of the waiting caller at its look number [n]. *)
Definition woken (n : nat) (d : gmap string (string * Z)) (w : World) : World :=
  with_clock (instant_after n (clock w))
    (with_redis (Some (mkRedis (store_after n (clock w) d) [])) w).

End Waiting.

(** ** Two calls of [acquire_lock] under way together

    The endpoints are plain functions, which the server runs in a pool of
    threads on the one cache object of the module, so two calls of
    [acquire_lock] can be under way together.  A call meets the shared state
    at these points: with the shared store in its one command SET NX EX,
    which the server executes as a whole; with the local mapping in the
    membership test and then, when the test found no record, in the write,
    and another thread can run between the two. *)

Inductive caller := First | Second.

(** Where a call of [acquire_lock] stands: not started; after a membership
    test that found no record and before the write; returned. *)
Inductive progress :=
| Start
| Tested
| Returned (r : result bool).

Record calls := mkCalls {
  of_first : progress;
  of_second : progress;
  state : World
}.

Section Callers.

Context `{Environment}.

(** The next step of a call of [acquire_lock]. *)
Definition acquire_step (args : list arg) (lock_ttl : Z) (p : progress) (w : World)
    : World * progress :=
  let key := _hash_key args in
  match p with
  | Start =>
      if use_redis_and_client w then
        let lock_key := _redis_key key +:+ lock_suffix in
        let '(w', r) := try_except (on_redis (redis_set_nx lock_key "1" lock_ttl))
                          (ret false) w in
        (w', Returned r)
      else
        match _mem_cache (self w) !! mem_lock_key key with
        | Some _ => (w, Returned (Ok false))
        | None => (w, Tested)
        end
  | Tested =>
      let '(w', r) := (mem_store (mem_lock_key key) (VDict []) ;;; ret true) w in
      (w', Returned r)
  | Returned r => (w, Returned r)
  end.

(** The thread of [c] takes the next step of its call: the first caller
    calls [acquire_lock] for [a1] with [t1], the second for [a2] with [t2]. *)
Definition schedule_step (a1 : list arg) (t1 : Z) (a2 : list arg) (t2 : Z)
    (c : caller) (s : calls) : calls :=
  match c with
  | First =>
      let '(w, p) := acquire_step a1 t1 (of_first s) (state s) in mkCalls p (of_second s) w
  | Second =>
      let '(w, p) := acquire_step a2 t2 (of_second s) (state s) in mkCalls (of_first s) p w
  end.

Fixpoint interleave (a1 : list arg) (t1 : Z) (a2 : list arg) (t2 : Z)
    (sched : list caller) (s : calls) : calls :=
  match sched with
  | [] => s
  | c :: rest => interleave a1 t1 a2 t2 rest (schedule_step a1 t1 a2 t2 c s)
  end.

(** Both calls have tested and neither has written yet. *)
Definition both_tested (s : calls) : bool :=
  match of_first s, of_second s with
  | Tested, Tested => true
  | _, _ => false
  end.

(** The schedule brings the two calls between test and write together. *)
Fixpoint overlap (a1 : list arg) (t1 : Z) (a2 : list arg) (t2 : Z)
    (sched : list caller) (s : calls) : bool :=
  both_tested s ||
  match sched with
  | [] => false
  | c :: rest => overlap a1 t1 a2 t2 rest (schedule_step a1 t1 a2 t2 c s)
  end.

End Callers.

(** What the two calls have returned, once both have. *)
Definition returned (s : calls) : option (result bool * result bool) :=
  match of_first s, of_second s with
  | Returned r1, Returned r2 => Some (r1, r2)
  | _, _ => None
  end.

(** The number of steps the schedule gives to caller [c]. *)
Fixpoint steps_of (c : caller) (sched : list caller) : nat :=
  match sched with
  | [] => O
  | c' :: rest =>
      match c, c' with
      | First, First | Second, Second => S (steps_of c rest)
      | _, _ => steps_of c rest
      end
  end.

(** The steps a call has still to take, at most. *)
Definition remaining (p : progress) : nat :=
  match p with
  | Start => 2
  | Tested => 1
  | Returned _ => 0
  end.

(** The lock record of the tuple [a] is in place and live. *)
Definition locked (a : list arg) (w : World) : Prop :=
  (∃ exp, shared_lock a exp w ∧ clock w <= exp) ∨ local_lock a w.

(** The states two calls for the key of [a] go through when they start with
    the lock free and are never both between test and write: the lock stays
    free until one of them has returned [true], and is held from then on. *)
Definition on_course (a : list arg) (s : calls) : Prop :=
  match of_first s, of_second s with
  | Start, Start => lock_held (_hash_key a) (state s) = false ∧ next_call_ok (state s)
  | Tested, Start | Start, Tested =>
      use_redis_and_client (state s) = false ∧ lock_held (_hash_key a) (state s) = false
  | Returned (Ok true), Start | Start, Returned (Ok true) => locked a (state s)
  | Returned (Ok true), Returned (Ok false)
  | Returned (Ok false), Returned (Ok true) => locked a (state s)
  | _, _ => False
  end.

(** A vector store that is down, and one that holds nothing. *)
Definition retrieval_down : Upstream := {|
  similarity_search := fun _ _ _ => Raise UpstreamError;
  estimate_tokens := fun _ => 0;
  summary_chain := fun _ _ => Raise UpstreamError;
  answer_chain := fun _ => Raise UpstreamError
|}.

Definition nothing_stored : Upstream := {|
  similarity_search := fun _ _ _ => Ok [];
  estimate_tokens := fun _ => 0;
  summary_chain := fun _ _ => Raise UpstreamError;
  answer_chain := fun _ => Raise UpstreamError
|}.

(** The clock has not gone back behind [c0]. *)
Definition not_before (c0 : Z) (w : World) : Prop := c0 <= clock w.

(** Two colliding inputs of MD5 (M. Stevens, 2024), as one-string tuples. *)
Definition collision_a : list arg :=
  [AStr "TEXTCOLLBYfGiJUETHQ4hAcKSMd5zYpgqf1YRDhkmxHkhPWptrkoyz28wnI9V0aHeAuaKnak"].
Definition collision_b : list arg :=
  [AStr "TEXTCOLLBYfGiJUETHQ4hEcKSMd5zYpgqf1YRDhkmxHkhPWptrkoyz28wnI9V0aHeAuaKnak"].

Arguments MD5.hexdigest : simpl never.
Arguments _hash_key : simpl never.
Arguments _redis_key : simpl never.
Arguments mem_lock_key : simpl never.
Arguments lock_suffix : simpl never.
Arguments seconds : simpl never.
Arguments get : simpl never.
Arguments set : simpl never.
Arguments acquire_lock : simpl never.
Arguments release_lock : simpl never.
Arguments clear : simpl never.
Arguments get_cache_count : simpl never.
Arguments decode : simpl never.
Arguments poll_fuel : simpl never.
Arguments acquire_step : simpl never.

(** ** Vocabulary of the handlers *)

Section HandlerShape.

Context `{Environment}.

(** The cache-and-lock prelude the handlers share: read the cache; on a
    miss try the lock; without the lock read the cache once more; then
    compute. *)
Definition coalesced (lock_ttl : Z) (args : list arg) (compute : bool -> M value) : M value :=
  cached <- get args true 30 ;;
  if truthy cached then ret cached
  else
    got_lock <- acquire_lock args lock_ttl ;;
    if got_lock then compute got_lock
    else
      cached2 <- get args true 30 ;;
      if truthy cached2 then ret cached2
      else compute got_lock.

End HandlerShape.

(** The documents [summarize_chapter] hands to the chain. *)
Definition selected_context `{Upstream} (chapter_docs : list Document) : list Document :=
  select_docs (sort_desc (filter (fun d => usable d = true) chapter_docs)) 0.

(** The token estimate of a document, and of a list of them. *)
Definition doc_tokens `{Upstream} (d : Document) : Z :=
  match page_content d with VStr s => estimate_tokens s | _ => 0 end.

Definition total_tokens `{Upstream} (l : list Document) : Z :=
  foldr (fun d n => doc_tokens d + n) 0 l.

(** The order of [cleaned.sort(key=lambda d: len(d.page_content), reverse=True)]. *)
Definition longer_first (x y : Document) : Prop := content_len y <= content_len x.

(** A vector store holding one page, with chains that answer [chain]. *)
Definition sample_doc : Document :=
  mkDocument
    (VStr "Cells are the basic structural and functional units of all living organisms.")
    [("type", "content"); ("chapter", "1.1")].

Definition one_page (chain : result (string * string)) : Upstream := {|
  similarity_search := fun _ _ _ => Ok [sample_doc];
  estimate_tokens := fun s => len s;
  summary_chain := fun _ _ => chain;
  answer_chain := fun _ => chain
|}.

(** ** Revision questions

    [src/utils/revision_filter.py] and the revision handler.  The regular
    expression engine, [str.lower] and [str()] of an object that is not a
    string are collaborators: the properties below hold whatever they
    return. *)

Class Text := {
  lower : string -> string;                                (* s.lower() *)
  re_sub : string -> string -> bool -> string -> string;   (* re.sub(pattern, repl, text), IGNORECASE or not *)
  re_match : string -> string -> bool;                     (* re.match(pattern, text) is not None *)
  py_repr : value -> string                                (* str(x) for x that is not a str *)
}.

(** The chain of the revision handler.  [build_chain] stands for
    [build_prompt_template(chapter_query)] and [create_stuff_documents_chain],
    which build the prompt of the chapter and the chain, or raise (a
    template is refused when the chapter leaves it malformed).
    [question_chain] is the chain at work: it answers one question from its
    context, and either raises or yields the (english, swahili) pair. *)
Class RevisionChain := {
  build_chain : string -> result unit;
  question_chain : string -> list Document -> string -> result (string * string)
}.

(** [s] starts with a white-space code point. *)
Definition head_space (s : string) : bool :=
  match s with
  | String c1 s1 =>
      is_space c1 ||
      match s1 with
      | String c2 s2 =>
          is_space2 c1 c2 ||
          match s2 with
          | String c3 _ => is_space3 c1 c2 c3
          | EmptyString => false
          end
      | EmptyString => false
      end
  | EmptyString => false
  end.

(** NO-BREAK SPACE (U+00A0) and EM SPACE (U+2003), as their UTF-8 bytes. *)
Definition nbsp : string := String "194" (String "160" EmptyString).
Definition em_space : string := String "226" (String "128" (String "131" EmptyString)).

(** [s.startswith(p)] and [sub in s] *)
Definition startswith (p s : string) : bool := String.prefix p s.

Fixpoint contains (sub s : string) : bool :=
  String.prefix sub s ||
  match s with
  | EmptyString => false
  | String _ s' => contains sub s'
  end.

(** [s.split(".", 1)[0]] *)
Fixpoint before_dot (s : string) : string :=
  match s with
  | EmptyString => EmptyString
  | String c s' => if Ascii.eqb c "." then EmptyString else String c (before_dot s')
  end.

(** [s[:n]]: the first [n] code points. *)
Fixpoint slice_to (n : nat) (s : string) : string :=
  match s with
  | EmptyString => EmptyString
  | String c s' =>
      if N.eqb (N.land (N_of_ascii c) 192) 128 then String c (slice_to n s')
      else match n with
           | O => EmptyString
           | S n' => String c (slice_to n' s')
           end
  end.

(** [doc.metadata.get(key, default)] *)
Fixpoint meta_get (key default : string) (meta : list (string * string)) : string :=
  match meta with
  | [] => default
  | (k, v) :: rest => if String.eqb k key then v else meta_get key default rest
  end.

Definition NOISE_PREFIXES : list string := ["index"; "--- page"; "chapter"; "fig."; "plate"].

(** Section headers that are NOT questions *)
Definition HEADER_KEYWORDS : list string :=
  ["introduction"; "the cell"; "the light microscope"; "the electron microscope";
   "classification"; "preparation of"; "estimation of"; "external features";
   "magnification"; "handling and care"].

Definition question_indicators : list string :=
  ["what"; "why"; "how"; "when"; "where"; "which"; "who";
   "explain"; "define"; "describe"; "list"; "state"; "name";
   "give"; "distinguish"; "compare"; "calculate"; "discuss"].

(** The loop both the filter and the handler use to deduplicate, keeping
    order: [key] is computed from each element, empty keys are skipped and a
    key is kept the first time it is seen. *)
Fixpoint keep_first (key : string -> string) (questions : list string) (seen : gset string)
    : list string :=
  match questions with
  | [] => []
  | q :: rest =>
      let k := key q in
      if String.eqb k "" then keep_first key rest seen
      else if decide (k ∈ seen) then keep_first key rest seen
      else k :: keep_first key rest ({[ k ]} ∪ seen)
  end.

Section RevisionFilter.

Context `{Text}.

(** Filter to identify actual questions vs section headers. *)
Definition _is_likely_question (text : string) : bool :=
  let text := strip text in
  if String.eqb text "" || (len text <? 15) then false
  else
    let text_lower := lower text in
    (* Reject section headers *)
    if existsb (fun keyword => String.eqb text_lower keyword
                               || startswith (keyword +:+ " ") text_lower) HEADER_KEYWORDS
    then false
    (* Accept if it has question markers *)
    else if contains "?" text then true
    (* Accept if it starts with a number *)
    else if re_match "^\d+[\.\)]\s*\(?\w?\)?" text then true
    (* Accept if it contains question words or instruction verbs *)
    else if existsb (fun word => contains word text_lower) question_indicators then true
    (* Reject if it's just a title *)
    else if (len text <? 50)
            && negb (existsb (fun word => contains word text_lower) question_indicators)
    then false
    else true.

Definition _clean_line (s : string) : string :=
  let s := strip s in
  if String.eqb s "" then ""
  else
    let low := lower s in
    if existsb (fun p => startswith p low) NOISE_PREFIXES then "" else s.

(** The text of a document: its [page_content], or the empty string when
    that is falsy, as a string and stripped. *)
Definition doc_text (d : Document) : string :=
  strip (if truthy (page_content d)
         then match page_content d with VStr s => s | v => py_repr v end
         else "").

(** The first loop of [extract_revision_questions]. *)
Fixpoint likely_questions (revision_docs : list Document) : list string :=
  match revision_docs with
  | [] => []
  | d :: rest =>
      let text := doc_text d in
      if String.eqb text "" then likely_questions rest
      else
        (* Clean and check if it's a valid question *)
        let cleaned := _clean_line text in
        if negb (String.eqb cleaned "") && _is_likely_question cleaned
        then cleaned :: likely_questions rest
        else likely_questions rest
  end.

Definition extract_revision_questions (revision_docs : list Document) : list string :=
  let questions := likely_questions revision_docs in
  (* Deduplicate, keep order *)
  keep_first strip questions ∅.

(** Clean and truncate question text. *)
Definition _clean_question_text (text : string) : string :=
  let text := strip text in
  let text := re_sub "^-+\s*page\s+-+\s*" "" true text in
  let text := re_sub "---+" "" false text in
  let text :=
    re_sub "^(index|chapter|section|part|revision|questions?)[\s:]*" "" true text in
  let text := re_sub "\s+" " " false text in
  let text := if 200 <? len text then slice_to 197 text +:+ "..." else text in
  strip text.

(** Filter out noise *)
Definition is_noise (q : string) : bool :=
  let low := lower q in
  (len low <? 6) || startswith "index" low || startswith "chapter" low
  || startswith "--- page" low.

End RevisionFilter.

(** [asyncio.gather] over the tasks: the results in the order of the tasks,
    or an exception one of them raised.  Which of several exceptions asyncio
    reports depends on the timing of the tasks; here it is the first in
    their order, and nothing below relies on that choice. *)
Fixpoint gather {A} (tasks : list (result A)) : result (list A) :=
  match tasks with
  | [] => Ok []
  | t :: rest =>
      match t, gather rest with
      | Ok a, Ok l => Ok (a :: l)
      | Raise e, _ => Raise e
      | Ok _, Raise e => Raise e
      end
  end.

Definition question_record (q : string) (answer : string * string) : value :=
  VDict [("question_text", VStr q);
         ("answer", VDict [("english", VStr answer.1); ("swahili", VStr answer.2)])].

Section RevisionHandler.

Context `{Environment} `{Upstream} `{Text} `{RevisionChain}.

(** Fetch docs by chapter root. *)
Definition _fetch_docs_by_root (meta_type chapter_root : string) (k : Z) : M (list Document) :=
  let root := strip (before_dot chapter_root) in
  let neutral_query := meta_type +:+ " chapter_root " +:+ root in
  lift (similarity_search neutral_query k
          [("type", FIs meta_type); ("chapter_root", FIs root)]).

(** Get top content for a question. *)
Definition _top_content_for_question (question : string) (fallback_docs : list Document)
    (k : Z) : list Document :=
  let hits :=
    match similarity_search question k [("type", FIs "content")] with
    | Ok hits => hits
    | Raise _ => []
    end in
  match hits with
  | [] => take (Z.to_nat k) fallback_docs
  | _ => hits
  end.

(** Process a single question. *)
Definition answer_single_question (chapter_query : string) (content_docs : list Document)
    (q : string) : result value :=
  let relevant := _top_content_for_question q content_docs 4 in
  let relevant := match relevant with [] => take 4 content_docs | _ => relevant end in
  match question_chain chapter_query relevant q with
  | Ok out => Ok (question_record q out)
  | Raise e => Raise e
  end.

(** The revision documents of a chapter; a retrieval that raises counts as
    no document. *)
Definition fetch_revision_docs (major : string) : M (list Document) :=
  let revision_chapter := major +:+ ".5" in
  try_except
    ((* Try exact chapter match *)
     revision_docs <- lift (similarity_search "revision questions" 300
                              [("type", FIs "revision"); ("chapter", FIs revision_chapter)]) ;;
     match revision_docs with
     | [] =>
         (* Fallback: get all revisions and filter by chapter prefix *)
         all_revisions <- lift (similarity_search ("chapter " +:+ major +:+ " questions") 300
                                  [("type", FIs "revision")]) ;;
         ret (filter (fun doc => startswith (major +:+ ".")
                                   (meta_get "chapter" "" (metadata doc)) = true)
                all_revisions)
     | _ => ret revision_docs
     end)
    (ret []).

(** The content documents of a chapter: those of its root, else those of
    the chapter and its variants. *)
Definition fetch_content_docs (major chapter_query : string) : M (list Document) :=
  content_docs <- _fetch_docs_by_root "content" major 300 ;;
  match content_docs with
  | [] => _fetch_docs_by "content" chapter_query 200
  | _ => ret content_docs
  end.

(** The questions the handler answers: extracted, cleaned, deduplicated and
    without noise. *)
Definition revision_questions (revision_docs : list Document) : list string :=
  let raw_questions := extract_revision_questions revision_docs in
  let questions := keep_first _clean_question_text raw_questions ∅ in
  filter (fun q => is_noise q = false) questions.

(** The part of [answer_revision_questions_async] after the cache and the
    lock.  The questions are answered by concurrent tasks that do not touch
    the cache. *)
Definition revision_compute (got_lock : bool) (chapter_query : string) : M value :=
  let args := [AStr "revision"; AStr chapter_query] in
  let major := before_dot chapter_query in
  revision_docs <- fetch_revision_docs major ;;
  content_docs <- fetch_content_docs major chapter_query ;;
  match revision_questions revision_docs with
  | [] => set (VList []) args ;;; ret (VList [])
  | filtered =>
      (* the prompt and the chain are built before the try *)
      lift (build_chain chapter_query) ;;;
      try_finally
        (results <- lift (gather (map (answer_single_question chapter_query content_docs)
                                    filtered)) ;;
         (* Cache result *)
         set (VList results) args ;;; ret (VList results))
        (if got_lock then release_lock args else ret tt)
  end.

Definition answer_revision_questions_async (chapter_query : string) : M value :=
  let args := [AStr "revision"; AStr chapter_query] in
  (* Check cache *)
  cached <- get args true 30 ;;
  if truthy cached then ret cached
  else
    (* Coalesce concurrent identical revision requests *)
    got_lock <- acquire_lock args 60 ;;
    if got_lock then revision_compute got_lock chapter_query
    else
      cached2 <- get args true 30 ;;
      if truthy cached2 then ret cached2
      else revision_compute got_lock chapter_query.

End RevisionHandler.

(** Text operations on plain sentences: ASCII letters, single spaces, and
    none of the patterns matching. *)
Definition ascii_lower (c : ascii) : ascii :=
  let n := N_of_ascii c in
  if ((65 <=? n) && (n <=? 90))%N then ascii_of_N (n + 32) else c.

Fixpoint lower_ascii (s : string) : string :=
  match s with
  | EmptyString => EmptyString
  | String c s' => String (ascii_lower c) (lower_ascii s')
  end.

Definition plain_text : Text := {|
  lower := lower_ascii;
  re_sub := fun _ _ _ text => text;
  re_match := fun _ _ => false;
  py_repr := fun _ => EmptyString
|}.

(** A vector store holding one revision question, and a chain with one
    answer to everything. *)
Definition question_doc : Document :=
  mkDocument (VStr "What is the function of the cell membrane?")
    [("type", "revision"); ("chapter", "1.5")].

Definition one_question : Upstream := {|
  similarity_search := fun _ _ _ => Ok [question_doc];
  estimate_tokens := fun s => len s;
  summary_chain := fun _ _ => Raise UpstreamError;
  answer_chain := fun _ => Raise UpstreamError
|}.

Definition answers_with (r : result (string * string)) : RevisionChain := {|
  build_chain := fun _ => Ok tt;
  question_chain := fun _ _ _ => r
|}.

(** A chain whose prompt cannot be built. *)
Definition prompt_refused : RevisionChain := {|
  build_chain := fun _ => Raise UpstreamError;
  question_chain := fun _ _ _ => Raise UpstreamError
|}.

(** The shared store is in use and answers. *)
Definition store_answers (w : World) : Prop := ∃ r, is_shared w r ∧ healthy r.

(** Nothing is cached for [args]: neither an entry nor a lock record, in
    the local mapping or in a shared store that answers. *)
Definition fresh_for `{Environment} (args : list arg) (w : World) : Prop :=
  (is_local w ∧
   _mem_cache (self w) !! _hash_key args = None ∧
   _mem_cache (self w) !! mem_lock_key (_hash_key args) = None) ∨
  (∃ r, is_shared w r ∧ healthy r ∧
        visible (clock w) (db r) (_redis_key (_hash_key args)) = None ∧
        visible (clock w) (db r) (_redis_key (_hash_key args) +:+ lock_suffix) = None).

(** The store answers and holds the record [(s, exp)] under the key of
    [args]. *)
Definition published `{Environment} (args : list arg) (s : string) (exp : Z) (w : World)
    : Prop :=
  store_answers w ∧
  ∃ r, _redis (self w) = Some r ∧ db r !! _redis_key (_hash_key args) = Some (s, exp).

(** ** parse_bilingual *)

(** [s[n:]] for [n] bytes *)
Fixpoint string_drop (n : nat) (s : string) : string :=
  match n, s with
  | S n', String _ s' => string_drop n' s'
  | _, _ => s
  end.

(** [s.split(sep, 1)] when [sep] occurs in [s]: what stands before and
    after the first occurrence. *)
Fixpoint split_once (sep s : string) : option (string * string) :=
  if String.prefix sep s then Some (EmptyString, string_drop (String.length sep) s)
  else
    match s with
    | EmptyString => None
    | String c s' =>
        match split_once sep s' with
        | Some (before, rest) => Some (String c before, rest)
        | None => None
        end
    end.

(** [s.replace(old, '')] for a non-empty [old]: the occurrences found from
    left to right, without overlap, are removed.  [skip] counts what is left
    of the occurrence being removed. *)
Fixpoint remove_all (old : string) (skip : nat) (s : string) : string :=
  match s with
  | EmptyString => EmptyString
  | String c s' =>
      match skip with
      | S k => remove_all old k s'
      | O =>
          if String.prefix old s then remove_all old (String.length old - 1) s'
          else String c (remove_all old 0 s')
      end
  end.

(** [obj.get(key)] on a dict *)
Fixpoint dict_get (key : string) (obj : list (string * value)) : option value :=
  match obj with
  | [] => None
  | (k, v) :: rest => if String.eqb k key then Some v else dict_get key rest
  end.

Section ParseBilingual.

Context `{Environment} `{Text}.

(** The text of a chain output: the output itself when it is a string,
    else its [output_text], its [answer] or its [str()]. *)
Definition output_string (output_text : value) : result string :=
  match output_text with
  | VStr s => Ok s
  | VDict obj =>
      let or_else (x : option value) (otherwise : value) : value :=
        match x with
        | Some v => if truthy v then v else otherwise
        | None => otherwise
        end in
      match or_else (dict_get "output_text" obj)
              (or_else (dict_get "answer" obj) (VStr (py_repr output_text))) with
      | VStr s => Ok s
      | _ => Raise AttributeError
      end
  | _ => Raise AttributeError
  end.

(** Extract English and Swahili from explicit format. *)
Definition parse_bilingual (output_text : value) : result (string * string) :=
  match output_string output_text with
  | Raise e => Raise e
  | Ok output_text =>
      let text := strip output_text in
      let fallback := (text, "(Swahili version not available)"%string) in
      (* Try parsing explicit ENGLISH:/SWAHILI: format *)
      if contains "ENGLISH:" text && contains "SWAHILI:" text then
        match split_once "SWAHILI:" text with
        | Some (part0, part1) => Ok (strip (remove_all "ENGLISH:" 0 part0), strip part1)
        | None => Ok (strip (remove_all "ENGLISH:" 0 text), EmptyString)
        end
      else
        (* Fallback: try JSON *)
        match loads text with
        | Some (VDict obj) =>
            match dict_get "english" obj, dict_get "swahili" obj with
            | Some (VStr english), Some (VStr swahili) => Ok (strip english, strip swahili)
            | _, _ => Ok fallback
            end
        | _ => Ok fallback
        end
  end.

End ParseBilingual.

(** An answer in the format the prompts ask for, with a no-break space
    after the English text and an em space after the Swahili one. *)
Definition formatted_answer : string :=
  String "010" ("ENGLISH: A cell." +:+ nbsp +:+
  String "010" ("SWAHILI: Seli." +:+ em_space +:+ String "010" EmptyString)).

(** ** QueryCache.__init__ *)

(** PING *)
Definition redis_ping : Redis -> Redis * result bool := command (fun d => (d, Ok true)).

(** [QueryCache(ttl_seconds, redis_url)].  [redis_available] tells whether
    the [redis] module could be imported, and [from_url] stands for
    [redis.from_url], which raises or yields a client. *)
Definition __init__ (ttl_seconds : Z) (redis_url : option string)
    (redis_available : bool) (from_url : string -> result Redis) : QueryCache :=
  let self := mkQueryCache ttl_seconds ∅ false None in
  match redis_url with
  | Some url =>
      if redis_available && negb (String.eqb url "") then
        match from_url url with
        | Raise _ => self
        | Ok client =>
            (* quick ping to validate connection *)
            match redis_ping client with
            | (client', Ok _) => mkQueryCache ttl_seconds ∅ true (Some client')
            | (client', Raise _) =>
                (* If Redis is misconfigured/unreachable, fall back to memory cache *)
                mkQueryCache ttl_seconds ∅ false (Some client')
            end
        end
      else self
  | None => self
  end.

(** The variant in use, and whether a client object is present. *)
Definition wired (use_redis client : bool) (w : World) : Prop :=
  _use_redis (self w) = use_redis ∧ bool_decide (is_Some (_redis (self w))) = client.

(** A store to which the connection fails at the first call. *)
Definition unreachable : Redis := mkRedis ∅ [true].

(** Another worker that deletes the lock record of [rk] while this caller
    sleeps, without publishing anything. *)
Definition giving_up (rk : string) : Environment := {|
  dumps := Json.dumps;
  loads := Json.loads;
  others := fun _ d => delete (rk +:+ lock_suffix) d
|}.

(** Another worker that publishes the record [(s, exp)] under [rk] while
    this caller sleeps. *)
Definition publishing (rk s : string) (exp : Z) : Environment := {|
  dumps := Json.dumps;
  loads := Json.loads;
  others := fun _ d => <[rk := (s, exp)]> d
|}.
(** * Properties *)

(** ** The digest *)

Section Digest.

Example hexdigest_empty : MD5.hexdigest "" = "d41d8cd98f00b204e9800998ecf8427e"%string.
Proof. vm_compute. reflexivity. Qed.

Example hexdigest_abc : MD5.hexdigest "abc" = "900150983cd24fb0d6963f7d28e17f72"%string.
Proof. vm_compute. reflexivity. Qed.

Example hexdigest_two_blocks :
  MD5.hexdigest "12345678901234567890123456789012345678901234567890123456789012345678901234567890"
  = "57edf4a22be3c955ac49da2e2107b67a"%string.
Proof. vm_compute. reflexivity. Qed.

Lemma hex_length (bs : list Z) : String.length (MD5.hex bs) = (2 * length bs)%nat.
Proof. induction bs as [|b bs IH]; simpl; [reflexivity | rewrite IH; lia]. Qed.

Lemma digest_length (msg : list Z) : length (MD5.digest msg) = 16%nat.
Proof. unfold MD5.digest. cbv zeta. rewrite !length_app. reflexivity. Qed.

Lemma hexdigest_length (s : string) : String.length (MD5.hexdigest s) = 32%nat.
Proof. unfold MD5.hexdigest. rewrite hex_length, digest_length. reflexivity. Qed.

End Digest.

(** ** Keys *)

Section Keys.

Lemma length_append (s1 s2 : string) :
  String.length (s1 +:+ s2) = (String.length s1 + String.length s2)%nat.
Proof. induction s1 as [|c s1 IH]; simpl; [reflexivity | now rewrite IH]. Qed.

Lemma append_inj_r (t s1 s2 : string) : s1 +:+ t = s2 +:+ t -> s1 = s2.
Proof.
  revert s2. induction s1 as [|c s1 IH]; intros [|c' s2] H; simpl in H.
  - reflexivity.
  - apply (f_equal String.length) in H. simpl in H. rewrite !length_append in H. simpl in H. lia.
  - apply (f_equal String.length) in H. simpl in H. rewrite !length_append in H. simpl in H. lia.
  - injection H as -> H. f_equal. now apply IH.
Qed.

Lemma hash_key_length (args : list arg) : String.length (_hash_key args) = 32%nat.
Proof. apply hexdigest_length. Qed.

(** An entry key of the local mapping is never the key of a lock record. *)
Lemma mem_lock_key_not_entry (a b : list arg) : mem_lock_key (_hash_key a) ≠ _hash_key b.
Proof.
  intros H. apply (f_equal String.length) in H.
  unfold mem_lock_key in H. rewrite length_append, !hash_key_length in H. discriminate.
Qed.

Lemma mem_lock_key_inj (k1 k2 : string) : mem_lock_key k1 = mem_lock_key k2 -> k1 = k2.
Proof. unfold mem_lock_key. intros H. now injection H. Qed.

(** Nor is an entry key of the shared store the key of a lock record. *)
Lemma redis_lock_key_not_entry (a b : list arg) :
  _redis_key (_hash_key a) +:+ lock_suffix ≠ _redis_key (_hash_key b).
Proof.
  intros H. apply (f_equal String.length) in H.
  unfold _redis_key in H. rewrite !length_append, !hash_key_length in H. discriminate.
Qed.

Lemma redis_lock_key_inj (k1 k2 : string) :
  _redis_key k1 +:+ lock_suffix = _redis_key k2 +:+ lock_suffix -> k1 = k2.
Proof. intros H. apply append_inj_r in H. unfold _redis_key in H. now injection H. Qed.

End Keys.

(** ** The joined string of well-formed tuples *)

Section JoinedInput.

Lemma occurs_append (c : ascii) (s1 s2 : string) :
  occurs c (s1 +:+ s2) = occurs c s1 || occurs c s2.
Proof.
  induction s1 as [|c' s1 IH]; simpl; [reflexivity|].
  rewrite IH. now rewrite orb_assoc.
Qed.

Lemma join_cons2 (p q : string) (rest : list string) :
  join "|" (p :: q :: rest) = p +:+ String "|" (join "|" (q :: rest)).
Proof. reflexivity. Qed.

Lemma delimited_has_delimiter (p x : string) : occurs "|" (p +:+ String "|" x) = true.
Proof. rewrite occurs_append. simpl. apply orb_true_r. Qed.

(** Cutting at the first delimiter is unambiguous. *)
Lemma split_unique (p q x y : string) :
  delimiter_free p -> delimiter_free q ->
  p +:+ String "|" x = q +:+ String "|" y -> p = q ∧ x = y.
Proof.
  unfold delimiter_free. revert q.
  induction p as [|c p IH]; intros [|c' q] Hp Hq H; simpl in *.
  - injection H as ->. now split.
  - injection H as <- _. simpl in Hq. discriminate.
  - injection H as -> _. simpl in Hp. discriminate.
  - injection H as -> H.
    apply orb_false_iff in Hp as [_ Hp]. apply orb_false_iff in Hq as [_ Hq].
    destruct (IH q Hp Hq H) as [-> ->]. now split.
Qed.

Lemma join_inj (a b : list string) :
  a ≠ [] -> b ≠ [] ->
  Forall delimiter_free a -> Forall delimiter_free b ->
  join "|" a = join "|" b -> a = b.
Proof.
  revert b. induction a as [|p a IH]; intros b Ha Hb Fa Fb H; [congruence|].
  destruct b as [|q b]; [congruence|].
  apply Forall_cons in Fa as [Fp Fa]. apply Forall_cons in Fb as [Fq Fb].
  destruct a as [|p2 a], b as [|q2 b].
  - simpl in H. now subst.
  - rewrite join_cons2 in H. change (join "|" [p]) with p in H. subst p.
    unfold delimiter_free in Fp. rewrite delimited_has_delimiter in Fp. discriminate.
  - rewrite join_cons2 in H. change (join "|" [q]) with q in H. subst q.
    unfold delimiter_free in Fq. rewrite delimited_has_delimiter in Fq. discriminate.
  - rewrite !join_cons2 in H.
    destruct (split_unique _ _ _ _ Fp Fq H) as [-> H'].
    f_equal. apply IH; auto; congruence.
Qed.

End JoinedInput.

(** ** Key hashing *)

Section KeyHashing.

Example collision_key :
  _hash_key collision_a = "faad49866e9498fc1719f5289e7a0269"%string.
Proof. vm_compute. reflexivity. Qed.

(** C8, counterexample.  The two tuples are well formed and distinct and
    their joined strings differ, yet both hash to the same key.  Moreover the
    tuples [(1,)] and [("1",)] are distinct with the same joined string, and
    so are [()] and [("",)]. *)
Lemma hash_key_not_collision_free :
  (well_formed collision_a ∧ well_formed collision_b ∧
   collision_a ≠ collision_b ∧ key_str collision_a ≠ key_str collision_b ∧
   _hash_key collision_a = _hash_key collision_b) ∧
  (well_formed [AInt 1] ∧ well_formed [AStr "1"] ∧
   [AInt 1] ≠ [AStr "1"] ∧ key_str [AInt 1] = key_str [AStr "1"]) ∧
  (([] : list arg) ≠ [AStr ""] ∧ key_str [] = key_str [AStr ""]).
Proof.
  split; [|split].
  - split; [split; [discriminate | repeat constructor] |].
    split; [split; [discriminate | repeat constructor] |].
    split; [|split].
    + intros E. apply (f_equal key_str) in E. apply String.eqb_eq in E.
      vm_compute in E. discriminate.
    + intros E. apply String.eqb_eq in E. vm_compute in E. discriminate.
    + vm_compute. reflexivity.
  - split; [split; [discriminate | repeat constructor] |].
    split; [split; [discriminate | repeat constructor] |].
    split; [discriminate | vm_compute; reflexivity].
  - split; [discriminate | vm_compute; reflexivity].
Qed.

(** C8, amended.  Hashing is a function of the tuple and every key has 32
    characters.  Two non-empty tuples whose parts contain no delimiter and
    whose parts do not all print alike have different joined strings.  (The
    keys then differ unless the digest collides on the two strings.) *)
Theorem hash_key_deterministic_join_injective (a b : list arg) :
  (a = b -> _hash_key a = _hash_key b) ∧
  String.length (_hash_key a) = 32%nat ∧
  (well_formed a -> well_formed b -> map str a ≠ map str b -> key_str a ≠ key_str b).
Proof.
  split; [now intros -> |]. split; [apply hash_key_length |].
  intros [Ha Fa] [Hb Fb] Hne Heq. apply Hne.
  apply join_inj; auto.
  - now destruct a.
  - now destruct b.
  - now apply Forall_map.
  - now apply Forall_map.
Qed.

Lemma hash_key_deterministic_join_injective_witness :
  key_str [AStr "summarize"; AStr "1"] ≠ key_str [AStr "revision"; AStr "1"].
Proof.
  apply (proj2 (proj2 (hash_key_deterministic_join_injective
                         [AStr "summarize"; AStr "1"] [AStr "revision"; AStr "1"]))).
  - split; [discriminate | repeat constructor].
  - split; [discriminate | repeat constructor].
  - discriminate.
Defined.

End KeyHashing.

(** ** The JSON codec *)

Section Codec.

Example json_dumps_bilingual :
  Json.dumps (VDict [("english", VStr "X"); ("swahili", VStr "Y")]) =
  String "{"%char (String Json.dquote ("english" +:+ String Json.dquote (": " +:+
    String Json.dquote ("X" +:+ String Json.dquote (", " +:+
    String Json.dquote ("swahili" +:+ String Json.dquote (": " +:+
    String Json.dquote ("Y" +:+ String Json.dquote "}")))))))).
Proof. vm_compute. reflexivity. Qed.

Example json_roundtrip :
  let v := VList [VDict [("question_text", VStr "What is a cell?");
                         ("answer", VDict [("english", VStr "A unit of life");
                                           ("swahili", VStr "")])];
                  VInt (-12); VNone; VBool true; VList []] in
  Json.loads (Json.dumps v) = Some v.
Proof. vm_compute. reflexivity. Qed.

End Codec.

(** ** Entries: round trip and expiry *)

Section Entries.

Context `{Environment}.

Lemma set_local (w : World) (v : value) (a : list arg) :
  is_local w ->
  set v a w = (with_mem (<[_hash_key a := (v, clock w)]> (_mem_cache (self w))) w, Ok tt).
Proof. intros Hl. unfold set, use_redis_and_client. rewrite Hl. reflexivity. Qed.

Lemma get_local (w : World) (a : list arg) (wait : bool) (lt : Z) :
  is_local w ->
  get a wait lt w =
    match _mem_cache (self w) !! _hash_key a with
    | Some (result, timestamp) =>
        if clock w - timestamp <? seconds (ttl_seconds (self w)) then (w, Ok result)
        else (with_mem (delete (_hash_key a) (_mem_cache (self w))) w, Ok VNone)
    | None => (w, Ok VNone)
    end.
Proof. intros Hl. unfold get. rewrite Hl. reflexivity. Qed.

(** What a successful [set] leaves in the shared store. *)
Lemma set_shared (w : World) (r : Redis) (v : value) (a : list arg) :
  is_shared w r -> healthy r -> 0 < ttl_seconds (self w) ->
  set v a w =
    (with_redis
       (Some (mkRedis
                (delete (_redis_key (_hash_key a) +:+ lock_suffix)
                   (<[_redis_key (_hash_key a) :=
                        (dumps v, clock w + seconds (ttl_seconds (self w)))]> (db r)))
                [])) w,
     Ok tt).
Proof.
  intros [Hu Hr] Hh Httl. destruct w as [[ttl mem ur rd] clk]. simpl in *. subst ur rd.
  destruct r as [d fs]. unfold healthy in Hh. simpl in Hh. subst fs.
  unfold set, use_redis_and_client, try_except, bind, on_redis, redis_set, redis_delete,
    command. simpl.
  destruct (ttl <=? 0) eqn:E; [apply Z.leb_le in E; lia |]. reflexivity.
Qed.

Lemma val_truthy_nonempty (s : string) : s ≠ ""%string -> val_truthy (Some s) = Some s.
Proof.
  intros Hs. unfold val_truthy. destruct (String.eqb_spec s ""); [contradiction | reflexivity].
Qed.

Lemma decode_ok (s : string) (v : value) (w : World) :
  loads s = Some v -> decode s w = (w, Ok v).
Proof. intros Hl. unfold decode, try_except, json_loads. rewrite Hl. reflexivity. Qed.

(** A read that finds a live, non-empty record decodes it. *)
Lemma get_shared_hit (w : World) (r : Redis) (a : list arg) (wait : bool) (lt : Z) (s : string) :
  is_shared w r -> healthy r ->
  visible (clock w) (db r) (_redis_key (_hash_key a)) = Some s -> s ≠ ""%string ->
  get a wait lt w = decode s w.
Proof.
  intros [Hu Hr] Hh Hv Hs. destruct w as [[ttl mem ur rd] clk]. simpl in *. subst ur rd.
  destruct r as [d fs]. unfold healthy in Hh. simpl in *. subst fs.
  unfold get, on_redis, redis_get, command. simpl. rewrite Hv.
  rewrite val_truthy_nonempty by assumption. reflexivity.
Qed.

(** While the record under [rk] is invisible and nobody writes it, polling
    finds nothing. *)
Lemma poll_absent (rk : string) (lt : Z) (fuel : nat) :
  others_keep rk ->
  ∀ (waited : Z) (w : World) (r : Redis) (res : World * result value),
    _redis (self w) = Some r -> healthy r ->
    (∀ t, clock w <= t -> visible t (db r) rk = None) ->
    poll fuel rk lt waited w = Some res -> res.2 = Ok VNone.
Proof.
  intros Hk. induction fuel as [|fuel IH]; intros waited w r res Hr Hh Hv Hp; [discriminate|].
  destruct w as [[ttl mem ur rd] clk]. simpl in *. subst rd.
  destruct r as [d fs]. unfold healthy in Hh. simpl in *. subst fs.
  destruct (waited <? seconds lt); [| now inversion Hp].
  unfold on_redis, redis_get, redis_exists, command in Hp. simpl in Hp.
  rewrite (Hv clk) in Hp by lia. simpl in Hp.
  destruct (bool_decide _) eqn:E in Hp; [| now inversion Hp].
  eapply IH in Hp; [exact Hp | reflexivity | reflexivity |].
  simpl. intros t Ht. unfold visible. rewrite Hk.
  apply (Hv t). unfold poll_interval in Ht. lia.
Qed.

(** C6, amended.  After [set v a], a [get a] returns [v] when less than the
    time-to-live has elapsed (local variant), or when no more than the
    time-to-live has elapsed, the store answers every call, the time-to-live
    is positive and [v] survives encoding and decoding (shared variant). *)
Theorem set_get_roundtrip (w : World) (a : list arg) (v : value) (d : Z)
    (wait : bool) (lt : Z) :
  let w' := elapse d (after (set v a) w) in
  (is_local w -> d < seconds (ttl_seconds (self w)) ->
   outcome (get a wait lt) w' = Ok v) ∧
  (∀ r, is_shared w r -> healthy r -> 0 < ttl_seconds (self w) ->
        d <= seconds (ttl_seconds (self w)) ->
        dumps v ≠ ""%string -> loads (dumps v) = Some v ->
        outcome (get a wait lt) w' = Ok v).
Proof.
  cbv zeta. unfold after, outcome. split.
  - intros Hl Hd. rewrite set_local by assumption. rewrite get_local by exact Hl.
    simpl. rewrite lookup_insert_eq.
    destruct (_ <? _) eqn:E; [reflexivity | apply Z.ltb_ge in E; lia].
  - intros r Hs Hh Httl Hd Hne Hrt. rewrite (set_shared w r) by assumption.
    destruct Hs as [Hu Hr]. simpl.
    match goal with
    | |- context [with_redis (Some ?r') w] =>
        rewrite (get_shared_hit _ r' a wait lt (dumps v))
    end.
    + now rewrite (decode_ok _ v).
    + split; [exact Hu | reflexivity].
    + reflexivity.
    + simpl. unfold visible.
      rewrite lookup_delete_ne by (apply redis_lock_key_not_entry).
      rewrite lookup_insert_eq. unfold live. simpl.
      destruct (_ <=? _) eqn:E; [reflexivity | apply Z.leb_gt in E; lia].
    + exact Hne.
Qed.

Lemma get_shared_miss (w : World) (r : Redis) (a : list arg) (wait : bool) (lt : Z) :
  is_shared w r -> healthy r ->
  visible (clock w) (db r) (_redis_key (_hash_key a)) = None ->
  get a wait lt w =
    if wait
    then default (w, Ok VNone) (poll (poll_fuel lt) (_redis_key (_hash_key a)) lt 0 w)
    else (w, Ok VNone).
Proof.
  intros [Hu Hr] Hh Hv. destruct w as [[ttl mem ur rd] clk]. simpl in *. subst ur rd.
  destruct r as [d fs]. unfold healthy in Hh. simpl in *. subst fs.
  unfold get, on_redis, redis_get, command. simpl. rewrite Hv. reflexivity.
Qed.

(** C7.  An entry written by [set] is absent for every [get] that runs
    later than the time-to-live after the write.  In the local variant that
    read deletes the entry from the mapping and leaves the records under all
    other keys as they were; in the shared variant (the store answering, a
    positive time-to-live, nobody else writing the entry) the record has
    expired in the store. *)
Theorem expired_entry_is_absent (w : World) (a : list arg) (v : value) (d : Z)
    (wait : bool) (lt : Z) :
  let w1 := after (set v a) w in
  let w2 := elapse d w1 in
  seconds (ttl_seconds (self w)) < d ->
  (is_local w ->
   outcome (get a wait lt) w2 = Ok VNone ∧
   _mem_cache (self w1) !! _hash_key a = Some (v, clock w) ∧
   _mem_cache (self (after (get a wait lt) w2)) !! _hash_key a = None ∧
   ∀ k, k ≠ _hash_key a ->
        _mem_cache (self (after (get a wait lt) w2)) !! k = _mem_cache (self w1) !! k) ∧
  (∀ r, is_shared w r -> healthy r -> 0 < ttl_seconds (self w) ->
        others_keep (_redis_key (_hash_key a)) ->
        outcome (get a wait lt) w2 = Ok VNone).
Proof.
  cbv zeta. unfold after, outcome. intros Hd. split.
  - intros Hl. rewrite set_local by assumption. rewrite get_local by exact Hl.
    simpl. rewrite lookup_insert_eq.
    destruct (_ <? _) eqn:E; [apply Z.ltb_lt in E; lia |]. simpl.
    split; [reflexivity |]. split; [reflexivity |]. split.
    + apply lookup_delete_eq.
    + intros k Hk. now rewrite lookup_delete_ne by congruence.
  - intros r Hs Hh Httl Hk. rewrite (set_shared w r) by assumption.
    destruct Hs as [Hu Hr]. simpl.
    match goal with
    | |- context [with_redis (Some ?r') w] => set (r1 := r')
    end.
    assert (Hv : ∀ t, clock w + d <= t ->
                      visible t (db r1) (_redis_key (_hash_key a)) = None).
    { intros t Ht. unfold visible, r1. simpl.
      rewrite lookup_delete_ne by (apply redis_lock_key_not_entry).
      rewrite lookup_insert_eq. unfold live. simpl.
      destruct (_ <=? _) eqn:E; [apply Z.leb_le in E; lia | reflexivity]. }
    rewrite (get_shared_miss _ r1).
    + destruct wait; [| reflexivity].
      destruct (poll _ _ _ _ _) as [res|] eqn:Hp; [| reflexivity].
      simpl. eapply (poll_absent _ _ _ Hk) in Hp; [exact Hp | reflexivity | reflexivity |].
      exact Hv.
    + split; [exact Hu | reflexivity].
    + reflexivity.
    + apply Hv. simpl. lia.
Qed.

End Entries.

(** C6, counterexample.  In the local variant an entry written at instant 0
    with a time-to-live of 600 s is already gone at instant 600 s, although
    time has not advanced beyond the time-to-live. *)
Lemma roundtrip_fails_at_ttl :
  let v := VDict [("english", VStr "X"); ("swahili", VStr "Y")] in
  let a := [AStr "summarize"; AStr "1"] in
  let w := mkWorld (local_cache 600) 0 in
  ¬ (600000 > seconds 600) ∧
  outcome (get a true 30) (elapse 600000 (after (set v a) w)) = Ok VNone ∧
  outcome (get a true 30) (elapse 600000 (after (set v a) w)) ≠ Ok v.
Proof.
  cbv zeta. split; [vm_compute; intros E; discriminate E |].
  assert (E : outcome (get [AStr "summarize"; AStr "1"] true 30)
                (elapse 600000
                   (after (set (VDict [("english", VStr "X"); ("swahili", VStr "Y")])
                             [AStr "summarize"; AStr "1"]) (mkWorld (local_cache 600) 0)))
              = Ok VNone) by (vm_compute; reflexivity).
  rewrite E. split; [reflexivity | discriminate].
Qed.

Lemma set_get_roundtrip_witness :
  let v := VDict [("english", VStr "X"); ("swahili", VStr "Y")] in
  let a := [AStr "summarize"; AStr "1"] in
  outcome (get a true 30) (elapse 599999 (after (set v a) (mkWorld (local_cache 600) 0))) = Ok v ∧
  outcome (get a true 30)
    (elapse 600000 (after (set v a) (mkWorld (shared_cache 600 (mkRedis ∅ [])) 0))) = Ok v.
Proof.
  split.
  - apply (proj1 (set_get_roundtrip (mkWorld (local_cache 600) 0) _ _ 599999 true 30)).
    + reflexivity.
    + unfold seconds. simpl. lia.
  - apply (proj2 (set_get_roundtrip (mkWorld (shared_cache 600 (mkRedis ∅ [])) 0)
                    _ _ 600000 true 30) (mkRedis ∅ [])).
    + split; reflexivity.
    + reflexivity.
    + simpl. lia.
    + unfold seconds. simpl. lia.
    + intros E. apply String.eqb_eq in E. vm_compute in E. discriminate.
    + vm_compute. reflexivity.
Defined.


Lemma expired_entry_is_absent_witness :
  let v := VDict [("english", VStr "X"); ("swahili", VStr "Y")] in
  let a := [AStr "summarize"; AStr "1"] in
  outcome (get a true 30) (elapse 601000 (after (set v a) (mkWorld (local_cache 600) 0)))
    = Ok VNone ∧
  outcome (get a true 30)
    (elapse 601000 (after (set v a) (mkWorld (shared_cache 600 (mkRedis ∅ [])) 0))) = Ok VNone.
Proof.
  split.
  - apply (proj1 (expired_entry_is_absent (mkWorld (local_cache 600) 0) _ _ 601000 true 30
                    ltac:(unfold seconds; simpl; lia))).
    reflexivity.
  - apply (proj2 (expired_entry_is_absent (mkWorld (shared_cache 600 (mkRedis ∅ [])) 0)
                    _ _ 601000 true 30 ltac:(unfold seconds; simpl; lia)) (mkRedis ∅ [])).
    + split; reflexivity.
    + reflexivity.
    + simpl. lia.
    + intros t d. reflexivity.
Defined.

(** ** The coalescing lock *)

Section Locks.

Context `{Environment}.

Lemma acquire_local (w : World) (a : list arg) (lock_ttl : Z) :
  use_redis_and_client w = false ->
  acquire_lock a lock_ttl w =
    match _mem_cache (self w) !! mem_lock_key (_hash_key a) with
    | Some _ => (w, Ok false)
    | None =>
        (with_mem (<[mem_lock_key (_hash_key a) := (VDict [], clock w)]> (_mem_cache (self w))) w,
         Ok true)
    end.
Proof. intros Hl. unfold acquire_lock. rewrite Hl. reflexivity. Qed.

Lemma local_not_client (w : World) : is_local w -> use_redis_and_client w = false.
Proof. intros Hl. unfold use_redis_and_client. now rewrite Hl. Qed.

Lemma shared_client (w : World) (r : Redis) : is_shared w r -> use_redis_and_client w = true.
Proof. intros [Hu Hr]. unfold use_redis_and_client. now rewrite Hu, Hr. Qed.

(** What [acquire_lock] does on the shared store when the call goes through. *)
Lemma acquire_shared (w : World) (r : Redis) (a : list arg) (lock_ttl : Z) :
  is_shared w r -> next_call_ok w -> 0 < lock_ttl ->
  acquire_lock a lock_ttl w =
    let lock_key := _redis_key (_hash_key a) +:+ lock_suffix in
    match visible (clock w) (db r) lock_key with
    | Some _ => (with_redis (Some (mkRedis (db r) (tail (faults r)))) w, Ok false)
    | None =>
        (with_redis
           (Some (mkRedis (<[lock_key := ("1"%string, clock w + seconds lock_ttl)]> (db r))
                          (tail (faults r)))) w,
         Ok true)
    end.
Proof.
  intros [Hu Hr] Hn Httl. destruct w as [[ttl mem ur rd] clk].
  unfold next_call_ok in Hn. simpl in *. subst ur rd.
  unfold acquire_lock, use_redis_and_client, try_except, on_redis, redis_set_nx, command.
  simpl. destruct r as [d fs]. simpl in *.
  destruct (lock_ttl <=? 0) eqn:E; [apply Z.leb_le in E; lia |].
  destruct fs as [|[] fs]; [| contradiction |]; simpl;
    destruct (visible clk d _); reflexivity.
Qed.

(** The shared variant of [set] does release the lock. *)
Lemma shared_set_releases_lock (w : World) (r : Redis) (v : value) (a : list arg) :
  is_shared w r -> healthy r -> 0 < ttl_seconds (self w) ->
  lock_held (_hash_key a) (after (set v a) w) = false.
Proof.
  intros Hs Hh Httl. unfold after. rewrite (set_shared w r) by assumption.
  destruct Hs as [Hu Hr]. unfold lock_held, use_redis_and_client. simpl. rewrite Hu. simpl.
  unfold visible. now rewrite lookup_delete_eq.
Qed.

(** On the shared store a lock that is not released expires with its
    time-to-live. *)
Lemma shared_lock_expires (w : World) (r : Redis) (a : list arg) (lock_ttl lock_ttl' d : Z) :
  is_shared w r -> healthy r -> 0 < lock_ttl -> 0 < lock_ttl' ->
  lock_held (_hash_key a) w = false ->
  seconds lock_ttl < d ->
  outcome (acquire_lock a lock_ttl) w = Ok true ∧
  outcome (acquire_lock a lock_ttl') (elapse d (after (acquire_lock a lock_ttl) w)) = Ok true.
Proof.
  intros Hs Hh Httl Httl' Hfree Hd.
  assert (Hn : next_call_ok w).
  { destruct Hs as [_ Hr]. unfold next_call_ok. rewrite Hr. now rewrite Hh. }
  unfold outcome, after. rewrite (acquire_shared w r) by assumption. cbv zeta.
  unfold lock_held in Hfree. rewrite (shared_client w r Hs) in Hfree.
  destruct Hs as [Hu Hr]. rewrite Hr in Hfree.
  destruct (visible (clock w) (db r) _) eqn:Hv; [discriminate Hfree |].
  split; [reflexivity |]. simpl.
  match goal with
  | |- context [with_redis (Some ?r') w] => rewrite (acquire_shared _ r')
  end.
  - cbv zeta. simpl. unfold visible. rewrite lookup_insert_eq. unfold live. simpl.
    destruct (_ <=? _) eqn:E; [apply Z.leb_le in E; lia | reflexivity].
  - split; [exact Hu | reflexivity].
  - unfold next_call_ok. simpl. now rewrite Hh.
  - assumption.
Qed.

(** C2, on the code.  In the local variant [set] leaves the lock record in
    place: a caller acquires the lock on a fresh cache, publishes with
    [set], and the next [acquire_lock] for the same arguments still fails. *)
Theorem local_set_keeps_lock (ttl now : Z) (a : list arg) (v : value) (lock_ttl : Z) :
  let w0 := mkWorld (local_cache ttl) now in
  let w1 := after (acquire_lock a lock_ttl) w0 in
  let w2 := after (set v a) w1 in
  outcome (acquire_lock a lock_ttl) w0 = Ok true ∧
  lock_held (_hash_key a) w2 = true ∧
  outcome (acquire_lock a lock_ttl) w2 = Ok false.
Proof.
  cbv zeta. unfold after, outcome.
  rewrite acquire_local by reflexivity. simpl. rewrite lookup_empty.
  cbn [fst snd]. rewrite set_local by reflexivity. simpl.
  assert (Hk : ∀ m : gmap string (value * Z),
             <[_hash_key a := (v, now)]>
               (<[mem_lock_key (_hash_key a) := (VDict [], now)]> m)
             !! mem_lock_key (_hash_key a) = Some (VDict [], now)).
  { intros m. rewrite lookup_insert_ne by (intros E; symmetry in E;
      now apply mem_lock_key_not_entry in E). apply lookup_insert_eq. }
  split; [reflexivity |]. split.
  - unfold lock_held, use_redis_and_client. simpl. rewrite Hk.
    apply bool_decide_eq_true. eauto.
  - rewrite acquire_local by reflexivity. simpl. now rewrite Hk.
Qed.

(** C3, on the code.  In the local variant the lock record is never
    expired: however much time passes after a successful [acquire_lock], the
    next [acquire_lock] for the same arguments fails. *)
Theorem local_lock_never_expires (ttl now : Z) (a : list arg) (lock_ttl d : Z) :
  let w0 := mkWorld (local_cache ttl) now in
  let w1 := after (acquire_lock a lock_ttl) w0 in
  outcome (acquire_lock a lock_ttl) w0 = Ok true ∧
  outcome (acquire_lock a lock_ttl) (elapse d w1) = Ok false.
Proof.
  cbv zeta. unfold after, outcome.
  rewrite acquire_local by reflexivity. simpl. rewrite lookup_empty. simpl.
  split; [reflexivity |].
  rewrite acquire_local by reflexivity. simpl. now rewrite lookup_insert_eq.
Qed.

End Locks.

Example local_lock_after_an_hour :
  let a := [AStr "summarize"; AStr "1"] in
  outcome (acquire_lock a 30)
    (elapse 3600000 (after (acquire_lock a 30) (mkWorld (local_cache 600) 0))) = Ok false.
Proof. vm_compute. reflexivity. Qed.

(** ** Mutual exclusion *)

Section Preservation.

Context `{Environment}.
Variable P : World -> Prop.

Lemma preserves_ret {A} (x : A) : preserves P (ret x).
Proof. intros w Hw. exact Hw. Qed.

Lemma preserves_raise {A} (e : exn) : preserves P (@raise A e).
Proof. intros w Hw. exact Hw. Qed.

Lemma preserves_gets {A} (f : World -> A) : preserves P (gets f).
Proof. intros w Hw. exact Hw. Qed.

Lemma preserves_lift {A} `{Upstream} (r : result A) : preserves P (lift r).
Proof. intros w Hw. exact Hw. Qed.

Lemma preserves_bind {A B} (m : M A) (k : A -> M B) :
  preserves P m -> (∀ x, preserves P (k x)) -> preserves P (bind m k).
Proof.
  intros Hm Hk w Hw. unfold bind. specialize (Hm w Hw).
  destruct (m w) as [w' [x|e]]; simpl in *; [now apply Hk | exact Hm].
Qed.

Lemma preserves_try_except {A} (body handler : M A) :
  preserves P body -> preserves P handler -> preserves P (try_except body handler).
Proof.
  intros Hb Hh w Hw. unfold try_except. specialize (Hb w Hw).
  destruct (body w) as [w' [x|e]]; simpl in *; [exact Hb | now apply Hh].
Qed.

Lemma preserves_try_finally {A} (body : M A) (cleanup : M unit) :
  preserves P body -> preserves P cleanup -> preserves P (try_finally body cleanup).
Proof.
  intros Hb Hc w Hw. unfold try_finally. specialize (Hb w Hw).
  destruct (body w) as [w' [x|e]]; simpl in *; specialize (Hc w' Hb);
    destruct (cleanup w') as [w'' [[]|e']]; exact Hc.
Qed.

Lemma preserves_decode (s : string) : preserves P (decode s).
Proof.
  unfold decode, json_loads. apply preserves_try_except; [| apply preserves_ret].
  destruct (loads s); [apply preserves_ret | apply preserves_raise].
Qed.

End Preservation.

Section Exclusion.

Context `{Environment}.

Lemma command_quiet {A} (k : string)
    (f : gmap string (string * Z) -> gmap string (string * Z) * result A) (r : Redis) :
  (∀ d, (f d).1 !! k = d !! k) -> db (command f r).1 !! k = db r !! k.
Proof.
  intros Hf. unfold command. specialize (Hf (db r)).
  destruct (faults r) as [|[] fs]; simpl; try reflexivity;
    destruct (f (db r)); simpl in *; exact Hf.
Qed.

Lemma quiet_get (k rk : string) : quiet k (redis_get rk).
Proof. intros now r. now apply command_quiet. Qed.

Lemma quiet_exists (k rk : string) : quiet k (redis_exists rk).
Proof. intros now r. now apply command_quiet. Qed.

Lemma quiet_keys (k prefix : string) : quiet k (redis_keys prefix).
Proof. intros now r. now apply command_quiet. Qed.

Lemma quiet_set (k rk v : string) (ex : Z) : rk ≠ k -> quiet k (redis_set rk v ex).
Proof.
  intros Hne now r. apply command_quiet. intros d.
  destruct (ex <=? 0); simpl; [reflexivity | now apply lookup_insert_ne].
Qed.

Lemma quiet_delete (k k' : string) : k' ≠ k -> quiet k (fun _ : Z => redis_delete [k']).
Proof.
  intros Hne now r. apply command_quiet. intros d. simpl. now apply lookup_delete_ne.
Qed.

Lemma quiet_set_nx (k k' v : string) (ex : Z) : k' ≠ k -> quiet k (redis_set_nx k' v ex).
Proof.
  intros Hne now r. apply command_quiet. intros d.
  destruct (ex <=? 0); simpl; [reflexivity |].
  destruct (visible now d k'); simpl; [reflexivity | now apply lookup_insert_ne].
Qed.

(** *** The clock never goes back *)

Lemma clock_on_redis {A} (c0 : Z) (cmd : Z -> Redis -> Redis * result A) :
  preserves (not_before c0) (on_redis cmd).
Proof.
  intros w Hw. unfold on_redis. destruct (_redis (self w)); [| exact Hw].
  now destruct (cmd (clock w) r).
Qed.

Lemma clock_mem_store (c0 : Z) (k : string) (v : value) :
  preserves (not_before c0) (mem_store k v).
Proof. intros w Hw. exact Hw. Qed.

Lemma clock_poll (c0 : Z) (rk : string) (lt : Z) (fuel : nat) :
  ∀ (waited : Z) (w : World) (res : World * result value),
    not_before c0 w -> poll fuel rk lt waited w = Some res -> not_before c0 res.1.
Proof.
  induction fuel as [|fuel IH]; intros waited w res Hw Hp; [discriminate|].
  simpl in Hp. destruct (waited <? seconds lt); [| now inversion Hp; subst].
  pose proof (clock_on_redis c0 (redis_get rk) w Hw) as H1.
  destruct (on_redis (redis_get rk) w) as [w1 [val|e]]; simpl in H1;
    [| now inversion Hp; subst].
  destruct (val_truthy val) as [s|].
  { inversion Hp; subst. now apply preserves_decode. }
  pose proof (clock_on_redis c0 (redis_exists (rk +:+ lock_suffix)) w1 H1) as H2.
  destruct (on_redis (redis_exists _) w1) as [w2 [[]|e]]; simpl in H2;
    [| now inversion Hp; subst | now inversion Hp; subst].
  eapply IH; [| exact Hp].
  unfold not_before, time_sleep, poll_interval in *. simpl. lia.
Qed.

Lemma clock_get (c0 : Z) (b : list arg) (wait : bool) (lt : Z) :
  preserves (not_before c0) (get b wait lt).
Proof.
  intros w Hw. unfold get. destruct (_use_redis (self w)); cbv zeta.
  - pose proof (clock_on_redis c0 (redis_get (_redis_key (_hash_key b))) w Hw) as H1.
    destruct (on_redis (redis_get _) w) as [w1 [val|e]]; simpl in H1; [| exact H1].
    destruct (val_truthy val) as [s|]; [now apply preserves_decode |].
    destruct wait; [| exact H1].
    destruct (poll _ _ _ _ _) as [res|] eqn:Hp; simpl; [| exact H1].
    eapply clock_poll; eassumption.
  - destruct (_ !! _) as [[result timestamp]|]; [| exact Hw].
    destruct (_ <? _); exact Hw.
Qed.

Lemma clock_set (c0 : Z) (v : value) (b : list arg) : preserves (not_before c0) (set v b).
Proof.
  intros w Hw. unfold set. destruct (use_redis_and_client w); [| exact Hw].
  cbv zeta. generalize (ttl_seconds (self w)). intros ttl. revert w Hw.
  apply preserves_try_except; [| apply clock_mem_store].
  apply preserves_bind; [| intros _]; apply clock_on_redis.
Qed.

Lemma clock_acquire (c0 : Z) (b : list arg) (lock_ttl : Z) :
  preserves (not_before c0) (acquire_lock b lock_ttl).
Proof.
  intros w Hw. unfold acquire_lock. destruct (use_redis_and_client w).
  - revert w Hw. apply preserves_try_except; [apply clock_on_redis | apply preserves_ret].
  - destruct (_ !! _); exact Hw.
Qed.

Lemma clock_release (c0 : Z) (b : list arg) : preserves (not_before c0) (release_lock b).
Proof.
  intros w Hw. unfold release_lock. destruct (use_redis_and_client w).
  - revert w Hw. apply preserves_try_except; [apply clock_on_redis | apply preserves_ret].
  - destruct (_ !! _); exact Hw.
Qed.

Lemma clock_count (c0 : Z) : preserves (not_before c0) get_cache_count.
Proof.
  intros w Hw. unfold get_cache_count. destruct (use_redis_and_client w); [| exact Hw].
  revert w Hw. apply preserves_try_except; [| apply preserves_gets].
  apply preserves_bind; [apply clock_on_redis | intros keys; apply preserves_ret].
Qed.

Lemma clock_step (key : string) (o : op) (w : World) :
  keeps_lock key o -> clock w <= clock (step o w).
Proof.
  intros Hk. assert (Hw : not_before (clock w) w) by (unfold not_before; lia).
  destruct o; simpl in *; unfold after.
  - now apply clock_get.
  - now apply clock_set.
  - now apply clock_acquire.
  - now apply clock_release.
  - contradiction.
  - now apply clock_count.
  - lia.
Qed.

Lemma clock_run (key : string) (tr : list op) :
  Forall (keeps_lock key) tr -> ∀ w, clock w <= clock (run tr w).
Proof.
  induction 1 as [|o tr Ho _ IH]; intros w; [simpl; lia |].
  change (run (o :: tr) w) with (run tr (step o w)).
  pose proof (clock_step key o w Ho). specialize (IH (step o w)). lia.
Qed.

(** *** The lock record in the shared store *)

Lemma shared_lock_on_redis {A} (a : list arg) (exp : Z) (cmd : Z -> Redis -> Redis * result A) :
  quiet (_redis_key (_hash_key a) +:+ lock_suffix) cmd ->
  preserves (shared_lock a exp) (on_redis cmd).
Proof.
  intros Hq w [Hu (r & x & Hr & Hl)]. unfold on_redis. rewrite Hr.
  specialize (Hq (clock w) r). destruct (cmd (clock w) r) as [r' y]. simpl in *.
  split; [exact Hu |]. exists r', x. split; [reflexivity | congruence].
Qed.

Lemma shared_lock_mem_store (a : list arg) (exp : Z) (k : string) (v : value) :
  preserves (shared_lock a exp) (mem_store k v).
Proof. intros w Hw. exact Hw. Qed.

Lemma shared_lock_sleep (a : list arg) (exp : Z) (w : World) :
  others_keep (_redis_key (_hash_key a) +:+ lock_suffix) ->
  shared_lock a exp w -> shared_lock a exp (time_sleep poll_interval w).1.
Proof.
  intros Hk [Hu (r & x & Hr & Hl)]. unfold time_sleep. simpl. rewrite Hr.
  split; [exact Hu |]. eexists _, x. split; [reflexivity |]. simpl. now rewrite Hk.
Qed.

Lemma shared_lock_client (a : list arg) (exp : Z) (w : World) :
  shared_lock a exp w -> _use_redis (self w) = true ∧ use_redis_and_client w = true.
Proof.
  intros [Hu (r & x & Hr & Hl)]. unfold use_redis_and_client. now rewrite Hu, Hr.
Qed.

Lemma shared_lock_poll (a : list arg) (exp : Z) (rk : string) (lt : Z) (fuel : nat) :
  others_keep (_redis_key (_hash_key a) +:+ lock_suffix) ->
  ∀ (waited : Z) (w : World) (res : World * result value),
    shared_lock a exp w ->
    poll fuel rk lt waited w = Some res ->
    shared_lock a exp res.1.
Proof.
  intros Hk. induction fuel as [|fuel IH]; intros waited w res Hw Hp; [discriminate|].
  simpl in Hp. destruct (waited <? seconds lt); [| now inversion Hp; subst].
  pose proof (shared_lock_on_redis a exp _ (quiet_get _ rk) w Hw) as H1.
  destruct (on_redis (redis_get rk) w) as [w1 [val|e]]; simpl in H1;
    [| now inversion Hp; subst].
  destruct (val_truthy val) as [s|].
  { inversion Hp; subst. now apply preserves_decode. }
  pose proof (shared_lock_on_redis a exp _ (quiet_exists _ (rk +:+ lock_suffix)) w1 H1) as H2.
  destruct (on_redis (redis_exists _) w1) as [w2 [[]|e]]; simpl in H2;
    [| now inversion Hp; subst | now inversion Hp; subst].
  eapply IH; [| exact Hp]. now apply shared_lock_sleep.
Qed.

Lemma shared_lock_get (a b : list arg) (exp : Z) (wait : bool) (lt : Z) :
  others_keep (_redis_key (_hash_key a) +:+ lock_suffix) ->
  preserves (shared_lock a exp) (get b wait lt).
Proof.
  intros Hk w Hw. unfold get. destruct (shared_lock_client _ _ _ Hw) as [-> _]. cbv zeta.
  pose proof (shared_lock_on_redis a exp _ (quiet_get _ (_redis_key (_hash_key b))) w Hw)
    as H1.
  destruct (on_redis (redis_get _) w) as [w1 [val|e]]; simpl in H1; [| exact H1].
  destruct (val_truthy val) as [s|]; [now apply preserves_decode |].
  destruct wait; [| exact H1].
  destruct (poll _ _ _ _ _) as [res|] eqn:Hp; simpl; [| exact H1].
  eapply shared_lock_poll; eassumption.
Qed.

Lemma shared_lock_set (a b : list arg) (exp : Z) (v : value) :
  _hash_key b ≠ _hash_key a ->
  preserves (shared_lock a exp) (set v b).
Proof.
  intros Hne w Hw. unfold set. destruct (shared_lock_client _ _ _ Hw) as [_ ->]. cbv zeta.
  generalize (ttl_seconds (self w)). intros ttl.
  revert w Hw. apply preserves_try_except; [| apply shared_lock_mem_store].
  apply preserves_bind; [| intros _]; apply shared_lock_on_redis.
  - apply quiet_set. intros E. symmetry in E. revert E. apply redis_lock_key_not_entry.
  - apply quiet_delete. intros E. apply redis_lock_key_inj in E. congruence.
Qed.

Lemma shared_lock_release (a b : list arg) (exp : Z) :
  _hash_key b ≠ _hash_key a ->
  preserves (shared_lock a exp) (release_lock b).
Proof.
  intros Hne w Hw. unfold release_lock. destruct (shared_lock_client _ _ _ Hw) as [_ ->].
  cbv zeta. revert w Hw. apply preserves_try_except; [| apply preserves_ret].
  apply shared_lock_on_redis. apply quiet_delete.
  intros E. apply redis_lock_key_inj in E. congruence.
Qed.

Lemma shared_lock_count (a : list arg) (exp : Z) :
  preserves (shared_lock a exp) get_cache_count.
Proof.
  intros w Hw. unfold get_cache_count. destruct (shared_lock_client _ _ _ Hw) as [_ ->].
  revert w Hw. apply preserves_try_except; [| apply preserves_gets].
  apply preserves_bind; [| intros keys; apply preserves_ret].
  apply shared_lock_on_redis. apply quiet_keys.
Qed.

(** While the lock record of [a] is live, [acquire_lock] fails for every
    tuple with the key of [a], and leaves the record in place whatever tuple
    it is called for. *)
Lemma shared_lock_acquire (a b : list arg) (exp : Z) (lock_ttl : Z) (w : World) :
  shared_lock a exp w -> clock w <= exp ->
  shared_lock a exp (after (acquire_lock b lock_ttl) w) ∧
  (_hash_key b = _hash_key a -> outcome (acquire_lock b lock_ttl) w = Ok false).
Proof.
  intros Hw Hc. unfold after, outcome, acquire_lock.
  destruct (shared_lock_client _ _ _ Hw) as [_ ->]. cbv zeta.
  destruct (decide (_hash_key b = _hash_key a)) as [Heq|Hne].
  - rewrite Heq. destruct Hw as [Hu (r & x & Hr & Hl)].
    unfold try_except, on_redis, redis_set_nx, command, ret. rewrite Hr.
    assert (Hv : visible (clock w) (db r) (_redis_key (_hash_key a) +:+ lock_suffix) = Some x).
    { unfold visible, live. rewrite Hl. simpl.
      destruct (_ <=? _) eqn:E; [reflexivity | apply Z.leb_gt in E; lia]. }
    assert (Hi : ∀ fs, shared_lock a exp (with_redis (Some (mkRedis (db r) fs)) w)).
    { intros fs. split; [exact Hu |]. now exists (mkRedis (db r) fs), x. }
    destruct (faults r) as [|[] fs]; simpl;
      try (destruct (lock_ttl <=? 0); simpl); rewrite ?Hv; simpl; auto.
  - split; [| congruence].
    revert w Hw Hc. intros w Hw _. revert w Hw.
    apply preserves_try_except; [| apply preserves_ret].
    apply shared_lock_on_redis. apply quiet_set_nx.
    intros E. apply redis_lock_key_inj in E. congruence.
Qed.

Lemma shared_lock_step (a : list arg) (exp : Z) (o : op) (w : World) :
  others_keep (_redis_key (_hash_key a) +:+ lock_suffix) ->
  keeps_lock (_hash_key a) o ->
  shared_lock a exp w -> clock w <= exp -> shared_lock a exp (step o w).
Proof.
  intros Hk Ho Hw Hc. destruct o; simpl in *; unfold after.
  - now apply shared_lock_get.
  - now apply shared_lock_set.
  - now apply shared_lock_acquire.
  - now apply shared_lock_release.
  - contradiction.
  - now apply shared_lock_count.
  - exact Hw.
Qed.

Lemma shared_lock_run (a : list arg) (exp : Z) (tr : list op) :
  others_keep (_redis_key (_hash_key a) +:+ lock_suffix) ->
  Forall (keeps_lock (_hash_key a)) tr ->
  ∀ w, shared_lock a exp w -> clock (run tr w) <= exp -> shared_lock a exp (run tr w).
Proof.
  intros Hk. induction 1 as [|o tr Ho Htr IH]; intros w Hw Hc; [exact Hw |].
  change (run (o :: tr) w) with (run tr (step o w)) in *.
  apply IH; [| exact Hc]. apply shared_lock_step; try assumption.
  pose proof (clock_step _ o w Ho). pose proof (clock_run _ tr Htr (step o w)). lia.
Qed.

(** *** The lock record in the local mapping *)

Lemma local_lock_get (a b : list arg) (wait : bool) (lt : Z) :
  preserves (local_lock a) (get b wait lt).
Proof.
  intros w [Hc Hl]. unfold get. destruct (_use_redis (self w)) eqn:Hu; cbv zeta.
  - assert (Hn : _redis (self w) = None).
    { unfold use_redis_and_client in Hc. rewrite Hu in Hc. simpl in Hc.
      destruct (_redis (self w)); [discriminate Hc | reflexivity]. }
    unfold on_redis. rewrite Hn. simpl. now split.
  - destruct (_mem_cache (self w) !! _hash_key b) as [[result timestamp]|]; [| now split].
    destruct (_ <? _); [now split |]. split; [exact Hc |]. simpl.
    rewrite lookup_delete_ne; [exact Hl |].
    intros E'. symmetry in E'. revert E'. apply mem_lock_key_not_entry.
Qed.

Lemma local_lock_set (a b : list arg) (v : value) : preserves (local_lock a) (set v b).
Proof.
  intros w [Hc Hl]. unfold set. rewrite Hc. split; [exact Hc |]. simpl.
  rewrite lookup_insert_ne; [exact Hl |].
  intros E'. symmetry in E'. revert E'. apply mem_lock_key_not_entry.
Qed.

Lemma local_lock_acquire (a b : list arg) (lock_ttl : Z) (w : World) :
  local_lock a w ->
  local_lock a (after (acquire_lock b lock_ttl) w) ∧
  (_hash_key b = _hash_key a -> outcome (acquire_lock b lock_ttl) w = Ok false).
Proof.
  intros [Hc Hl]. unfold after, outcome. rewrite acquire_local by exact Hc. split.
  - destruct (_mem_cache (self w) !! mem_lock_key (_hash_key b)) eqn:E; [now split |].
    split; [exact Hc |]. simpl. apply lookup_insert_is_Some'. now right.
  - intros ->. now destruct Hl as [x ->].
Qed.

Lemma local_lock_release (a b : list arg) :
  _hash_key b ≠ _hash_key a -> preserves (local_lock a) (release_lock b).
Proof.
  intros Hne w [Hc Hl]. unfold release_lock. rewrite Hc.
  destruct (_mem_cache (self w) !! mem_lock_key (_hash_key b)); [| now split].
  split; [exact Hc |]. simpl. rewrite lookup_delete_ne; [exact Hl |].
  intros E. apply mem_lock_key_inj in E. congruence.
Qed.

Lemma local_lock_count (a : list arg) : preserves (local_lock a) get_cache_count.
Proof. intros w [Hc Hl]. unfold get_cache_count. rewrite Hc. now split. Qed.

Lemma local_lock_step (a : list arg) (o : op) (w : World) :
  keeps_lock (_hash_key a) o -> local_lock a w -> local_lock a (step o w).
Proof.
  intros Ho Hw. destruct o; simpl in *; unfold after.
  - now apply local_lock_get.
  - now apply local_lock_set.
  - now apply local_lock_acquire.
  - now apply local_lock_release.
  - contradiction.
  - now apply local_lock_count.
  - exact Hw.
Qed.

Lemma local_lock_run (a : list arg) (tr : list op) :
  Forall (keeps_lock (_hash_key a)) tr ->
  ∀ w, local_lock a w -> local_lock a (run tr w).
Proof.
  induction 1 as [|o tr Ho Htr IH]; intros w Hw; [exact Hw |].
  change (run (o :: tr) w) with (run tr (step o w)).
  apply IH. now apply local_lock_step.
Qed.

End Exclusion.

Section MutualExclusion.

Context `{Environment}.

Lemma lock_held_shared (a : list arg) (exp : Z) (w : World) :
  shared_lock a exp w -> clock w <= exp -> lock_held (_hash_key a) w = true.
Proof.
  intros Hw Hc. unfold lock_held. destruct (shared_lock_client _ _ _ Hw) as [_ ->].
  destruct Hw as [Hu (r & x & Hr & Hl)]. rewrite Hr. apply bool_decide_eq_true.
  unfold visible, live. rewrite Hl. simpl.
  destruct (_ <=? _) eqn:E; [eauto | apply Z.leb_gt in E; lia].
Qed.

Lemma lock_held_local (a : list arg) (w : World) :
  local_lock a w -> lock_held (_hash_key a) w = true.
Proof.
  intros [Hc Hl]. unfold lock_held. rewrite Hc. now apply bool_decide_eq_true.
Qed.

(** *** Two calls under way together *)

(** A call that runs without interruption is [acquire_lock]. *)
Lemma acquire_steps_alone (a : list arg) (t : Z) (w : World) :
  let s1 := acquire_step a t Start w in
  acquire_step a t s1.2 s1.1 = ((acquire_lock a t w).1, Returned (acquire_lock a t w).2).
Proof.
  cbv zeta. unfold acquire_step, acquire_lock. destruct (use_redis_and_client w) eqn:E.
  - destruct (try_except _ _ w) as [w' r]. reflexivity.
  - destruct (_ !! _); reflexivity.
Qed.

(** With the shared store the first step is the whole call. *)
Lemma acquire_step_shared (a : list arg) (t : Z) (w : World) :
  use_redis_and_client w = true ->
  acquire_step a t Start w = ((acquire_lock a t w).1, Returned (acquire_lock a t w).2).
Proof.
  intros E. unfold acquire_step, acquire_lock. rewrite E.
  destruct (try_except _ _ w) as [w' r]. reflexivity.
Qed.

Lemma acquire_clock (a : list arg) (t : Z) (w : World) :
  clock (acquire_lock a t w).1 = clock w.
Proof.
  unfold acquire_lock. destruct (use_redis_and_client w).
  - unfold try_except, on_redis. destruct (_redis (self w)) as [r|]; [| reflexivity].
    destruct (redis_set_nx _ _ _ _ r) as [r' [x|e]]; reflexivity.
  - destruct (_ !! _); reflexivity.
Qed.

Lemma acquire_step_client (a : list arg) (t : Z) (p : progress) (w : World) :
  use_redis_and_client (acquire_step a t p w).1 = use_redis_and_client w.
Proof.
  unfold acquire_step. destruct p as [| |r]; [| reflexivity | reflexivity].
  destruct (use_redis_and_client w) eqn:E.
  - unfold try_except, on_redis. unfold use_redis_and_client in E.
    destruct (_redis (self w)) as [r|] eqn:Er; [| now rewrite andb_false_r in E].
    apply andb_true_iff in E as [Eu _].
    destruct (redis_set_nx _ _ _ _ r) as [r' [x|e]]; simpl;
      unfold use_redis_and_client; simpl; now rewrite Eu.
  - destruct (_ !! _); exact E.
Qed.

Lemma locked_held (a : list arg) (w : World) : locked a w -> lock_held (_hash_key a) w = true.
Proof.
  intros [(exp & Hs & Hc) | Hl]; [now apply (lock_held_shared a exp) | now apply lock_held_local].
Qed.

(** While the lock is held, a call for its key returns [false] at its first
    step. *)
Lemma locked_start (a b : list arg) (t : Z) (w : World) :
  locked a w -> _hash_key b = _hash_key a ->
  acquire_step b t Start w = ((acquire_lock b t w).1, Returned (Ok false)) ∧
  outcome (acquire_lock b t) w = Ok false ∧
  locked a (acquire_lock b t w).1.
Proof.
  intros [(exp & Hs & Hc) | Hl] Hb.
  - destruct (shared_lock_client _ _ _ Hs) as [_ Hcl].
    destruct (shared_lock_acquire a b exp t w Hs Hc) as [Hs' Ho]. specialize (Ho Hb).
    rewrite (acquire_step_shared b t w Hcl). unfold outcome in Ho. rewrite Ho.
    split; [reflexivity |]. split; [exact Ho |].
    left. exists exp. split; [exact Hs' |]. now rewrite acquire_clock.
  - destruct (local_lock_acquire a b t w Hl) as [Hl' Ho]. specialize (Ho Hb).
    destruct Hl as [Hc [x Hx]]. unfold outcome in Ho. split; [| split; [exact Ho | now right]].
    unfold acquire_step. rewrite Hc, Hb, Hx. rewrite acquire_local by exact Hc.
    now rewrite Hb, Hx.
Qed.

(** With the lock free, the first step on the shared store takes it. *)
Lemma free_start_shared (a b : list arg) (t : Z) (w : World) :
  lock_held (_hash_key a) w = false -> use_redis_and_client w = true ->
  next_call_ok w -> 0 < t -> _hash_key b = _hash_key a ->
  ∃ w', acquire_step b t Start w = (w', Returned (Ok true)) ∧ locked a w'.
Proof.
  intros Hfree Hcl Hn Ht Hb. rewrite (acquire_step_shared b t w Hcl).
  unfold lock_held in Hfree. rewrite Hcl in Hfree.
  unfold use_redis_and_client in Hcl. apply andb_true_iff in Hcl as [Hu Hr].
  destruct (_redis (self w)) as [r|] eqn:Er; [| discriminate Hr].
  rewrite (acquire_shared w r b t) by (assumption || now split). cbv zeta. rewrite Hb.
  destruct (visible (clock w) (db r) _) eqn:Hv; [discriminate Hfree |].
  eexists. split; [reflexivity |]. left. exists (clock w + seconds t). split.
  - split; [exact Hu |]. eexists _, _. split; [reflexivity |]. simpl. apply lookup_insert_eq.
  - simpl. unfold seconds. lia.
Qed.

(** With the lock free, the first step on the local mapping is the test. *)
Lemma free_start_local (a b : list arg) (t : Z) (w : World) :
  lock_held (_hash_key a) w = false -> use_redis_and_client w = false ->
  _hash_key b = _hash_key a ->
  acquire_step b t Start w = (w, Tested).
Proof.
  intros Hfree Hcl Hb. unfold acquire_step. rewrite Hcl, Hb.
  unfold lock_held in Hfree. rewrite Hcl in Hfree. apply bool_decide_eq_false in Hfree.
  destruct (_ !! _) eqn:E; [exfalso; apply Hfree; eauto | reflexivity].
Qed.

(** The write after the test. *)
Lemma tested_step (a b : list arg) (t : Z) (w : World) :
  use_redis_and_client w = false -> _hash_key b = _hash_key a ->
  ∃ w', acquire_step b t Tested w = (w', Returned (Ok true)) ∧ locked a w'.
Proof.
  intros Hcl Hb. unfold acquire_step. rewrite Hb. eexists. split; [reflexivity |].
  right. split; [exact Hcl |]. simpl. rewrite lookup_insert_eq. eauto.
Qed.

Lemma on_course_step (a b : list arg) (t1 t2 : Z) (c : caller) (s : calls) :
  _hash_key b = _hash_key a -> 0 < t1 -> 0 < t2 ->
  on_course a s -> both_tested (schedule_step a t1 b t2 c s) = false ->
  on_course a (schedule_step a t1 b t2 c s).
Proof.
  intros Hb H1 H2 Hs. destruct s as [p1 p2 w]. unfold on_course in Hs. simpl in Hs.
  assert (Hfree : ∀ (x : list arg) (t : Z),
            _hash_key x = _hash_key a -> 0 < t ->
            lock_held (_hash_key a) w = false -> next_call_ok w ->
            (∃ w', acquire_step x t Start w = (w', Returned (Ok true)) ∧ locked a w') ∨
            (acquire_step x t Start w = (w, Tested) ∧ use_redis_and_client w = false)).
  { intros x t Hx Ht Hf Hn. destruct (use_redis_and_client w) eqn:Hcl.
    - left. now apply free_start_shared.
    - right. split; [now apply (free_start_local a) | reflexivity]. }
  destruct c; unfold schedule_step; cbn [of_first of_second state].
  - (* the first caller steps *)
    destruct p1 as [| |[[]|]]; destruct p2 as [| |[[]|]]; try contradiction.
    + destruct Hs as [Hf Hn].
      destruct (Hfree a t1 eq_refl H1 Hf Hn) as [(w' & -> & Hl) | [-> Hcl]]; intros _.
      * exact Hl.
      * unfold on_course. simpl. now split.
    + destruct Hs as [Hcl Hf]. rewrite (free_start_local a a t1 w Hf Hcl eq_refl).
      simpl. intros E. discriminate E.
    + destruct (locked_start a a t1 w Hs eq_refl) as (-> & _ & Hl). intros _. exact Hl.
    + destruct Hs as [Hcl Hf].
      destruct (tested_step a a t1 w Hcl eq_refl) as (w' & -> & Hl). intros _. exact Hl.
    + unfold acquire_step. intros _. exact Hs.
    + unfold acquire_step. intros _. exact Hs.
    + unfold acquire_step. intros _. exact Hs.
  - (* the second caller steps *)
    destruct p1 as [| |[[]|]]; destruct p2 as [| |[[]|]]; try contradiction.
    + destruct Hs as [Hf Hn].
      destruct (Hfree b t2 Hb H2 Hf Hn) as [(w' & -> & Hl) | [-> Hcl]]; intros _.
      * exact Hl.
      * unfold on_course. simpl. now split.
    + destruct Hs as [Hcl Hf].
      destruct (tested_step a b t2 w Hcl Hb) as (w' & -> & Hl). intros _. exact Hl.
    + unfold acquire_step. intros _. exact Hs.
    + destruct Hs as [Hcl Hf]. rewrite (free_start_local a b t2 w Hf Hcl Hb).
      simpl. intros E. discriminate E.
    + destruct (locked_start a b t2 w Hs Hb) as (-> & _ & Hl). intros _. exact Hl.
    + unfold acquire_step. intros _. exact Hs.
    + unfold acquire_step. intros _. exact Hs.
Qed.

Lemma overlap_now (a b : list arg) (t1 t2 : Z) (sched : list caller) (s : calls) :
  overlap a t1 b t2 sched s = false -> both_tested s = false.
Proof. destruct sched; simpl; intros E; now apply orb_false_iff in E as [E _]. Qed.

Lemma on_course_interleave (a b : list arg) (t1 t2 : Z) (sched : list caller) :
  _hash_key b = _hash_key a -> 0 < t1 -> 0 < t2 ->
  ∀ s, on_course a s -> overlap a t1 b t2 sched s = false ->
       on_course a (interleave a t1 b t2 sched s).
Proof.
  intros Hb H1 H2. induction sched as [|c rest IH]; intros s Hs Ho; [exact Hs |].
  simpl in Ho. apply orb_false_iff in Ho as [_ Ho]. simpl. apply IH; [| exact Ho].
  apply on_course_step; try assumption. now apply overlap_now in Ho.
Qed.

(** With the shared store no call is ever between a test and a write. *)
Lemma shared_never_overlaps (a b : list arg) (t1 t2 : Z) (sched : list caller) :
  ∀ s, use_redis_and_client (state s) = true ->
       of_first s ≠ Tested -> of_second s ≠ Tested ->
       overlap a t1 b t2 sched s = false.
Proof.
  assert (Hstep : ∀ (x : list arg) (t : Z) (p : progress) (w : World),
            use_redis_and_client w = true -> p ≠ Tested -> (acquire_step x t p w).2 ≠ Tested).
  { intros x t p w Hcl Hp. unfold acquire_step. destruct p as [| |r]; [| contradiction | easy].
    rewrite Hcl. destruct (try_except _ _ w). easy. }
  assert (Hnow : ∀ s, of_first s ≠ Tested -> both_tested s = false).
  { intros [[] p2 w] Hp; simpl in *; try reflexivity. contradiction. }
  induction sched as [|c rest IH]; intros s Hcl Hp1 Hp2; simpl.
  - rewrite Hnow by exact Hp1. reflexivity.
  - rewrite Hnow by exact Hp1. simpl. destruct s as [p1 p2 w]. simpl in *.
    destruct c; unfold schedule_step; cbn [of_first of_second state].
    + pose proof (Hstep a t1 p1 w Hcl Hp1) as Hq.
      pose proof (acquire_step_client a t1 p1 w) as Hc'.
      destruct (acquire_step a t1 p1 w) as [w' p']. simpl in *.
      apply IH; simpl; congruence.
    + pose proof (Hstep b t2 p2 w Hcl Hp2) as Hq.
      pose proof (acquire_step_client b t2 p2 w) as Hc'.
      destruct (acquire_step b t2 p2 w) as [w' p']. simpl in *.
      apply IH; simpl; congruence.
Qed.

(** Each step a call takes brings it nearer to its return. *)
Lemma acquire_step_remaining (x : list arg) (t : Z) (p : progress) (w : World) :
  (remaining (acquire_step x t p w).2 <= remaining p - 1)%nat.
Proof.
  unfold acquire_step. destruct p as [| |r]; simpl.
  - destruct (use_redis_and_client w).
    + destruct (try_except _ _ w). simpl. lia.
    + destruct (_ !! _); simpl; lia.
  - lia.
  - lia.
Qed.

Lemma interleave_remaining (a b : list arg) (t1 t2 : Z) (sched : list caller) :
  ∀ s, (remaining (of_first (interleave a t1 b t2 sched s))
          <= remaining (of_first s) - steps_of First sched)%nat ∧
       (remaining (of_second (interleave a t1 b t2 sched s))
          <= remaining (of_second s) - steps_of Second sched)%nat.
Proof.
  induction sched as [|c rest IH]; intros s; simpl; [lia |].
  destruct (IH (schedule_step a t1 b t2 c s)) as [I1 I2].
  destruct s as [p1 p2 w]. destruct c; unfold schedule_step in *; cbn [of_first of_second state] in *.
  - pose proof (acquire_step_remaining a t1 p1 w) as Hr.
    destruct (acquire_step a t1 p1 w) as [w' p']. simpl in *. lia.
  - pose proof (acquire_step_remaining b t2 p2 w) as Hr.
    destruct (acquire_step b t2 p2 w) as [w' p']. simpl in *. lia.
Qed.

(** When both calls are between test and write, both return [true]: on the
    local mapping, the schedule test, test, write, write gives the lock to
    both callers. *)
Lemma local_callers_can_both_acquire (w : World) (a b : list arg) (t1 t2 : Z) :
  use_redis_and_client w = false -> lock_held (_hash_key a) w = false ->
  _hash_key b = _hash_key a ->
  let sched := [First; Second; First; Second] in
  overlap a t1 b t2 sched (mkCalls Start Start w) = true ∧
  returned (interleave a t1 b t2 sched (mkCalls Start Start w)) = Some (Ok true, Ok true).
Proof.
  intros Hcl Hf Hb. cbv zeta. simpl. unfold schedule_step. cbn [of_first of_second state].
  rewrite (free_start_local a a t1 w Hf Hcl eq_refl). cbn [of_first of_second state].
  rewrite (free_start_local a b t2 w Hf Hcl Hb). cbn [of_first of_second state].
  split; [reflexivity |]. unfold acquire_step. reflexivity.
Qed.

(** C1, amended.  When no live lock record exists for a key, exactly one of
    two callers of [acquire_lock] for that key returns [true] (positive
    times-to-live, the first call that reaches the store going through):
    with the shared store however the steps of the two calls are
    interleaved, with the local mapping whenever the two calls are not both
    between their membership test and their write; both calls return once
    each has taken two steps, and the lock is then held.  Once
    [acquire_lock] has returned [true], whatever calls are made on the
    cache, as long as none of them is a [release_lock] or a [set] for that
    key or a [clear], the other clients of the store leave the record alone
    and the time-to-live has not elapsed, the lock is held and every
    [acquire_lock] for that key returns [false], at its first step. *)
Theorem lock_mutual_exclusion (w : World) (a b : list arg) (lock_ttl lock_ttl' : Z)
    (tr : list op) :
  lock_held (_hash_key a) w = false ->
  next_call_ok w -> 0 < lock_ttl ->
  _hash_key b = _hash_key a ->
  let w1 := after (acquire_lock a lock_ttl) w in
  let w2 := run tr w1 in
  (∀ sched,
     let s := interleave a lock_ttl b lock_ttl' sched (mkCalls Start Start w) in
     0 < lock_ttl' ->
     use_redis_and_client w = true ∨
     overlap a lock_ttl b lock_ttl' sched (mkCalls Start Start w) = false ->
     ((2 <= steps_of First sched)%nat -> (2 <= steps_of Second sched)%nat ->
      is_Some (returned s)) ∧
     (∀ r1 r2, returned s = Some (r1, r2) ->
        (r1 = Ok true ∧ r2 = Ok false ∨ r1 = Ok false ∧ r2 = Ok true) ∧
        lock_held (_hash_key a) (state s) = true)) ∧
  outcome (acquire_lock a lock_ttl) w = Ok true ∧
  (others_keep (_redis_key (_hash_key a) +:+ lock_suffix) ->
   Forall (keeps_lock (_hash_key a)) tr ->
   clock w2 <= clock w + seconds lock_ttl ->
   lock_held (_hash_key a) w2 = true ∧
   outcome (acquire_lock b lock_ttl') w2 = Ok false ∧
   acquire_step b lock_ttl' Start w2
     = (after (acquire_lock b lock_ttl') w2, Returned (Ok false))).
Proof.
  intros Hfree Hn Httl Hb w1 w2. subst w1 w2. split.
  { (* two calls under way together *)
    intros sched s Httl' Hov.
    assert (Hno : overlap a lock_ttl b lock_ttl' sched (mkCalls Start Start w) = false).
    { destruct Hov as [Hcl | Hov]; [| exact Hov].
      apply shared_never_overlaps; simpl; [exact Hcl | easy | easy]. }
    assert (Hs : on_course a s).
    { apply on_course_interleave; try assumption. unfold on_course. simpl. now split. }
    split.
    - intros H1 H2.
      destruct (interleave_remaining a b lock_ttl lock_ttl' sched (mkCalls Start Start w))
        as [I1 I2].
      fold s in I1, I2. simpl in I1, I2. unfold returned.
      destruct (of_first s) as [| |r1]; simpl in I1; try lia.
      destruct (of_second s) as [| |r2]; simpl in I2; try lia. eauto.
    - intros r1 r2 Hr. unfold returned in Hr. unfold on_course in Hs.
      destruct (of_first s) as [| |[[]|]]; try discriminate Hr;
        destruct (of_second s) as [| |[[]|]]; try discriminate Hr; try contradiction;
        injection Hr as <- <-; (split; [auto | now apply locked_held]). }
  (* one call after the other *)
  assert (Hfirst : outcome (acquire_lock a lock_ttl) w = Ok true ∧
                   locked a (after (acquire_lock a lock_ttl) w) ∧
                   clock (after (acquire_lock a lock_ttl) w) = clock w ∧
                   (use_redis_and_client w = true ->
                    shared_lock a (clock w + seconds lock_ttl)
                      (after (acquire_lock a lock_ttl) w)) ∧
                   (use_redis_and_client w = false ->
                    local_lock a (after (acquire_lock a lock_ttl) w))).
  { unfold after. rewrite acquire_clock. unfold outcome.
    destruct (use_redis_and_client w) eqn:Hcl.
    - destruct (free_start_shared a a lock_ttl w Hfree Hcl Hn Httl eq_refl)
        as (w' & Hstep & Hl).
      rewrite (acquire_step_shared a lock_ttl w Hcl) in Hstep.
      injection Hstep as Hw Hr. rewrite Hr, Hw.
      split; [reflexivity |]. split; [exact Hl |]. split; [reflexivity |].
      split; [| intros E; discriminate E]. intros _.
      unfold lock_held in Hfree. rewrite Hcl in Hfree.
      unfold use_redis_and_client in Hcl. apply andb_true_iff in Hcl as [Hu Hr'].
      destruct (_redis (self w)) as [r|] eqn:Er; [| discriminate Hr'].
      rewrite <- Hw. rewrite (acquire_shared w r a lock_ttl) by (assumption || now split).
      cbv zeta. destruct (visible (clock w) (db r) _) eqn:Hv; [discriminate Hfree |].
      split; [exact Hu |]. eexists _, _. split; [reflexivity |]. simpl. apply lookup_insert_eq.
    - rewrite (acquire_local w a lock_ttl Hcl).
      unfold lock_held in Hfree. rewrite Hcl in Hfree. apply bool_decide_eq_false in Hfree.
      destruct (_mem_cache (self w) !! mem_lock_key (_hash_key a)) eqn:El;
        [exfalso; apply Hfree; eauto |].
      assert (Hl : local_lock a
                (with_mem (<[mem_lock_key (_hash_key a) := (VDict [], clock w)]>
                             (_mem_cache (self w))) w)).
      { split; [exact Hcl |]. simpl. rewrite lookup_insert_eq. eauto. }
      simpl. split; [reflexivity |]. split; [now right |]. split; [reflexivity |].
      split; [intros E; discriminate E | intros _; exact Hl]. }
  destruct Hfirst as (Hout & Hl1 & Hc1 & Hsh & Hlo). split; [exact Hout |].
  intros Hk Htr Hc.
  assert (Hl2 : locked a (run tr (after (acquire_lock a lock_ttl) w))).
  { destruct (use_redis_and_client w) eqn:Hcl.
    - left. exists (clock w + seconds lock_ttl). split; [| exact Hc].
      exact (shared_lock_run a _ tr Hk Htr _ (Hsh eq_refl) Hc).
    - right. exact (local_lock_run a tr Htr _ (Hlo eq_refl)). }
  split; [now apply locked_held |].
  destruct (locked_start a b lock_ttl' _ Hl2 Hb) as (Hstep & Ho & _).
  split; [exact Ho | exact Hstep].
Qed.

End MutualExclusion.

(** C1, counterexample.  A [clear] between two [acquire_lock] calls for the
    same key lets the second one succeed as well, although the lock was
    released neither by [release_lock] nor by [set] and no time has passed;
    in both variants. *)
Lemma clear_releases_lock :
  let a := [AStr "revision"; AStr "2"] in
  let local := mkWorld (local_cache 600) 0 in
  let shared := mkWorld (shared_cache 600 (mkRedis ∅ [])) 0 in
  (outcome (acquire_lock a 60) local = Ok true ∧
   outcome (acquire_lock a 60) (after clear (after (acquire_lock a 60) local)) = Ok true) ∧
  (outcome (acquire_lock a 60) shared = Ok true ∧
   outcome (acquire_lock a 60) (after clear (after (acquire_lock a 60) shared)) = Ok true).
Proof. vm_compute. repeat split. Qed.

(** On the local mapping, two calls whose tests both come before the
    writes both return [true]. *)
Example two_local_callers_race :
  let a := [AStr "revision"; AStr "2"] in
  let local := mkWorld (local_cache 600) 0 in
  returned (interleave a 60 a 60 [First; Second; First; Second] (mkCalls Start Start local))
    = Some (Ok true, Ok true).
Proof. vm_compute. reflexivity. Qed.

Lemma lock_mutual_exclusion_witness :
  let a := [AStr "revision"; AStr "2"] in
  let other := [AStr "summarize"; AStr "2"] in
  let tr := [OpGet a true 1; OpSet (VList []) other; OpAcquire other 30; OpElapse 1000;
             OpRelease other; OpCount; OpAcquire a 60] in
  let shared := mkWorld (shared_cache 600 (mkRedis ∅ [false; true])) 0 in
  let local := mkWorld (local_cache 600) 0 in
  (returned (interleave a 60 a 60 [Second; First] (mkCalls Start Start shared))
     = Some (Ok false, Ok true) ∧
   outcome (acquire_lock a 60) shared = Ok true ∧
   lock_held (_hash_key a) (run tr (after (acquire_lock a 60) shared)) = true ∧
   outcome (acquire_lock a 60) (run tr (after (acquire_lock a 60) shared)) = Ok false) ∧
  (returned (interleave a 60 a 60 [First; First; Second] (mkCalls Start Start local))
     = Some (Ok true, Ok false) ∧
   outcome (acquire_lock a 60) local = Ok true ∧
   outcome (acquire_lock a 60) (run tr (after (acquire_lock a 60) local)) = Ok false).
Proof.
  cbv zeta.
  assert (Hne : _hash_key [AStr "summarize"; AStr "2"] ≠ _hash_key [AStr "revision"; AStr "2"]).
  { intros E. apply String.eqb_eq in E. vm_compute in E. discriminate E. }
  assert (Htr : Forall (keeps_lock (_hash_key [AStr "revision"; AStr "2"]))
                  [OpGet [AStr "revision"; AStr "2"] true 1;
                   OpSet (VList []) [AStr "summarize"; AStr "2"];
                   OpAcquire [AStr "summarize"; AStr "2"] 30; OpElapse 1000;
                   OpRelease [AStr "summarize"; AStr "2"]; OpCount;
                   OpAcquire [AStr "revision"; AStr "2"] 60]).
  { repeat (constructor; [first [exact I | exact Hne | (simpl; lia)] |]). constructor. }
  split.
  - destruct (lock_mutual_exclusion
                (mkWorld (shared_cache 600 (mkRedis ∅ [false; true])) 0)
                [AStr "revision"; AStr "2"] [AStr "revision"; AStr "2"] 60 60
                [OpGet [AStr "revision"; AStr "2"] true 1;
                 OpSet (VList []) [AStr "summarize"; AStr "2"];
                 OpAcquire [AStr "summarize"; AStr "2"] 30; OpElapse 1000;
                 OpRelease [AStr "summarize"; AStr "2"]; OpCount;
                 OpAcquire [AStr "revision"; AStr "2"] 60])
      as (Htogether & Hfirst & Hlater);
      [vm_compute; reflexivity | exact I | lia | reflexivity |].
    destruct Hlater as (Hheld & Hfalse & _);
      [intros t d; reflexivity | exact Htr | vm_compute; intros E; discriminate E |].
    split; [| split; [exact Hfirst | split; [exact Hheld | exact Hfalse]]].
    destruct (Htogether [Second; First]) as [Hret Hone]; [lia | left; reflexivity |].
    assert (Hrun : returned (interleave [AStr "revision"; AStr "2"] 60
                               [AStr "revision"; AStr "2"] 60 [Second; First]
                               (mkCalls Start Start
                                  (mkWorld (shared_cache 600 (mkRedis ∅ [false; true])) 0)))
                   = Some (Ok false, Ok true)) by (vm_compute; reflexivity).
    exact Hrun.
  - destruct (lock_mutual_exclusion
                (mkWorld (local_cache 600) 0)
                [AStr "revision"; AStr "2"] [AStr "revision"; AStr "2"] 60 60
                [OpGet [AStr "revision"; AStr "2"] true 1;
                 OpSet (VList []) [AStr "summarize"; AStr "2"];
                 OpAcquire [AStr "summarize"; AStr "2"] 30; OpElapse 1000;
                 OpRelease [AStr "summarize"; AStr "2"]; OpCount;
                 OpAcquire [AStr "revision"; AStr "2"] 60])
      as (Htogether & Hfirst & Hlater);
      [vm_compute; reflexivity | exact I | lia | reflexivity |].
    destruct Hlater as (_ & Hfalse & _);
      [intros t d; reflexivity | exact Htr | vm_compute; intros E; discriminate E |].
    split; [| split; [exact Hfirst | exact Hfalse]].
    destruct (Htogether [First; First; Second]) as [Hret Hone];
      [lia | right; vm_compute; reflexivity |].
    destruct (returned _) as [[r1 r2]|] eqn:Er in Hone |- *.
    + destruct (Hone r1 r2 eq_refl) as [[[-> ->] | [-> ->]] _]; [reflexivity |].
      exfalso. revert Er. vm_compute. intros E. discriminate E.
    + exfalso. revert Er. vm_compute. intros E. discriminate E.
Defined.

(** ** Errors of the backing store *)

Section StoreErrors.

Context `{Environment}.

(** C4, on the code.  In the shared variant [get] does not catch what the
    store raises.  A connection error leaves [get] when it strikes the first
    read of the entry, and also when it strikes inside the polling loop: the
    read of the entry there, or the test for the lock record. *)
Theorem get_propagates_store_error (ttl : Z) (mem : gmap string (value * Z))
    (d : gmap string (string * Z)) (fs : list bool) (now : Z)
    (a : list arg) (wait : bool) (lt : Z) :
  let cache r := mkWorld (mkQueryCache ttl mem true (Some r)) now in
  let lock := _redis_key (_hash_key a) +:+ lock_suffix in
  outcome (get a wait lt) (cache (mkRedis d (true :: fs))) = Raise ConnectionError ∧
  outcome (get a true 30) (cache (mkRedis ∅ (false :: true :: fs))) = Raise ConnectionError ∧
  outcome (get a true 30)
    (cache (mkRedis {[ lock := ("1"%string, now) ]} (false :: false :: true :: fs)))
    = Raise ConnectionError.
Proof.
  cbv zeta. split; [reflexivity |].
  assert (Hne : _redis_key (_hash_key a) +:+ lock_suffix ≠ _redis_key (_hash_key a))
    by apply redis_lock_key_not_entry.
  unfold outcome, get, poll_fuel, on_redis, redis_get, command, visible. simpl. split.
  - rewrite lookup_empty. simpl.
    unfold on_redis, redis_get, command. simpl. reflexivity.
  - rewrite lookup_singleton_ne by exact Hne. simpl.
    unfold on_redis, redis_get, redis_exists, command, visible. simpl.
    rewrite lookup_singleton_ne by exact Hne. simpl. reflexivity.
Qed.

(** The other methods do what [get] misses: whatever the store does, they
    return normally. *)
Lemma set_never_raises (v : value) (a : list arg) (w : World) :
  outcome (set v a) w = Ok tt.
Proof.
  unfold outcome, set. destruct (use_redis_and_client w); [| reflexivity].
  cbv zeta. unfold try_except. destruct (bind _ _ w) as [w' [[]|e]]; reflexivity.
Qed.

Lemma acquire_lock_never_raises (a : list arg) (lock_ttl : Z) (w : World) :
  ∃ b, outcome (acquire_lock a lock_ttl) w = Ok b.
Proof.
  unfold outcome, acquire_lock. destruct (use_redis_and_client w).
  - cbv zeta. unfold try_except. destruct (on_redis _ w) as [w' [b|e]]; simpl; eauto.
  - destruct (_ !! _); simpl; eauto.
Qed.

Lemma release_lock_never_raises (a : list arg) (w : World) :
  outcome (release_lock a) w = Ok tt.
Proof.
  unfold outcome, release_lock. destruct (use_redis_and_client w).
  - cbv zeta. unfold try_except. destruct (on_redis _ w) as [w' [[]|e]]; reflexivity.
  - destruct (_ !! _); reflexivity.
Qed.

Lemma clear_never_raises (w : World) : outcome clear w = Ok tt.
Proof.
  unfold outcome, clear, bind. destruct (use_redis_and_client w); [| reflexivity].
  unfold try_except. destruct (on_redis _ w) as [w' [keys|e]]; [| reflexivity].
  destruct keys; [reflexivity |].
  destruct (on_redis _ w') as [w'' [[]|e]]; reflexivity.
Qed.

Lemma get_cache_count_never_raises (w : World) : ∃ n, outcome get_cache_count w = Ok n.
Proof.
  unfold outcome, get_cache_count. destruct (use_redis_and_client w); [| simpl; eauto].
  unfold try_except, bind. destruct (on_redis _ w) as [w' [keys|e]]; simpl; eauto.
Qed.

(** When the store fails, [acquire_lock] answers [false] and [set] writes
    to the local mapping. *)
Lemma acquire_lock_on_store_error (ttl : Z) (mem : gmap string (value * Z))
    (d : gmap string (string * Z)) (fs : list bool) (now : Z) (a : list arg) (lock_ttl : Z) :
  let w := mkWorld (mkQueryCache ttl mem true (Some (mkRedis d (true :: fs)))) now in
  outcome (acquire_lock a lock_ttl) w = Ok false.
Proof. reflexivity. Qed.

Lemma set_on_store_error (w : World) (r : Redis) (fs : list bool) (v : value) (a : list arg) :
  is_shared w r -> faults r = true :: fs ->
  after (set v a) w =
    with_mem (<[_hash_key a := (v, clock w)]> (_mem_cache (self w)))
             (with_redis (Some (mkRedis (db r) fs)) w).
Proof.
  intros [Hu Hr] Hf. destruct w as [[ttl mem ur rd] clk]. simpl in *. subst ur rd.
  destruct r as [d fs']. simpl in *. subst fs'. reflexivity.
Qed.

(** *** The fallback write is invisible to readers *)

Lemma on_redis_with_mem {A} (cmd : Z -> Redis -> Redis * result A)
    (m : gmap string (value * Z)) (w : World) :
  on_redis cmd (with_mem m w) =
    (with_mem m (on_redis cmd w).1, (on_redis cmd w).2).
Proof.
  unfold on_redis. simpl. destruct (_redis (self w)); [| reflexivity].
  now destruct (cmd (clock w) r).
Qed.

Lemma decode_with_mem (s : string) (m : gmap string (value * Z)) (w : World) :
  decode s (with_mem m w) = (with_mem m (decode s w).1, (decode s w).2).
Proof. unfold decode, try_except, json_loads. now destruct (loads s). Qed.

Lemma poll_with_mem (rk : string) (lt : Z) (m : gmap string (value * Z)) (fuel : nat) :
  ∀ (waited : Z) (w : World),
    poll fuel rk lt waited (with_mem m w) =
      (λ res : World * result value, (with_mem m res.1, res.2)) <$> poll fuel rk lt waited w.
Proof.
  induction fuel as [|fuel IH]; intros waited w; [reflexivity |].
  simpl. destruct (waited <? seconds lt); [| reflexivity].
  rewrite on_redis_with_mem.
  destruct (on_redis (redis_get rk) w) as [w1 [val|e]]; simpl; [| reflexivity].
  destruct (val_truthy val) as [s|]; simpl.
  { now rewrite decode_with_mem. }
  rewrite on_redis_with_mem.
  destruct (on_redis (redis_exists _) w1) as [w2 [[]|e]]; simpl; try reflexivity.
  apply (IH (waited + poll_interval) (time_sleep poll_interval w2).1).
Qed.

(** C10.  In the shared variant the result of [get] and the store it leaves
    do not depend on the local mapping, which [get] hands back as it found
    it.  So when the write of [set] to the store raises and the value goes to
    the local mapping, a later [get] answers exactly as if that [set] had
    not been called: the value written by the fallback is not read. *)
Theorem shared_get_ignores_memory (w : World) (a : list arg) (wait : bool) (lt : Z) :
  _use_redis (self w) = true ->
  (∀ m, get a wait lt (with_mem m w) =
          (with_mem m (after (get a wait lt) w), outcome (get a wait lt) w)) ∧
  (∀ v r fs, _redis (self w) = Some r -> faults r = true :: fs ->
     _mem_cache (self (after (set v a) w)) !! _hash_key a = Some (v, clock w) ∧
     outcome (get a wait lt) (after (set v a) w) =
       outcome (get a wait lt) (with_redis (Some (mkRedis (db r) fs)) w)).
Proof.
  intros Hu.
  assert (Hget : ∀ w', _use_redis (self w') = true ->
            ∀ m, get a wait lt (with_mem m w') =
                   (with_mem m (after (get a wait lt) w'), outcome (get a wait lt) w')).
  { intros w' Hu' m. unfold after, outcome, get. generalize (poll_fuel lt). intros fuel.
    simpl. rewrite Hu'. cbv zeta.
    rewrite on_redis_with_mem.
    destruct (on_redis (redis_get _) w') as [w1 [val|e]]; simpl; [| reflexivity].
    destruct (val_truthy val) as [s|]; [apply decode_with_mem |].
    destruct wait; [| reflexivity].
    rewrite poll_with_mem. now destruct (poll _ _ _ _ w1) as [[w2 x]|]. }
  split; [now apply Hget |].
  intros v r fs Hr Hf. rewrite (set_on_store_error w r fs) by (try split; assumption).
  split; [simpl; apply lookup_insert_eq |].
  unfold outcome at 1. now rewrite Hget.
Qed.

End StoreErrors.

Lemma shared_get_ignores_memory_witness :
  let a := [AStr "summarize"; AStr "1"] in
  let v := VDict [("english", VStr "X"); ("swahili", VStr "Y")] in
  let w := mkWorld (shared_cache 600 (mkRedis ∅ [true])) 0 in
  _mem_cache (self (after (set v a) w)) !! _hash_key a = Some (v, 0) ∧
  outcome (get a true 30) (after (set v a) w) = Ok VNone.
Proof.
  cbv zeta.
  destruct (proj2 (shared_get_ignores_memory
                     (mkWorld (shared_cache 600 (mkRedis ∅ [true])) 0)
                     [AStr "summarize"; AStr "1"] true 30 eq_refl)
              (VDict [("english", VStr "X"); ("swahili", VStr "Y")]) (mkRedis ∅ [true]) []
              eq_refl eq_refl) as [Hm Hg].
  split; [exact Hm |]. rewrite Hg. vm_compute. reflexivity.
Defined.

(** ** The bounded wait *)

Section BoundedWait.

Context `{Environment}.

(** A call to the store answers from the content it finds and leaves the
    content and the clock as they are. *)
Lemma on_redis_get (rk : string) (w : World) (r : Redis) :
  _redis (self w) = Some r ->
  ∃ fs, (on_redis (redis_get rk) w).1 = with_redis (Some (mkRedis (db r) fs)) w ∧
        ((on_redis (redis_get rk) w).2 = Raise ConnectionError ∨
         (on_redis (redis_get rk) w).2 = Ok (visible (clock w) (db r) rk)).
Proof.
  intros Hr. unfold on_redis, redis_get, command. rewrite Hr.
  destruct (faults r) as [|[] fs]; simpl; eauto.
Qed.

Lemma on_redis_exists (k : string) (w : World) (r : Redis) :
  _redis (self w) = Some r ->
  ∃ fs, (on_redis (redis_exists k) w).1 = with_redis (Some (mkRedis (db r) fs)) w ∧
        ((on_redis (redis_exists k) w).2 = Raise ConnectionError ∨
         (on_redis (redis_exists k) w).2 =
           Ok (bool_decide (is_Some (visible (clock w) (db r) k)))).
Proof.
  intros Hr. unfold on_redis, redis_exists, command. rewrite Hr.
  destruct (faults r) as [|[] fs]; simpl; eauto.
Qed.

Lemma decode_state (s : string) (w : World) : (decode s w).1 = w.
Proof. unfold decode, try_except, json_loads. now destruct (loads s). Qed.

(** The loop ends within its fuel. *)
Lemma poll_terminates (rk : string) (lt : Z) (fuel : nat) :
  ∀ (waited : Z) (w : World),
    (0 < fuel)%nat ->
    seconds lt - waited <= poll_interval * (Z.of_nat fuel - 1) ->
    is_Some (poll fuel rk lt waited w).
Proof.
  induction fuel as [|fuel IH]; intros waited w Hpos Hfuel; [lia |].
  simpl. destruct (waited <? seconds lt) eqn:E; [| eauto].
  apply Z.ltb_lt in E.
  destruct (on_redis (redis_get rk) w) as [w1 [val|e]]; [| eauto].
  destruct (val_truthy val); [eauto |].
  destruct (on_redis (redis_exists _) w1) as [w2 [[]|e]]; eauto.
  apply IH; unfold poll_interval in *; lia.
Qed.

(** What the loop has done when it ends: it has slept a whole number of
    intervals, no longer than the window, and it has ended for one of the
    reasons of [poll_ended]. *)
Lemma poll_spec (c0 : Z) (rk : string) (lt : Z) (fuel : nat) :
  ∀ (k : Z) (w : World) (r : Redis) (res : World * result value),
    clock w = c0 + poll_interval * k ->
    _redis (self w) = Some r ->
    poll fuel rk lt (poll_interval * k) w = Some res ->
    (∃ k', k <= k' ∧ clock res.1 = c0 + poll_interval * k' ∧
           poll_interval * k' <= Z.max (poll_interval * k) (seconds lt)) ∧
    poll_ended c0 lt rk res.1 res.2.
Proof.
  induction fuel as [|fuel IH]; intros k w r res Hc Hr Hp; [discriminate |].
  simpl in Hp. destruct (_ <? seconds lt) eqn:E.
  2:{ apply Z.ltb_ge in E. inversion Hp; subst. simpl. split.
      - exists k. lia.
      - exists r. split; [exact Hr |]. right. right. split; [reflexivity | lia]. }
  apply Z.ltb_lt in E.
  destruct (on_redis_get rk w r Hr) as (fs1 & Hw1 & Hx1).
  destruct (on_redis (redis_get rk) w) as [w1 x1]. simpl in Hw1, Hx1. subst w1.
  assert (Hk : ∃ k', k <= k' ∧ clock w = c0 + poll_interval * k' ∧
                     poll_interval * k' <= Z.max (poll_interval * k) (seconds lt)).
  { exists k. lia. }
  destruct Hx1 as [-> | ->]; [inversion Hp; subst; now split |].
  destruct (val_truthy (visible (clock w) (db r) rk)) as [s|] eqn:Ev.
  { inversion Hp; subst. rewrite decode_state. split; [exact Hk |].
    destruct (decode s _) as [w' [v|e]] eqn:Ed; simpl; [| exact I].
    eexists. split; [reflexivity |]. left. exists s. simpl. split; [exact Ev |].
    now rewrite Ed. }
  match type of Hp with
  | context [on_redis _ ?w1] =>
      destruct (on_redis_exists (rk +:+ lock_suffix) w1 _ eq_refl) as (fs2 & Hw2 & Hx2);
      destruct (on_redis (redis_exists (rk +:+ lock_suffix)) w1) as [w2 x2]
  end.
  simpl in Hw2, Hx2. subst w2.
  destruct Hx2 as [-> | ->]; [inversion Hp; subst; now split |].
  destruct (bool_decide _) eqn:El.
  - replace (poll_interval * k + poll_interval) with (poll_interval * (k + 1)) in Hp by lia.
    eapply IH in Hp; [| simpl; lia | simpl; reflexivity].
    destruct Hp as [(k' & Hk1 & Hk2 & Hk3) Hend]. split; [| exact Hend].
    exists k'. unfold poll_interval, seconds in *. lia.
  - inversion Hp; subst. simpl. split; [exact Hk |].
    eexists. split; [reflexivity |]. right. left. simpl.
    split; [reflexivity |]. split; [exact Ev |].
    apply bool_decide_eq_false in El.
    destruct (visible _ _ (rk +:+ lock_suffix)); [exfalso; apply El; eauto | reflexivity].
Qed.

(** *** What ends the wait, and when *)

Lemma store_after_shift (i : nat) (c0 : Z) (d : gmap string (string * Z)) :
  store_after (S i) c0 d = store_after i (c0 + poll_interval) (others c0 d).
Proof.
  induction i as [|i IH].
  - simpl. f_equal. lia.
  - change (store_after (S (S i)) c0 d)
      with (others (c0 + poll_interval * Z.of_nat (S i)) (store_after (S i) c0 d)).
    rewrite IH. simpl. f_equal. lia.
Qed.

Lemma instant_after_shift (i : nat) (c0 : Z) :
  instant_after (S i) c0 = instant_after i (c0 + poll_interval).
Proof. unfold instant_after. lia. Qed.

Lemma entry_seen_shift (rk : string) (i : nat) (c0 : Z) (d : gmap string (string * Z)) :
  entry_seen rk c0 d (S i) = entry_seen rk (c0 + poll_interval) (others c0 d) i.
Proof. unfold entry_seen. now rewrite store_after_shift, instant_after_shift. Qed.

Lemma lock_seen_shift (rk : string) (i : nat) (c0 : Z) (d : gmap string (string * Z)) :
  lock_seen rk c0 d (S i) = lock_seen rk (c0 + poll_interval) (others c0 d) i.
Proof. unfold lock_seen. now rewrite store_after_shift, instant_after_shift. Qed.

(** The loop goes through the looks at which nothing ends the wait. *)
Lemma poll_rounds (rk : string) (lt ttl : Z) (mem : gmap string (value * Z)) :
  ∀ (m fuel : nat) (waited c : Z) (d : gmap string (string * Z)),
    (∀ i, (i < m)%nat ->
          waited + poll_interval * Z.of_nat i < seconds lt ∧
          entry_seen rk c d i = None ∧ is_Some (lock_seen rk c d i)) ->
    poll (m + fuel) rk lt waited (mkWorld (mkQueryCache ttl mem true (Some (mkRedis d []))) c)
    = poll fuel rk lt (waited + poll_interval * Z.of_nat m)
        (mkWorld (mkQueryCache ttl mem true (Some (mkRedis (store_after m c d) [])))
           (instant_after m c)).
Proof.
  induction m as [|m IH]; intros fuel waited c d Hw.
  - unfold instant_after. simpl. now rewrite Z.mul_0_r, !Z.add_0_r.
  - destruct (Hw O) as (Hopen & He & Hl); [lia |].
    unfold entry_seen, lock_seen, instant_after in He, Hl. simpl in He, Hl.
    rewrite Z.mul_0_r, Z.add_0_r in *.
    change (S m + fuel)%nat with (S (m + fuel)). cbn [poll].
    apply Z.ltb_lt in Hopen. rewrite Hopen.
    unfold on_redis, redis_get, redis_exists, command, time_sleep. simpl.
    rewrite He. simpl. rewrite (bool_decide_eq_true_2 _ Hl). simpl.
    unfold with_clock, with_redis. simpl. rewrite IH.
    + rewrite <- store_after_shift, <- instant_after_shift. f_equal. lia.
    + intros i Hi. destruct (Hw (S i)) as (Ho' & He' & Hl'); [lia |].
      rewrite entry_seen_shift in He'. rewrite lock_seen_shift in Hl'.
      split; [lia | now split].
Qed.

(** The look at which the wait ends. *)
Lemma poll_last (rk : string) (lt ttl : Z) (mem : gmap string (value * Z)) (fuel : nat)
    (waited c : Z) (d : gmap string (string * Z)) :
  let w := mkWorld (mkQueryCache ttl mem true (Some (mkRedis d []))) c in
  poll (S fuel) rk lt waited w =
    if waited <? seconds lt then
      match val_truthy (visible c d rk) with
      | Some s => Some (decode s w)
      | None =>
          match visible c d (rk +:+ lock_suffix) with
          | None => Some (w, Ok VNone)
          | Some _ => poll fuel rk lt (waited + poll_interval) (time_sleep poll_interval w).1
          end
      end
    else Some (w, Ok VNone).
Proof.
  cbv zeta. cbn [poll]. destruct (waited <? seconds lt); [| reflexivity].
  unfold on_redis, redis_get, redis_exists, command. simpl.
  destruct (val_truthy (visible c d rk)); [reflexivity |]. simpl.
  destruct (visible c d (rk +:+ lock_suffix)); reflexivity.
Qed.

(** What ends the wait of [get] on a store that answers, exactly.  When
    nothing ends the wait in its first [n] looks, [get] returns at look
    number [n], having slept [n] times: with the entry decoded when the
    entry is there then (at the first look whatever the window, later while
    the window is open); with [None] when the window is open and neither the
    entry nor the lock record is there; with [None] when the window has
    elapsed. *)
Lemma get_wait_exact (w : World) (r : Redis) (a : list arg) (lt : Z) (n : nat) :
  let rk := _redis_key (_hash_key a) in
  is_shared w r -> healthy r ->
  keeps_waiting rk lt (clock w) (db r) n ->
  (∀ s, entry_seen rk (clock w) (db r) n = Some s ->
        n = O ∨ poll_interval * Z.of_nat n < seconds lt ->
        get a true lt w = decode s (woken n (db r) w)) ∧
  (entry_seen rk (clock w) (db r) n = None ->
   lock_seen rk (clock w) (db r) n = None ->
   poll_interval * Z.of_nat n < seconds lt ->
   get a true lt w = (woken n (db r) w, Ok VNone)) ∧
  (entry_seen rk (clock w) (db r) n = None ∨ n ≠ O ->
   seconds lt <= poll_interval * Z.of_nat n ->
   get a true lt w = (woken n (db r) w, Ok VNone)).
Proof.
  cbv zeta. intros [Hu Hr] Hh Hw.
  destruct w as [[ttl mem ur rd] clk]. simpl in *. subst ur rd.
  destruct r as [d fs]. unfold healthy in Hh. simpl in *. subst fs.
  set (rk := _redis_key (_hash_key a)) in *.
  assert (Hwoken0 : woken 0 d (mkWorld (mkQueryCache ttl mem true (Some (mkRedis d []))) clk)
                    = mkWorld (mkQueryCache ttl mem true (Some (mkRedis d []))) clk).
  { unfold woken, instant_after, with_clock, with_redis. simpl.
    now rewrite Z.mul_0_r, Z.add_0_r. }
  assert (Hseen0 : entry_seen rk clk d 0 = val_truthy (visible clk d rk)).
  { unfold entry_seen, instant_after. simpl. now rewrite Z.mul_0_r, Z.add_0_r. }
  assert (Hfirst : ∀ s, entry_seen rk clk d 0 = Some s ->
            get a true lt (mkWorld (mkQueryCache ttl mem true (Some (mkRedis d []))) clk)
            = decode s (mkWorld (mkQueryCache ttl mem true (Some (mkRedis d []))) clk)).
  { intros s Hs. rewrite Hseen0 in Hs. unfold get, on_redis, redis_get, command. simpl.
    fold rk. now rewrite Hs. }
  assert (Hloop : entry_seen rk clk d 0 = None ->
            get a true lt (mkWorld (mkQueryCache ttl mem true (Some (mkRedis d []))) clk)
            = default (mkWorld (mkQueryCache ttl mem true (Some (mkRedis d []))) clk, Ok VNone)
                (poll (poll_fuel lt) rk lt 0
                   (mkWorld (mkQueryCache ttl mem true (Some (mkRedis d []))) clk))).
  { intros Hs. rewrite Hseen0 in Hs. unfold get, on_redis, redis_get, command. simpl.
    fold rk. now rewrite Hs. }
  assert (Hfuel : ∃ fuel, poll_fuel lt = (n + S fuel)%nat).
  { exists (Z.to_nat (2 * lt) - n)%nat. unfold poll_fuel.
    destruct n as [|n']; [lia |].
    destruct (Hw n') as (Hopen & _); [lia |]. unfold poll_interval, seconds in Hopen. lia. }
  destruct Hfuel as [fuel Hfuel].
  assert (Hrounds : entry_seen rk clk d 0 = None ->
            get a true lt (mkWorld (mkQueryCache ttl mem true (Some (mkRedis d []))) clk)
            = default (mkWorld (mkQueryCache ttl mem true (Some (mkRedis d []))) clk, Ok VNone)
                (poll (S fuel) rk lt (poll_interval * Z.of_nat n)
                   (mkWorld (mkQueryCache ttl mem true
                               (Some (mkRedis (store_after n clk d) [])))
                      (instant_after n clk)))).
  { intros Hs. rewrite (Hloop Hs), Hfuel.
    rewrite (poll_rounds rk lt ttl mem n (S fuel) 0 clk d); [reflexivity |].
    intros i Hi. destruct (Hw i Hi) as (Ho & He & Hl). split; [lia | now split]. }
  assert (Hnone0 : n ≠ O -> entry_seen rk clk d 0 = None).
  { intros Hn. destruct (Hw O) as (_ & He & _); [lia | exact He]. }
  assert (Hwoken : woken n d (mkWorld (mkQueryCache ttl mem true (Some (mkRedis d []))) clk)
                   = mkWorld (mkQueryCache ttl mem true
                                (Some (mkRedis (store_after n clk d) [])))
                       (instant_after n clk)) by reflexivity.
  rewrite Hwoken. split; [| split].
  - intros s Hs Hn. destruct (decide (n = O)) as [-> | Hpos].
    + rewrite <- Hwoken, Hwoken0. now apply Hfirst.
    + destruct Hn as [Hn | Hn]; [contradiction |].
      rewrite (Hrounds (Hnone0 Hpos)), poll_last.
      apply Z.ltb_lt in Hn. rewrite Hn. unfold entry_seen in Hs. now rewrite Hs.
  - intros He Hl Hn.
    assert (H0 : entry_seen rk clk d 0 = None).
    { destruct (decide (n = O)) as [-> | Hpos]; [exact He | exact (Hnone0 Hpos)]. }
    rewrite (Hrounds H0), poll_last. apply Z.ltb_lt in Hn. rewrite Hn.
    unfold entry_seen in He. rewrite He. unfold lock_seen in Hl. now rewrite Hl.
  - intros He Hn.
    assert (H0 : entry_seen rk clk d 0 = None).
    { destruct (decide (n = O)) as [-> | Hpos]; [| exact (Hnone0 Hpos)].
      destruct He as [He | He]; [exact He | contradiction]. }
    rewrite (Hrounds H0), poll_last. apply Z.ltb_ge in Hn. now rewrite Hn.
Qed.

End BoundedWait.

Section LosingCaller.

Context `{Environment} `{Upstream}.

Lemma run_eq {A} (m : M A) (w : World) : m w = (after m w, outcome m w).
Proof. unfold after, outcome. now destruct (m w). Qed.

(** A waiting [get] returns after a whole number of polling intervals within
    the window, for one of the reasons of [poll_ended]. *)
Lemma get_wait_spec (w : World) (a : list arg) (lt : Z) :
  (∃ n, 0 <= n ∧ clock (after (get a true lt) w) = clock w + poll_interval * n ∧
        poll_interval * n <= Z.max 0 (seconds lt)) ∧
  (∀ r, is_shared w r ->
        poll_ended (clock w) lt (_redis_key (_hash_key a))
          (after (get a true lt) w) (outcome (get a true lt) w)).
Proof.
  assert (Hz : ∀ w', clock w' = clock w ->
            ∃ n, 0 <= n ∧ clock w' = clock w + poll_interval * n ∧
                 poll_interval * n <= Z.max 0 (seconds lt)).
  { intros w' Hw'. exists 0. lia. }
  unfold after, outcome, get. destruct (_use_redis (self w)) eqn:Hu; cbv zeta.
  2:{ split.
      - destruct (_mem_cache (self w) !! _hash_key a) as [[result timestamp]|];
          [destruct (_ <? _) |]; now apply Hz.
      - intros r [Hu' _]. congruence. }
  destruct (_redis (self w)) as [r|] eqn:Hr.
  2:{ unfold on_redis. rewrite Hr. simpl. split; [now apply Hz |].
      intros r [_ Hr']. congruence. }
  destruct (on_redis_get (_redis_key (_hash_key a)) w r Hr) as (fs1 & Hw1 & Hx1).
  destruct (on_redis (redis_get _) w) as [w1 x1]. simpl in Hw1, Hx1. subst w1.
  destruct Hx1 as [-> | ->]; [split; [now apply Hz | now intros] |].
  destruct (val_truthy (visible (clock w) (db r) _)) as [s|] eqn:Ev.
  { rewrite decode_state. split; [now apply Hz |]. intros r0 _.
    destruct (decode s _) as [w' [v|e]] eqn:Ed; simpl; [| exact I].
    eexists. split; [reflexivity |]. left. exists s. simpl. split; [exact Ev |].
    now rewrite Ed. }
  match goal with
  | |- context [poll ?fuel ?rk lt 0 ?w1] =>
      destruct (poll_terminates rk lt fuel 0 w1) as [res Hp];
      [unfold poll_fuel; lia | unfold poll_fuel, poll_interval, seconds; lia |];
      rewrite Hp;
      change 0 with (poll_interval * 0) in Hp;
      eapply (poll_spec (clock w)) in Hp; [| simpl; unfold poll_interval; lia | reflexivity]
  end.
  simpl. destruct Hp as [(k' & Hk1 & Hk2 & Hk3) Hend]. split; [| now intros].
  exists k'. unfold poll_interval in *. lia.
Qed.

(** C9.  The polling loop of [get] ends within its fuel in every state, so
    [get] returns.  A waiting [get] returns after a whole number of
    half-second sleeps that fits in the window of [lock_timeout] seconds
    (on the clock of the sleeps, which is the one the loop counts on), and in
    the shared variant it returns because the store raised, because the
    entry appeared (which it returns), because the lock record is gone, or
    because the window has elapsed.  On a store that answers this is exact:
    when nothing ends the wait in its first [n] looks, [get] returns at look
    number [n] after [n] sleeps, with the entry decoded when the entry is
    there (at the first look whatever the window, later while the window is
    open), with [None] when the window is open and neither entry nor lock
    record is there, and with [None] when the window has elapsed.  In
    [summarize_chapter] a caller that finds nothing, fails to acquire the
    lock and still finds nothing after its wait goes on to compute without
    the lock; its wait after the failed [acquire_lock] is within the window
    of 30 s, and its two waits together within twice the window. *)
Theorem losing_caller_wait_is_bounded (w : World) (a : list arg) (lt : Z) (q : string) :
  let rk := _redis_key (_hash_key a) in
  is_Some (poll (poll_fuel lt) rk lt 0 w) ∧
  (∃ n, 0 <= n ∧ clock (after (get a true lt) w) = clock w + poll_interval * n ∧
        poll_interval * n <= Z.max 0 (seconds lt)) ∧
  (∀ r, is_shared w r ->
        poll_ended (clock w) lt rk (after (get a true lt) w) (outcome (get a true lt) w)) ∧
  (∀ r n, is_shared w r -> healthy r ->
     keeps_waiting rk lt (clock w) (db r) n ->
     (∀ s, entry_seen rk (clock w) (db r) n = Some s ->
           n = O ∨ poll_interval * Z.of_nat n < seconds lt ->
           get a true lt w = decode s (woken n (db r) w)) ∧
     (entry_seen rk (clock w) (db r) n = None ->
      lock_seen rk (clock w) (db r) n = None ->
      poll_interval * Z.of_nat n < seconds lt ->
      get a true lt w = (woken n (db r) w, Ok VNone)) ∧
     (entry_seen rk (clock w) (db r) n = None ∨ n ≠ O ->
      seconds lt <= poll_interval * Z.of_nat n ->
      get a true lt w = (woken n (db r) w, Ok VNone))) ∧
  (∀ c1 c2,
     let args := [AStr "summarize"; AStr q] in
     let w1 := after (get args true 30) w in
     let w2 := after (acquire_lock args 30) w1 in
     let w3 := after (get args true 30) w2 in
     outcome (get args true 30) w = Ok c1 -> truthy c1 = false ->
     outcome (acquire_lock args 30) w1 = Ok false ->
     outcome (get args true 30) w2 = Ok c2 -> truthy c2 = false ->
     summarize_chapter q w = summarize_compute false q w3 ∧
     clock w2 <= clock w3 <= clock w2 + seconds 30 ∧
     clock w <= clock w3 <= clock w + 2 * seconds 30).
Proof.
  cbv zeta. split.
  { apply poll_terminates; [unfold poll_fuel; lia |].
    unfold poll_fuel, poll_interval, seconds. lia. }
  destruct (get_wait_spec w a lt) as [Hn Hend]. split; [exact Hn |]. split; [exact Hend |].
  split; [intros r n Hs Hh Hw; exact (get_wait_exact w r a lt n Hs Hh Hw) |].
  intros c1 c2 H1 Ht1 H2 H3 Ht2. set (args := [AStr "summarize"; AStr q]) in *.
  set (w1 := after (get args true 30) w) in *.
  set (w2 := after (acquire_lock args 30) w1) in *.
  set (w3 := after (get args true 30) w2) in *. split.
  - unfold summarize_chapter, bind. fold args.
    rewrite (run_eq (get args true 30) w), H1. fold w1. rewrite Ht1.
    rewrite (run_eq (acquire_lock args 30) w1), H2. fold w2.
    rewrite (run_eq (get args true 30) w2), H3. fold w3. now rewrite Ht2.
  - destruct (get_wait_spec w args 30) as [(n1 & Hn1 & Hc1 & Hb1) _]. fold w1 in Hc1.
    destruct (get_wait_spec w2 args 30) as [(n2 & Hn2 & Hc2 & Hb2) _]. fold w3 in Hc2.
    assert (Hc : clock w2 = clock w1) by apply acquire_clock.
    unfold poll_interval, seconds in *. lia.
Qed.

End LosingCaller.

(** Three waits on a lock that another worker holds.  The worker publishes
    its result during the first sleep of the waiting caller: the caller
    returns it after half a second.  The worker gives its lock up during
    that sleep without a result: the caller returns [None] after half a
    second.  The lock stays for the whole window: the caller returns after
    30 s, fails to acquire, waits another 30 s and computes on its own. *)
Lemma losing_caller_wait_is_bounded_witness :
  let args := [AStr "summarize"; AStr "1"] in
  let rk := _redis_key (_hash_key args) in
  let v := bilingual "Cells are units of life." "Seli ni vitengo vya uhai." in
  let w := mkWorld (shared_cache 600 (mkRedis {[ rk +:+ lock_suffix := ("1"%string, 100000) ]} []))
             0 in
  let w3 := after (get args true 30) (after (acquire_lock args 30) (after (get args true 30) w)) in
  (outcome (get (H := publishing rk (Json.dumps v) 600500) args true 30) w = Ok v ∧
   clock (after (get (H := publishing rk (Json.dumps v) 600500) args true 30) w) = 500) ∧
  (outcome (get (H := giving_up rk) args true 30) w = Ok VNone ∧
   clock (after (get (H := giving_up rk) args true 30) w) = 500) ∧
  (outcome (get args true 30) w = Ok VNone ∧
   clock (after (get args true 30) w) = 30000) ∧
  clock w3 = 60000 ∧
  summarize_chapter (H0 := nothing_stored) "1" w = summarize_compute (H0 := nothing_stored) false "1" w3.
Proof.
  cbv zeta.
  set (args := [AStr "summarize"; AStr "1"]).
  set (rk := _redis_key (_hash_key args)).
  set (d := ({[ rk +:+ lock_suffix := ("1"%string, 100000) ]} : gmap string (string * Z))).
  set (w := mkWorld (shared_cache 600 (mkRedis d [])) 0).
  assert (Hs : is_shared w (mkRedis d [])) by (split; reflexivity).
  split; [| split; [| split]].
  - (* the entry appears *)
    set (E := publishing rk (Json.dumps (bilingual "Cells are units of life."
                                           "Seli ni vitengo vya uhai.")) 600500).
    destruct (losing_caller_wait_is_bounded (H := E) (H0 := nothing_stored) w args 30 "1")
      as (_ & _ & _ & Hexact & _).
    destruct (Hexact (mkRedis d []) 1%nat Hs eq_refl) as (Hentry & _ & _).
    { intros i Hi. assert (i = O) as -> by lia.
      split; [vm_compute; reflexivity |]. split; [vm_compute; reflexivity |].
      vm_compute. eauto. }
    unfold outcome, after.
    rewrite (Hentry (Json.dumps (bilingual "Cells are units of life."
                                   "Seli ni vitengo vya uhai.")));
      [| vm_compute; reflexivity | right; vm_compute; reflexivity].
    split; vm_compute; reflexivity.
  - (* the lock record disappears *)
    destruct (losing_caller_wait_is_bounded (H := giving_up rk) (H0 := nothing_stored)
                w args 30 "1") as (_ & _ & _ & Hexact & _).
    destruct (Hexact (mkRedis d []) 1%nat Hs eq_refl) as (_ & Hgone & _).
    { intros i Hi. assert (i = O) as -> by lia.
      split; [vm_compute; reflexivity |]. split; [vm_compute; reflexivity |].
      vm_compute. eauto. }
    unfold outcome, after.
    rewrite Hgone; [| vm_compute; reflexivity | vm_compute; reflexivity | vm_compute; reflexivity].
    split; vm_compute; reflexivity.
  - (* the window elapses *)
    split; vm_compute; reflexivity.
  - split; [vm_compute; reflexivity |].
    destruct (losing_caller_wait_is_bounded (H0 := nothing_stored) w [] 0 "1")
      as (_ & _ & _ & _ & Hgoes).
    apply (Hgoes VNone VNone).
    + vm_compute. reflexivity.
    + reflexivity.
    + vm_compute. reflexivity.
    + vm_compute. reflexivity.
    + reflexivity.
Defined.

(** ** The handlers and the lock *)

Section HandlerLocks.

Context `{Environment}.

Lemma get_local_empty (ttl now : Z) (a : list arg) (wait : bool) (lt : Z) :
  get a wait lt (mkWorld (local_cache ttl) now) = (mkWorld (local_cache ttl) now, Ok VNone).
Proof. rewrite get_local by reflexivity. simpl. now rewrite lookup_empty. Qed.

(** On a store that answers and holds neither the entry nor its lock, a
    waiting [get] returns at once. *)
Lemma get_shared_nothing (ttl : Z) (mem : gmap string (value * Z))
    (d : gmap string (string * Z)) (now : Z) (a : list arg) (lt : Z) :
  visible now d (_redis_key (_hash_key a)) = None ->
  visible now d (_redis_key (_hash_key a) +:+ lock_suffix) = None ->
  let w := mkWorld (mkQueryCache ttl mem true (Some (mkRedis d []))) now in
  get a true lt w = (w, Ok VNone).
Proof.
  intros He Hl w. subst w. rewrite (get_shared_miss _ (mkRedis d []));
    [| split; reflexivity | reflexivity | exact He].
  unfold poll_fuel. simpl. destruct (0 <? seconds lt); [| reflexivity].
  unfold on_redis, redis_get, redis_exists, command. simpl. rewrite He. simpl.
  rewrite Hl. reflexivity.
Qed.

(** C5, on the code.  [summarize_chapter] on a fresh cache acquires the
    lock; when the retrieval then raises, the exception leaves the handler
    with the lock record still in place, in the local and in the shared
    variant.  In the local variant the same holds for the early return on
    "no usable content", which relies on [set] for the release. *)
Theorem summarize_leaves_lock_behind (ttl now : Z) (q : string) :
  let args := [AStr "summarize"; AStr q] in
  let local := mkWorld (local_cache ttl) now in
  let shared := mkWorld (shared_cache ttl (mkRedis ∅ [])) now in
  (outcome (acquire_lock args 30) local = Ok true ∧
   outcome (summarize_chapter (H0 := retrieval_down) q) local = Raise UpstreamError ∧
   lock_held (_hash_key args) (after (summarize_chapter (H0 := retrieval_down) q) local) = true) ∧
  (outcome (acquire_lock args 30) shared = Ok true ∧
   outcome (summarize_chapter (H0 := retrieval_down) q) shared = Raise UpstreamError ∧
   lock_held (_hash_key args) (after (summarize_chapter (H0 := retrieval_down) q) shared) = true) ∧
  (outcome (summarize_chapter (H0 := nothing_stored) q) local =
     Ok (bilingual ("No usable content found for Chapter " +:+ q +:+ ".") "") ∧
   lock_held (_hash_key args) (after (summarize_chapter (H0 := nothing_stored) q) local) = true).
Proof.
  cbv zeta. set (args := [AStr "summarize"; AStr q]).
  assert (Hacq : acquire_lock args 30 (mkWorld (local_cache ttl) now) =
            (with_mem (<[mem_lock_key (_hash_key args) := (VDict [], now)]> ∅)
               (mkWorld (local_cache ttl) now), Ok true)).
  { rewrite acquire_local by reflexivity. simpl. now rewrite lookup_empty. }
  split; [| split].
  - unfold outcome, after. rewrite Hacq. split; [reflexivity |].
    unfold summarize_chapter, bind. fold args.
    rewrite get_local_empty. simpl. rewrite Hacq. simpl.
    split; [reflexivity |].
    unfold lock_held. simpl. rewrite lookup_insert_eq. apply bool_decide_eq_true. eauto.
  - assert (Hacq' : acquire_lock args 30 (mkWorld (shared_cache ttl (mkRedis ∅ [])) now) =
              (with_redis
                 (Some (mkRedis (<[_redis_key (_hash_key args) +:+ lock_suffix :=
                                     ("1"%string, now + seconds 30)]> ∅) []))
                 (mkWorld (shared_cache ttl (mkRedis ∅ [])) now), Ok true)).
    { rewrite (acquire_shared _ (mkRedis ∅ [])); [| split; reflexivity | exact I | lia].
      cbv zeta. unfold visible. simpl. now rewrite lookup_empty. }
    unfold outcome, after. rewrite Hacq'. split; [reflexivity |].
    unfold summarize_chapter, bind. fold args.
    unfold shared_cache. rewrite get_shared_nothing;
      [| unfold visible; now rewrite lookup_empty ..].
    simpl. fold (shared_cache ttl (mkRedis ∅ [])). rewrite Hacq'. simpl.
    split; [reflexivity |].
    unfold lock_held, visible, live. simpl. rewrite lookup_insert_eq. simpl.
    apply bool_decide_eq_true.
    destruct (_ <=? _) eqn:E; [eauto | apply Z.leb_gt in E; unfold seconds in E; lia].
  - unfold outcome, after, summarize_chapter, bind. fold args.
    rewrite get_local_empty. simpl. rewrite Hacq. simpl.
    unfold summarize_compute, bind. fold args. simpl.
    split; [reflexivity |].
    unfold lock_held. simpl.
    rewrite lookup_insert_ne
      by (intros E; symmetry in E; revert E; apply mem_lock_key_not_entry).
    rewrite lookup_insert_eq. apply bool_decide_eq_true. eauto.
Qed.

(** [answer_general_question] keeps everything that can raise inside its
    [try]: in the local variant the lock is released when the chain raises. *)
Lemma answer_releases_lock_on_error (ttl now : Z) (question : string) :
  let args := [AStr "ask"; AStr question] in
  let local := mkWorld (local_cache ttl) now in
  outcome (answer_general_question (H0 := retrieval_down) question) local = Raise UpstreamError ∧
  lock_held (_hash_key args) (after (answer_general_question (H0 := retrieval_down) question) local)
    = false.
Proof.
  cbv zeta. set (args := [AStr "ask"; AStr question]).
  unfold outcome, after, answer_general_question, bind. fold args.
  rewrite get_local_empty. simpl.
  rewrite acquire_local by reflexivity. simpl. rewrite lookup_empty. simpl.
  unfold answer_compute, try_finally, bind. fold args. simpl.
  unfold release_lock. simpl. rewrite lookup_insert_eq. simpl.
  split; [reflexivity |].
  unfold lock_held. simpl. rewrite lookup_delete_eq. now apply bool_decide_eq_false.
Qed.

End HandlerLocks.

Example retrieval_error_blocks_for_an_hour :
  let w := mkWorld (local_cache 600) 0 in
  outcome (summarize_chapter (H0 := retrieval_down) "1") w = Raise UpstreamError ∧
  outcome (acquire_lock [AStr "summarize"; AStr "1"] 30)
    (elapse 3600000 (after (summarize_chapter (H0 := retrieval_down) "1") w)) = Ok false.
Proof. vm_compute. split; reflexivity. Qed.

(** ** More on the cache methods *)

Section ClearAndRelease.

Context `{Environment}.

Lemma prefix_append (s t : string) : String.prefix s (s +:+ t) = true.
Proof.
  induction s as [|c s IH]; [now destruct ("" +:+ t) |].
  change (String c s +:+ t) with (String c (s +:+ t)). simpl.
  destruct (ascii_dec c c); [exact IH | congruence].
Qed.

Lemma prefix_append2 (s t u : string) : String.prefix s ((s +:+ t) +:+ u) = true.
Proof.
  induction s as [|c s IH]; [now destruct (("" +:+ t) +:+ u) |].
  change ((String c s +:+ t) +:+ u) with (String c ((s +:+ t) +:+ u)). simpl.
  destruct (ascii_dec c c); [exact IH | congruence].
Qed.

(** The keys [clear] asks the store for. *)
Lemma clear_shared (w : World) (r : Redis) :
  is_shared w r -> healthy r ->
  after clear w =
    with_mem ∅
      (with_redis
         (Some (mkRedis
                  (foldr delete (db r)
                     (filter (λ k, String.prefix "ai_cache:" k = true ∧
                                   is_Some (visible (clock w) (db r) k))
                             (map_to_list (db r)).*1))
                  [])) w).
Proof.
  intros [Hu Hr] Hh. destruct w as [[ttl mem ur rd] clk]. simpl in *. subst ur rd.
  destruct r as [d fs]. unfold healthy in Hh. simpl in Hh. subst fs.
  unfold after, clear, bind, try_except, on_redis, redis_keys, redis_delete, command,
    use_redis_and_client. simpl.
  destruct (filter _ _) as [|k ks] eqn:E; reflexivity.
Qed.

(** No key of the cache's namespace is visible once the listed keys are
    deleted. *)
Lemma invisible_after_clear (now : Z) (d : gmap string (string * Z)) (k : string) :
  String.prefix "ai_cache:" k = true ->
  visible now
    (foldr delete d
       (filter (λ k, String.prefix "ai_cache:" k = true ∧ is_Some (visible now d k))
               (map_to_list d).*1)) k = None.
Proof.
  intros Hp. set (keys := filter _ _).
  destruct (decide (k ∈ keys)) as [Hin|Hnin].
  - unfold visible. now rewrite lookup_foldr_delete.
  - unfold visible. rewrite lookup_foldr_delete_not_elem_of by exact Hnin.
    destruct (d !! k) as [rec|] eqn:Ek; [| reflexivity].
    destruct (live now rec) eqn:El; [| reflexivity].
    exfalso. apply Hnin. apply list_elem_of_filter. split.
    + split; [exact Hp |]. unfold visible. rewrite Ek, El. eauto.
    + apply list_elem_of_fmap. exists (k, rec). split; [reflexivity |].
      now apply elem_of_map_to_list.
Qed.

Lemma no_keys_after_clear (now : Z) (d : gmap string (string * Z)) :
  let d' := foldr delete d
              (filter (λ k, String.prefix "ai_cache:" k = true ∧ is_Some (visible now d k))
                      (map_to_list d).*1) in
  filter (λ k, String.prefix "ai_cache:" k = true ∧ is_Some (visible now d' k))
         (map_to_list d').*1 = [].
Proof.
  cbv zeta. apply elem_of_nil_inv. intros k Hk.
  apply list_elem_of_filter in Hk as [[Hp Hv] _].
  rewrite invisible_after_clear in Hv by exact Hp. now destruct Hv.
Qed.

(** X1.  After [clear] (in the local variant, or in the shared variant
    with a store that answers) every [get] finds nothing, whatever its
    arguments, no lock is held, and [get_cache_count] answers 0. *)
Theorem clear_empties_cache (w : World) (a : list arg) (wait : bool) (lt : Z) :
  is_local w ∨ (∃ r, is_shared w r ∧ healthy r) ->
  outcome (get a wait lt) (after clear w) = Ok VNone ∧
  lock_held (_hash_key a) (after clear w) = false ∧
  outcome get_cache_count (after clear w) = Ok 0.
Proof.
  intros [Hl | (r & Hs & Hh)].
  - assert (Hc : after clear w = with_mem ∅ w).
    { unfold after, clear, bind. rewrite (local_not_client w Hl). reflexivity. }
    rewrite Hc. unfold outcome. rewrite get_local by exact Hl. simpl.
    rewrite lookup_empty. split; [reflexivity |]. split.
    + unfold lock_held, use_redis_and_client. simpl. unfold is_local in Hl. rewrite Hl.
      simpl. now rewrite lookup_empty.
    + unfold get_cache_count, use_redis_and_client. simpl. unfold is_local in Hl.
      rewrite Hl. simpl. now rewrite map_size_empty.
  - rewrite (clear_shared w r Hs Hh). destruct Hs as [Hu Hr].
    destruct w as [[ttl mem ur rd] clk]. simpl in *. subst ur rd.
    pose proof (invisible_after_clear clk (db r) (_redis_key (_hash_key a))
                  (prefix_append _ _)) as He.
    pose proof (invisible_after_clear clk (db r) (_redis_key (_hash_key a) +:+ lock_suffix)
                  (prefix_append2 _ _ _)) as Hk.
    pose proof (no_keys_after_clear clk (db r)) as Hn. cbv zeta in Hn.
    set (d' := foldr delete (db r) _) in *.
    unfold with_mem, with_redis. simpl. split; [| split].
    + unfold outcome. destruct wait.
      * rewrite get_shared_nothing; [reflexivity | exact He | exact Hk].
      * rewrite (get_shared_miss _ (mkRedis d' []));
          [reflexivity | split; reflexivity | reflexivity | exact He].
    + unfold lock_held, use_redis_and_client. simpl. now rewrite Hk.
    + unfold outcome, get_cache_count, use_redis_and_client, try_except, bind, on_redis,
        redis_keys, command. simpl. now rewrite Hn.
Qed.

(** X2.  [release_lock] frees the lock whoever holds it: afterwards the
    lock is not held and the next [acquire_lock] for the same arguments
    succeeds (in the shared variant: with a store that answers and a positive
    time-to-live). *)
Theorem release_frees_lock (w : World) (a : list arg) (lock_ttl : Z) :
  is_local w ∨ (∃ r, is_shared w r ∧ healthy r ∧ 0 < lock_ttl) ->
  lock_held (_hash_key a) (after (release_lock a) w) = false ∧
  outcome (acquire_lock a lock_ttl) (after (release_lock a) w) = Ok true.
Proof.
  intros [Hl | (r & Hs & Hh & Httl)].
  - pose proof (local_not_client w Hl) as Hc.
    assert (Hm : _mem_cache (self (after (release_lock a) w)) !! mem_lock_key (_hash_key a)
                 = None ∧ use_redis_and_client (after (release_lock a) w) = false).
    { unfold after, release_lock. rewrite Hc.
      destruct (_mem_cache (self w) !! mem_lock_key (_hash_key a)) eqn:E; simpl.
      - split; [apply lookup_delete_eq | exact Hc].
      - split; [exact E | exact Hc]. }
    destruct Hm as [Hm Hc']. split.
    + unfold lock_held. rewrite Hc', Hm. reflexivity.
    + unfold outcome. rewrite acquire_local by exact Hc'. now rewrite Hm.
  - destruct Hs as [Hu Hr]. destruct w as [[ttl mem ur rd] clk]. simpl in *. subst ur rd.
    destruct r as [d fs]. unfold healthy in Hh. simpl in Hh. subst fs.
    unfold after, release_lock, use_redis_and_client, try_except, on_redis, redis_delete,
      command. simpl. split.
    + unfold lock_held, use_redis_and_client, visible. simpl. now rewrite lookup_delete_eq.
    + unfold outcome. rewrite (acquire_shared _
                 (mkRedis (delete (_redis_key (_hash_key a) +:+ lock_suffix) d) []));
        [| split; reflexivity | exact I | exact Httl].
      cbv zeta. unfold visible. simpl. now rewrite lookup_delete_eq.
Qed.

End ClearAndRelease.

Lemma clear_empties_cache_witness :
  let a := [AStr "summarize"; AStr "1"] in
  let v := VDict [("english", VStr "X"); ("swahili", VStr "Y")] in
  let r := mkRedis {[ _redis_key (_hash_key a) := (Json.dumps v, 600000) ]} [] in
  let w := mkWorld (shared_cache 600 r) 0 in
  outcome (get a true 30) w = Ok v ∧
  outcome (get a true 30) (after clear w) = Ok VNone ∧
  lock_held (_hash_key a) (after clear w) = false ∧
  outcome get_cache_count (after clear w) = Ok 0.
Proof.
  cbv zeta. split; [vm_compute; reflexivity |].
  apply clear_empties_cache. right.
  exists (mkRedis {[ _redis_key (_hash_key [AStr "summarize"; AStr "1"]) :=
                       (Json.dumps (VDict [("english", VStr "X"); ("swahili", VStr "Y")]),
                        600000) ]} []).
  split; [split; reflexivity | reflexivity].
Defined.

Lemma release_frees_lock_witness :
  let a := [AStr "revision"; AStr "2"] in
  let w := after (acquire_lock a 60) (mkWorld (local_cache 600) 0) in
  lock_held (_hash_key a) w = true ∧
  lock_held (_hash_key a) (after (release_lock a) w) = false ∧
  outcome (acquire_lock a 60) (after (release_lock a) w) = Ok true.
Proof.
  cbv zeta. split; [vm_compute; reflexivity |].
  apply release_frees_lock. left. reflexivity.
Defined.

Section Isolation.

Context `{Environment}.

Lemma append_inj_l (s t1 t2 : string) : s +:+ t1 = s +:+ t2 -> t1 = t2.
Proof.
  induction s as [|c s IH]; intros E; [exact E |].
  change (String c (s +:+ t1) = String c (s +:+ t2)) in E. apply IH. congruence.
Qed.

Lemma decode_result (s : string) (w w' : World) : (decode s w).2 = (decode s w').2.
Proof. unfold decode, try_except, json_loads. now destruct (loads s). Qed.

(** A [get] that does not wait, on a store that answers. *)
Lemma get_nowait_shared (ttl : Z) (mem : gmap string (value * Z))
    (d : gmap string (string * Z)) (clk : Z) (b : list arg) (lt : Z) :
  outcome (get b false lt) (mkWorld (mkQueryCache ttl mem true (Some (mkRedis d []))) clk) =
    match val_truthy (visible clk d (_redis_key (_hash_key b))) with
    | Some s => match loads s with Some v => Ok v | None => Ok VNone end
    | None => Ok VNone
    end.
Proof.
  unfold outcome, get, on_redis, redis_get, command. simpl.
  destruct (val_truthy _) as [s|]; [| reflexivity].
  unfold decode, try_except, json_loads. now destruct (loads s).
Qed.

(** X3.  Keys are isolated.  What [get] returns for one key is not changed
    by a [set] for a tuple with another key, nor by an [acquire_lock] or a
    [release_lock] for any tuple (lock records never shadow entries): in the
    local variant, and in the shared variant for a [get] that does not wait,
    on a store that answers. *)
Theorem other_keys_are_untouched (w : World) (a b c : list arg) (v : value)
    (lock_ttl : Z) (wait : bool) (lt : Z) :
  is_local w ∨ (wait = false ∧ ∃ r, is_shared w r ∧ healthy r) ->
  _hash_key a ≠ _hash_key b ->
  outcome (get b wait lt) (after (set v a) w) = outcome (get b wait lt) w ∧
  outcome (get b wait lt) (after (acquire_lock c lock_ttl) w) = outcome (get b wait lt) w ∧
  outcome (get b wait lt) (after (release_lock c) w) = outcome (get b wait lt) w.
Proof.
  intros [Hl | (-> & r & [Hu Hr] & Hh)] Hne.
  - pose proof (local_not_client w Hl) as Hc.
    assert (Hk : ∀ c', mem_lock_key (_hash_key c') ≠ _hash_key b)
      by (intros c'; apply mem_lock_key_not_entry).
    unfold outcome, after. rewrite set_local by exact Hl.
    rewrite acquire_local by exact Hc. unfold release_lock. rewrite Hc.
    rewrite (get_local w) by exact Hl.
    split; [| split].
    + rewrite get_local by exact Hl. simpl. rewrite lookup_insert_ne by exact Hne.
      destruct (_mem_cache (self w) !! _hash_key b) as [[res ts]|]; [| reflexivity].
      now destruct (_ <? _).
    + destruct (_mem_cache (self w) !! mem_lock_key (_hash_key c)); simpl.
      * now rewrite get_local by exact Hl.
      * rewrite get_local by exact Hl. simpl. rewrite lookup_insert_ne by apply Hk.
        destruct (_mem_cache (self w) !! _hash_key b) as [[res ts]|]; [| reflexivity].
        now destruct (_ <? _).
    + destruct (_mem_cache (self w) !! mem_lock_key (_hash_key c)); simpl.
      * rewrite get_local by exact Hl. simpl. rewrite lookup_delete_ne by apply Hk.
        destruct (_mem_cache (self w) !! _hash_key b) as [[res ts]|]; [| reflexivity].
        now destruct (_ <? _).
      * now rewrite get_local by exact Hl.
  - destruct w as [[ttl mem ur rd] clk]. simpl in *. subst ur rd.
    destruct r as [d fs]. unfold healthy in Hh. simpl in Hh. subst fs.
    assert (Hk : ∀ c', _redis_key (_hash_key c') +:+ lock_suffix ≠ _redis_key (_hash_key b))
      by (intros c'; apply redis_lock_key_not_entry).
    assert (Hab : _redis_key (_hash_key a) ≠ _redis_key (_hash_key b)).
    { unfold _redis_key. intros E. apply append_inj_l in E. contradiction. }
    rewrite (get_nowait_shared ttl mem d clk).
    unfold after, set, acquire_lock, release_lock, use_redis_and_client, try_except, bind,
      on_redis, redis_set, redis_set_nx, redis_delete, command, mem_store, modify, ret.
    simpl. split; [| split].
    + destruct (ttl <=? 0); simpl; unfold with_mem, with_redis; simpl;
        rewrite get_nowait_shared; [reflexivity |].
      unfold visible. rewrite lookup_delete_ne by apply Hk.
      now rewrite lookup_insert_ne by exact Hab.
    + destruct (lock_ttl <=? 0); simpl; unfold with_redis; simpl;
        [now rewrite get_nowait_shared |].
      destruct (visible clk d (_redis_key (_hash_key c) +:+ lock_suffix)); simpl;
        rewrite get_nowait_shared; [reflexivity |].
      unfold visible. now rewrite lookup_insert_ne by apply Hk.
    + unfold with_redis; simpl. rewrite get_nowait_shared. unfold visible.
      now rewrite lookup_delete_ne by apply Hk.
Qed.

(** X4.  In the local variant [get_cache_count] counts lock records as
    cached queries: a successful [acquire_lock] raises the count by one. *)
Theorem local_count_includes_locks (w : World) (a : list arg) (lock_ttl : Z) (n : Z) :
  is_local w ->
  lock_held (_hash_key a) w = false ->
  outcome get_cache_count w = Ok n ->
  outcome (acquire_lock a lock_ttl) w = Ok true ∧
  outcome get_cache_count (after (acquire_lock a lock_ttl) w) = Ok (n + 1).
Proof.
  intros Hl Hfree Hn. pose proof (local_not_client w Hl) as Hc.
  unfold lock_held in Hfree. rewrite Hc in Hfree. apply bool_decide_eq_false in Hfree.
  unfold outcome, after in *. rewrite acquire_local by exact Hc.
  destruct (_mem_cache (self w) !! mem_lock_key (_hash_key a)) eqn:E;
    [exfalso; apply Hfree; eauto |].
  split; [reflexivity |]. simpl.
  unfold get_cache_count in *. rewrite Hc in Hn.
  unfold use_redis_and_client in *. simpl in *. rewrite Hc.
  simpl in *. injection Hn as <-. rewrite map_size_insert_None by exact E.
  f_equal. lia.
Qed.

(** X5.  A time-to-live of zero or less turns the local cache off: as long
    as the clock does not go back, no [get] returns what [set] stored. *)
Theorem nonpositive_ttl_disables_local_cache (w : World) (a : list arg) (v : value)
    (d : Z) (wait : bool) (lt : Z) :
  is_local w -> ttl_seconds (self w) <= 0 -> 0 <= d ->
  outcome (get a wait lt) (elapse d (after (set v a) w)) = Ok VNone.
Proof.
  intros Hl Httl Hd. unfold outcome, after. rewrite set_local by exact Hl.
  rewrite get_local by exact Hl. simpl. rewrite lookup_insert_eq.
  destruct (_ <? _) eqn:E; [| reflexivity].
  apply Z.ltb_lt in E. unfold seconds in E. lia.
Qed.

(** X6.  The writing methods never raise: whatever the store does, [set],
    [acquire_lock], [release_lock], [clear] and [get_cache_count] return
    normally. *)
Theorem cache_updates_never_raise (w : World) (v : value) (a : list arg) (lock_ttl : Z) :
  outcome (set v a) w = Ok tt ∧
  (∃ b, outcome (acquire_lock a lock_ttl) w = Ok b) ∧
  outcome (release_lock a) w = Ok tt ∧
  outcome clear w = Ok tt ∧
  (∃ n, outcome get_cache_count w = Ok n).
Proof.
  split; [apply set_never_raises |]. split; [apply acquire_lock_never_raises |].
  split; [apply release_lock_never_raises |]. split; [apply clear_never_raises |].
  apply get_cache_count_never_raises.
Qed.

(** X7.  When the connection to the store fails, the methods degrade as
    follows and leave the content of the store as it is: [acquire_lock]
    answers [false], so the caller does not consider itself the owner; [set]
    keeps the value in the local mapping; [release_lock] does nothing;
    [clear] still empties the local mapping; [get_cache_count] counts the
    local mapping. *)
Theorem store_failure_degrades (w : World) (r : Redis) (fs : list bool) (v : value)
    (a : list arg) (lock_ttl : Z) :
  is_shared w r -> faults r = true :: fs ->
  let w' := with_redis (Some (mkRedis (db r) fs)) w in
  acquire_lock a lock_ttl w = (w', Ok false) ∧
  set v a w = (with_mem (<[_hash_key a := (v, clock w)]> (_mem_cache (self w))) w', Ok tt) ∧
  release_lock a w = (w', Ok tt) ∧
  clear w = (with_mem ∅ w', Ok tt) ∧
  get_cache_count w = (w', Ok (Z.of_nat (size (_mem_cache (self w))))).
Proof.
  intros [Hu Hr] Hf. destruct w as [[ttl mem ur rd] clk]. simpl in *. subst ur rd.
  destruct r as [d fs']. simpl in *. subst fs'. repeat split.
Qed.

End Isolation.

Lemma other_keys_are_untouched_witness :
  let a := [AStr "summarize"; AStr "1"] in
  let b := [AStr "revision"; AStr "1"] in
  let v := VDict [("english", VStr "X"); ("swahili", VStr "Y")] in
  let w := after (set (VList []) b) (mkWorld (local_cache 600) 0) in
  outcome (get b true 30) (after (set v a) w) = Ok (VList []) ∧
  outcome (get b true 30) (after (acquire_lock b 60) w) = Ok (VList []).
Proof.
  cbv zeta.
  assert (Hne : _hash_key [AStr "summarize"; AStr "1"] ≠ _hash_key [AStr "revision"; AStr "1"]).
  { intros E. apply String.eqb_eq in E. vm_compute in E. discriminate E. }
  destruct (other_keys_are_untouched
              (after (set (VList []) [AStr "revision"; AStr "1"]) (mkWorld (local_cache 600) 0))
              [AStr "summarize"; AStr "1"] [AStr "revision"; AStr "1"]
              [AStr "revision"; AStr "1"]
              (VDict [("english", VStr "X"); ("swahili", VStr "Y")]) 60 true 30
              (or_introl eq_refl) Hne) as (H1 & H2 & _).
  rewrite H1, H2. split; vm_compute; reflexivity.
Defined.

Lemma local_count_includes_locks_witness :
  let a := [AStr "summarize"; AStr "1"] in
  let w := mkWorld (local_cache 600) 0 in
  outcome get_cache_count w = Ok 0 ∧
  outcome get_cache_count (after (acquire_lock a 30) w) = Ok 1.
Proof.
  cbv zeta. split; [reflexivity |].
  apply (proj2 (local_count_includes_locks (mkWorld (local_cache 600) 0)
                  [AStr "summarize"; AStr "1"] 30 0 eq_refl eq_refl eq_refl)).
Defined.

Lemma nonpositive_ttl_disables_local_cache_witness :
  outcome (get [AStr "ask"; AStr "What is a cell?"] true 30)
    (elapse 0 (after (set (VStr "x") [AStr "ask"; AStr "What is a cell?"])
                 (mkWorld (local_cache 0) 5000))) = Ok VNone.
Proof.
  apply nonpositive_ttl_disables_local_cache; [reflexivity | simpl; lia | lia].
Defined.

Lemma store_failure_degrades_witness :
  let a := [AStr "summarize"; AStr "1"] in
  let w := mkWorld (shared_cache 600 (mkRedis ∅ [true; false])) 0 in
  outcome (acquire_lock a 30) w = Ok false ∧
  _mem_cache (self (after (set (VStr "x") a) w)) !! _hash_key a = Some (VStr "x", 0).
Proof.
  cbv zeta.
  destruct (store_failure_degrades (mkWorld (shared_cache 600 (mkRedis ∅ [true; false])) 0)
              (mkRedis ∅ [true; false]) [false] (VStr "x") [AStr "summarize"; AStr "1"] 30
              (conj eq_refl eq_refl) eq_refl) as (H1 & H2 & _).
  unfold outcome, after. rewrite H1, H2. split; [reflexivity |].
  simpl. apply lookup_insert_eq.
Defined.

(** ** More on the handlers *)

Section LocalHandlers.

Context `{Environment}.

Lemma summarize_chapter_coalesced `{Upstream} (q : string) :
  summarize_chapter q = coalesced 30 [AStr "summarize"; AStr q] (fun b => summarize_compute b q).
Proof. reflexivity. Qed.

Lemma answer_general_question_coalesced `{Upstream} (q : string) :
  answer_general_question q = coalesced 30 [AStr "ask"; AStr q] (fun b => answer_compute b q).
Proof. reflexivity. Qed.

(** What a local read leaves: the variant, the clock and the time-to-live
    as they were, and at most the entry it looked up removed. *)
Lemma get_local_after (w : World) (a : list arg) (wait : bool) (lt : Z) :
  is_local w ->
  let w1 := after (get a wait lt) w in
  is_local w1 ∧ clock w1 = clock w ∧ ttl_seconds (self w1) = ttl_seconds (self w) ∧
  (∀ k, k ≠ _hash_key a -> _mem_cache (self w1) !! k = _mem_cache (self w) !! k) ∧
  get a wait lt w1 = (w1, outcome (get a wait lt) w).
Proof.
  intros Hl. cbv zeta. unfold after, outcome. rewrite get_local by exact Hl.
  destruct (_mem_cache (self w) !! _hash_key a) as [[res ts]|] eqn:E.
  - destruct (clock w - ts <? seconds (ttl_seconds (self w))) eqn:Ef; simpl.
    + repeat split; try assumption. rewrite get_local by exact Hl. now rewrite E, Ef.
    + repeat split; try assumption.
      * intros k Hk. now rewrite lookup_delete_ne by congruence.
      * rewrite get_local by exact Hl. simpl. now rewrite lookup_delete_eq.
  - simpl. repeat split; try assumption. rewrite get_local by exact Hl. now rewrite E.
Qed.

(** The prelude in the local variant, on a miss: the lock record decides
    who computes, and the computation starts from the state the read left,
    with the lock record added for the owner. *)
Lemma coalesced_local_miss {lock_ttl : Z} (w : World) (args : list arg) (compute : bool -> M value)
    (c : value) :
  is_local w ->
  outcome (get args true 30) w = Ok c -> truthy c = false ->
  let w1 := after (get args true 30) w in
  coalesced lock_ttl args compute w =
    match _mem_cache (self w) !! mem_lock_key (_hash_key args) with
    | Some _ => compute false w1
    | None =>
        compute true
          (with_mem (<[mem_lock_key (_hash_key args) := (VDict [], clock w)]>
                       (_mem_cache (self w1))) w1)
    end.
Proof.
  intros Hl Hc Ht. cbv zeta.
  destruct (get_local_after w args true 30 Hl) as (Hl1 & Hclk & _ & Hmem & Hagain).
  unfold coalesced, bind. rewrite (run_eq (get args true 30) w), Hc, Ht.
  rewrite acquire_local by (now apply local_not_client).
  rewrite Hmem by (apply mem_lock_key_not_entry).
  destruct (_mem_cache (self w) !! mem_lock_key (_hash_key args)).
  - rewrite Hagain, Hc, Ht. reflexivity.
  - simpl. now rewrite Hclk.
Qed.

Lemma coalesced_hit {lock_ttl : Z} (w : World) (args : list arg) (compute : bool -> M value) (c : value) :
  outcome (get args true 30) w = Ok c -> truthy c = true ->
  coalesced lock_ttl args compute w = (after (get args true 30) w, Ok c).
Proof.
  intros Hc Ht. unfold coalesced, bind. now rewrite (run_eq (get args true 30) w), Hc, Ht.
Qed.

Lemma lock_held_local_eq (key : string) (w : World) :
  is_local w ->
  lock_held key w = bool_decide (is_Some (_mem_cache (self w) !! mem_lock_key key)).
Proof. intros Hl. unfold lock_held. now rewrite (local_not_client w Hl). Qed.

Lemma release_local (w : World) (a : list arg) :
  is_local w ->
  let w' := after (release_lock a) w in
  outcome (release_lock a) w = Ok tt ∧
  is_local w' ∧ clock w' = clock w ∧ ttl_seconds (self w') = ttl_seconds (self w) ∧
  _mem_cache (self w') !! mem_lock_key (_hash_key a) = None ∧
  (∀ k, k ≠ mem_lock_key (_hash_key a) ->
        _mem_cache (self w') !! k = _mem_cache (self w) !! k).
Proof.
  intros Hl. cbv zeta. unfold after, outcome, release_lock.
  rewrite (local_not_client w Hl).
  destruct (_mem_cache (self w) !! mem_lock_key (_hash_key a)) eqn:E; simpl.
  - repeat split; try assumption; [apply lookup_delete_eq |].
    intros k Hk. now rewrite lookup_delete_ne by congruence.
  - repeat split; assumption.
Qed.

(** The end of a handler's computation in the local variant: the result is
    stored under the key, then the lock is released if it is held by this
    caller. *)
Lemma publish_local (w : World) (args : list arg) (b : bool) (r : result (string * string)) :
  is_local w ->
  let m := try_finally
             (out <- (fun w0 => (w0, r)) ;;
              set (bilingual out.1 out.2) args ;;; ret (bilingual out.1 out.2))
             (if b then release_lock args else ret tt) in
  let w' := after m w in
  is_local w' ∧ clock w' = clock w ∧ ttl_seconds (self w') = ttl_seconds (self w) ∧
  _mem_cache (self w') !! mem_lock_key (_hash_key args) =
    (if b then None else _mem_cache (self w) !! mem_lock_key (_hash_key args)) ∧
  match r with
  | Ok out =>
      outcome m w = Ok (bilingual out.1 out.2) ∧
      _mem_cache (self w') !! _hash_key args = Some (bilingual out.1 out.2, clock w)
  | Raise e => outcome m w = Raise e
  end.
Proof.
  intros Hl. cbv zeta. unfold after, outcome, try_finally, bind.
  assert (Hne : mem_lock_key (_hash_key args) ≠ _hash_key args)
    by apply mem_lock_key_not_entry.
  destruct r as [out|e].
  - rewrite set_local by exact Hl. simpl.
    set (w1 := with_mem _ w).
    assert (Hl1 : is_local w1) by exact Hl.
    destruct b.
    + destruct (release_local w1 args Hl1) as (Ho & Hl2 & Hc2 & Ht2 & Hk2 & Hm2).
      unfold after, outcome in *. destruct (release_lock args w1) as [w2 [[]|e]];
        simpl in *; [| discriminate Ho].
      repeat split; try assumption.
      rewrite Hm2 by congruence. unfold w1. simpl. apply lookup_insert_eq.
    + simpl. repeat split; try assumption.
      * unfold w1. simpl. now rewrite lookup_insert_ne by congruence.
      * unfold w1. simpl. apply lookup_insert_eq.
  - simpl. destruct b.
    + destruct (release_local w args Hl) as (Ho & Hl2 & Hc2 & Ht2 & Hk2 & Hm2).
      unfold after, outcome in *. destruct (release_lock args w) as [w2 [[]|e']];
        simpl in *; [| discriminate Ho].
      repeat split; assumption.
    + simpl. repeat split; assumption.
Qed.

Lemma bilingual_truthy (e s : string) : truthy (bilingual e s) = true.
Proof. reflexivity. Qed.

Lemma summarize_compute_eq `{Upstream} (b : bool) (q : string) (w : World) :
  let args := [AStr "summarize"; AStr q] in
  summarize_compute b q w =
    match outcome (_fetch_docs_by "content" q 200) w with
    | Raise e => (w, Raise e)
    | Ok docs =>
        match selected_context docs with
        | [] =>
            let result := bilingual ("No usable content found for Chapter " +:+ q +:+ ".") "" in
            (set result args ;;; ret result) w
        | sel =>
            try_finally
              (out <- (fun w0 => (w0, summary_chain q sel)) ;;
               set (bilingual out.1 out.2) args ;;; ret (bilingual out.1 out.2))
              (if b then release_lock args else ret tt) w
        end
    end.
Proof.
  cbv zeta. unfold summarize_compute, selected_context, outcome, _fetch_docs_by, lift.
  unfold bind at 1. cbn [fst snd].
  destruct (similarity_search _ _ _) as [docs|e]; [| reflexivity].
  destruct (select_docs _ 0); reflexivity.
Qed.

Lemma summarize_compute_local `{Upstream} (w : World) (b : bool) (q : string) :
  is_local w ->
  let args := [AStr "summarize"; AStr q] in
  let w' := after (summarize_compute b q) w in
  is_local w' ∧ clock w' = clock w ∧ ttl_seconds (self w') = ttl_seconds (self w) ∧
  (∀ v, outcome (summarize_compute b q) w = Ok v ->
        _mem_cache (self w') !! _hash_key args = Some (v, clock w) ∧ truthy v = true) ∧
  (∀ docs, outcome (_fetch_docs_by "content" q 200) w = Ok docs ->
           selected_context docs ≠ [] ->
           _mem_cache (self w') !! mem_lock_key (_hash_key args) =
             (if b then None else _mem_cache (self w) !! mem_lock_key (_hash_key args))).
Proof.
  intros Hl args w'. subst w'. unfold after, outcome at 1.
  rewrite summarize_compute_eq. fold args.
  destruct (outcome (_fetch_docs_by "content" q 200) w) as [docs|e].
  2:{ refine (conj Hl (conj eq_refl (conj eq_refl (conj _ _)))).
      - intros v Hv. discriminate Hv.
      - intros docs Hd. discriminate Hd. }
  destruct (selected_context docs) as [|d0 sel] eqn:Es.
  - cbv zeta. unfold bind. rewrite set_local by exact Hl. simpl.
    refine (conj Hl (conj eq_refl (conj eq_refl (conj _ _)))).
    + intros v Hv. injection Hv as <-. split; [apply lookup_insert_eq | reflexivity].
    + intros docs' Hd Hsel. injection Hd as <-. now rewrite Es in Hsel.
  - destruct (publish_local w args b (summary_chain q (d0 :: sel)) Hl)
      as (Hl' & Hc' & Ht' & Hk' & Hr'). unfold after, outcome in *.
    refine (conj Hl' (conj Hc' (conj Ht' (conj _ _)))).
    + intros v Hv. destruct (summary_chain q (d0 :: sel)) as [out|e].
      * destruct Hr' as [Ho Hm]. rewrite Ho in Hv. injection Hv as <-.
        split; [exact Hm | reflexivity].
      * rewrite Hr' in Hv. discriminate Hv.
    + intros docs' Hd Hsel. exact Hk'.
Qed.

(** X8.  [answer_general_question] leaves the lock as it found it, in the
    local variant and whatever the retrieval and the completion do: a lock
    held by another caller stays, and the lock this call acquires is
    released by the time it returns or raises. *)
Theorem answer_leaves_lock_as_found `{Upstream} (w : World) (question : string) :
  is_local w ->
  lock_held (_hash_key [AStr "ask"; AStr question])
    (after (answer_general_question question) w)
  = lock_held (_hash_key [AStr "ask"; AStr question]) w.
Proof.
  intros Hl. set (args := [AStr "ask"; AStr question]).
  rewrite answer_general_question_coalesced. fold args.
  destruct (get_local_after w args true 30 Hl) as (Hl1 & Hclk & Httl & Hmem & _).
  assert (Hk : mem_lock_key (_hash_key args) ≠ _hash_key args)
    by apply mem_lock_key_not_entry.
  destruct (outcome (get args true 30) w) as [c|e] eqn:Hc.
  2:{ unfold outcome in Hc. rewrite get_local in Hc by exact Hl.
      destruct (_mem_cache (self w) !! _hash_key args) as [[res ts]|];
        [destruct (_ <? _) |]; discriminate Hc. }
  rewrite (lock_held_local_eq _ w Hl).
  destruct (truthy c) eqn:Ht.
  - unfold after at 1. rewrite (coalesced_hit w args _ c Hc Ht). simpl.
    rewrite (lock_held_local_eq _ _ Hl1). now rewrite Hmem by exact Hk.
  - unfold after at 1. rewrite (coalesced_local_miss w args _ c Hl Hc Ht). cbv zeta.
    destruct (_mem_cache (self w) !! mem_lock_key (_hash_key args)) eqn:Elock.
    + destruct (publish_local (after (get args true 30) w) args false
                  (answer_chain question) Hl1) as (Hl' & _ & _ & Hk' & _).
      unfold answer_compute, lift. unfold after at 1 in Hl'. unfold after at 1 in Hk'.
      rewrite (lock_held_local_eq _ _ Hl'). rewrite Hk'. rewrite Hmem by exact Hk.
      now rewrite Elock.
    + set (w2 := with_mem _ (after (get args true 30) w)).
      assert (Hl2 : is_local w2) by exact Hl1.
      destruct (publish_local w2 args true (answer_chain question) Hl2)
        as (Hl' & _ & _ & Hk' & _).
      unfold answer_compute, lift. unfold after at 1 in Hl'. unfold after at 1 in Hk'.
      rewrite (lock_held_local_eq _ _ Hl'). now rewrite Hk'.
Qed.

Lemma get_local_total (w : World) (a : list arg) (wait : bool) (lt : Z) :
  is_local w -> ∃ c, outcome (get a wait lt) w = Ok c.
Proof.
  intros Hl. unfold outcome. rewrite get_local by exact Hl.
  destruct (_mem_cache (self w) !! _hash_key a) as [[res ts]|];
    [destruct (_ <? _) |]; simpl; eauto.
Qed.

(** X9.  [summarize_chapter] memoises, in the local variant: when a call
    that found nothing usable in the cache returns a result, every call for
    the same chapter before the time-to-live has elapsed returns that result
    from the cache, whatever the vector store and the chain would do then
    (they are not consulted: they may differ or be down). *)
Theorem summarize_memoises (first later : Upstream) (w : World) (q : string)
    (c v : value) (d : Z) :
  is_local w ->
  outcome (get [AStr "summarize"; AStr q] true 30) w = Ok c -> truthy c = false ->
  outcome (summarize_chapter (H0 := first) q) w = Ok v ->
  d < seconds (ttl_seconds (self w)) ->
  outcome (summarize_chapter (H0 := later) q)
    (elapse d (after (summarize_chapter (H0 := first) q) w)) = Ok v.
Proof.
  intros Hl Hc Ht Hv Hd. set (args := [AStr "summarize"; AStr q]) in *.
  destruct (get_local_after w args true 30 Hl) as (Hl1 & Hclk & Httl & Hmem & _).
  assert (Hstored : let w' := after (summarize_chapter (H0 := first) q) w in
            is_local w' ∧ clock w' = clock w ∧
            ttl_seconds (self w') = ttl_seconds (self w) ∧
            _mem_cache (self w') !! _hash_key args = Some (v, clock w) ∧ truthy v = true).
  { cbv zeta. unfold outcome in Hv. unfold after at 1 2 3 4.
    rewrite (summarize_chapter_coalesced (H0 := first)) in *. fold args in Hv |- *.
    rewrite (coalesced_local_miss w args _ c Hl Hc Ht) in *. cbv zeta in *.
    destruct (_mem_cache (self w) !! mem_lock_key (_hash_key args)).
    - destruct (summarize_compute_local (H0 := first) (after (get args true 30) w) false q Hl1)
        as (Hl' & Hc' & Ht' & Hr' & _).
      destruct (Hr' v Hv) as [Hm Htr]. unfold after at 1 in Hl'.
      unfold after at 1 in Hc'. unfold after at 1 in Ht'. unfold after at 1 in Hm.
      fold args in Hm. repeat split; try assumption; congruence.
    - set (w2 := with_mem _ (after (get args true 30) w)) in *.
      assert (Hl2 : is_local w2) by exact Hl1.
      destruct (summarize_compute_local (H0 := first) w2 true q Hl2)
        as (Hl' & Hc' & Ht' & Hr' & _).
      destruct (Hr' v Hv) as [Hm Htr]. unfold after at 1 in Hl'.
      unfold after at 1 in Hc'. unfold after at 1 in Ht'. unfold after at 1 in Hm.
      fold args in Hm. repeat split; try assumption.
      + simpl in Hc'. congruence.
      + simpl in Ht'. congruence.
      + simpl in Hm. now rewrite <- Hclk. }
  cbv zeta in Hstored. destruct Hstored as (Hl' & Hc' & Ht' & Hm & Htr).
  revert Hl' Hc' Ht' Hm. generalize (after (summarize_chapter (H0 := first) q) w).
  intros w' Hl' Hc' Ht' Hm.
  assert (Hg : get args true 30 (elapse d w') = (elapse d w', Ok v)).
  { rewrite get_local by exact Hl'. simpl. rewrite Hm, Hc', Ht'.
    destruct (_ <? _) eqn:E; [reflexivity |]. apply Z.ltb_ge in E. lia. }
  unfold outcome. rewrite (summarize_chapter_coalesced (H0 := later)). fold args.
  rewrite (coalesced_hit (elapse d w') args _ v); [reflexivity | | exact Htr].
  unfold outcome. now rewrite Hg.
Qed.

(** X10.  Once the retrieval has answered with usable content,
    [summarize_chapter] leaves the lock as it found it, in the local variant
    and whether the chain returns or raises: a lock held by another caller
    stays, and the lock this call acquires is released. *)
Theorem summarize_releases_lock_with_content `{Upstream} (w : World) (q : string)
    (c : value) (docs : list Document) :
  is_local w ->
  outcome (get [AStr "summarize"; AStr q] true 30) w = Ok c -> truthy c = false ->
  outcome (_fetch_docs_by "content" q 200) w = Ok docs ->
  selected_context docs ≠ [] ->
  lock_held (_hash_key [AStr "summarize"; AStr q]) (after (summarize_chapter q) w)
  = lock_held (_hash_key [AStr "summarize"; AStr q]) w.
Proof.
  intros Hl Hc Ht Hf Hsel. set (args := [AStr "summarize"; AStr q]) in *.
  destruct (get_local_after w args true 30 Hl) as (Hl1 & Hclk & Httl & Hmem & _).
  assert (Hk : mem_lock_key (_hash_key args) ≠ _hash_key args)
    by apply mem_lock_key_not_entry.
  assert (Hf' : ∀ w0, outcome (_fetch_docs_by "content" q 200) w0 = Ok docs)
    by (intros w0; exact Hf).
  rewrite (lock_held_local_eq _ w Hl).
  rewrite summarize_chapter_coalesced. fold args. unfold after at 1.
  rewrite (coalesced_local_miss w args _ c Hl Hc Ht). cbv zeta.
  destruct (_mem_cache (self w) !! mem_lock_key (_hash_key args)) eqn:Elock.
  - destruct (summarize_compute_local (after (get args true 30) w) false q Hl1)
      as (Hl' & _ & _ & _ & Hk').
    specialize (Hk' docs (Hf' _) Hsel). unfold after at 1 in Hl'. unfold after at 1 in Hk'.
    fold args in Hk'. rewrite (lock_held_local_eq _ _ Hl'). rewrite Hk'.
    rewrite Hmem by exact Hk. now rewrite Elock.
  - set (w2 := with_mem _ (after (get args true 30) w)).
    assert (Hl2 : is_local w2) by exact Hl1.
    destruct (summarize_compute_local w2 true q Hl2) as (Hl' & _ & _ & _ & Hk').
    specialize (Hk' docs (Hf' _) Hsel). unfold after at 1 in Hl'. unfold after at 1 in Hk'.
    fold args in Hk'. rewrite (lock_held_local_eq _ _ Hl'). now rewrite Hk'.
Qed.

End LocalHandlers.

Lemma answer_leaves_lock_as_found_witness :
  let w := mkWorld (local_cache 600) 0 in
  lock_held (_hash_key [AStr "ask"; AStr "What is a cell?"])
    (after (answer_general_question (H0 := retrieval_down) "What is a cell?") w) = false.
Proof.
  cbv zeta.
  rewrite (answer_leaves_lock_as_found (H0 := retrieval_down)
             (mkWorld (local_cache 600) 0) "What is a cell?" eq_refl).
  vm_compute. reflexivity.
Defined.

Lemma summarize_memoises_witness :
  let w := mkWorld (local_cache 600) 0 in
  let first := one_page (Ok ("Cells are units of life."%string, "Seli ni vitengo vya uhai."%string)) in
  outcome (summarize_chapter (H0 := retrieval_down) "1")
    (elapse 599999 (after (summarize_chapter (H0 := first) "1") w))
  = Ok (bilingual "Cells are units of life." "Seli ni vitengo vya uhai.").
Proof.
  cbv zeta.
  apply (summarize_memoises _ retrieval_down (mkWorld (local_cache 600) 0) "1" VNone).
  - reflexivity.
  - vm_compute. reflexivity.
  - reflexivity.
  - vm_compute. reflexivity.
  - unfold seconds. simpl. lia.
Defined.

Lemma summarize_releases_lock_with_content_witness :
  let w := mkWorld (local_cache 600) 0 in
  outcome (summarize_chapter (H0 := one_page (Raise UpstreamError)) "1") w = Raise UpstreamError ∧
  lock_held (_hash_key [AStr "summarize"; AStr "1"])
    (after (summarize_chapter (H0 := one_page (Raise UpstreamError)) "1") w) = false.
Proof.
  cbv zeta. split; [vm_compute; reflexivity |].
  rewrite (summarize_releases_lock_with_content (H0 := one_page (Raise UpstreamError))
             (mkWorld (local_cache 600) 0) "1" VNone [sample_doc]).
  - vm_compute. reflexivity.
  - reflexivity.
  - vm_compute. reflexivity.
  - reflexivity.
  - reflexivity.
  - vm_compute. intros E. discriminate E.
Defined.

(** ** The context handed to the summary chain *)

Section Selection.

Context `{Upstream}.

Lemma select_docs_budget (l : list Document) :
  ∀ t0, t0 <= 10000 -> t0 + total_tokens (select_docs l t0) <= 10000.
Proof.
  induction l as [|d l IH]; intros t0 Ht; simpl; [lia |].
  destruct (10000 <? t0 + _) eqn:E; simpl; [lia |].
  apply Z.ltb_ge in E. specialize (IH _ E). unfold doc_tokens. lia.
Qed.

Lemma select_docs_prefix (l : list Document) :
  ∀ t0, ∃ rest,
    l = select_docs l t0 ++ rest ∧
    match rest with
    | [] => True
    | d :: _ => 10000 < t0 + total_tokens (select_docs l t0) + doc_tokens d
    end.
Proof.
  induction l as [|d l IH]; intros t0; simpl; [now exists [] |].
  destruct (10000 <? t0 + _) eqn:E; simpl.
  - exists (d :: l). split; [reflexivity |]. apply Z.ltb_lt in E. unfold doc_tokens. lia.
  - destruct (IH (t0 + match page_content d with VStr s => estimate_tokens s | _ => 0 end))
      as (rest & Hl & Hr).
    exists rest. split; [now rewrite <- Hl |].
    destruct rest; [exact I |]. unfold doc_tokens at 1. lia.
Qed.

Lemma insert_desc_perm (d : Document) (l : list Document) : insert_desc d l ≡ₚ d :: l.
Proof.
  induction l as [|e l IH]; simpl; [reflexivity |].
  destruct (_ <? _); [reflexivity |]. rewrite IH. apply Permutation_swap.
Qed.

Lemma insert_desc_sorted (d : Document) (l : list Document) :
  StronglySorted longer_first l -> StronglySorted longer_first (insert_desc d l).
Proof.
  induction 1 as [|e l Hs IH Hall]; simpl; [repeat constructor |].
  destruct (content_len e <? content_len d) eqn:E.
  - apply Z.ltb_lt in E. constructor; [now constructor |].
    constructor; [unfold longer_first; lia |].
    eapply Forall_impl; [exact Hall |]. unfold longer_first. intros; lia.
  - apply Z.ltb_ge in E. constructor; [exact IH |].
    rewrite insert_desc_perm. now constructor.
Qed.

Lemma filter_none {A} (P : A -> Prop) `{∀ x, Decision (P x)} (l : list A) :
  Forall (fun x => ¬ P x) l -> filter P l = [].
Proof.
  induction 1 as [|x l Hx _ IH]; [reflexivity |].
  rewrite filter_cons. now destruct (decide (P x)).
Qed.

(** Where [insert_desc] puts a document among those of the same length:
    after them. *)
Lemma insert_desc_stable (n : Z) (d : Document) (l : list Document) :
  StronglySorted longer_first l ->
  filter (fun x => content_len x = n) (insert_desc d l) =
    filter (fun x => content_len x = n) l ++ filter (fun x => content_len x = n) [d].
Proof.
  induction 1 as [|e l Hs IH Hall]; simpl; [reflexivity |].
  destruct (content_len e <? content_len d) eqn:E.
  - apply Z.ltb_lt in E. rewrite (filter_cons _ d), (filter_cons _ d [] ).
    destruct (decide (content_len d = n)) as [Hd|Hd]; [| now rewrite app_nil_r].
    assert (Hnone : filter (fun x => content_len x = n) (e :: l) = []).
    { apply filter_none. constructor; [lia |].
      eapply Forall_impl; [exact Hall |]. unfold longer_first. intros; lia. }
    now rewrite Hnone.
  - rewrite !(filter_cons _ e). destruct (decide (content_len e = n)); [| exact IH].
    now rewrite IH.
Qed.

Lemma sort_desc_acc (l : list Document) :
  ∀ acc, StronglySorted longer_first acc ->
    let s := fold_left (fun acc d => insert_desc d acc) l acc in
    s ≡ₚ acc ++ l ∧ StronglySorted longer_first s ∧
    ∀ n, filter (fun x => content_len x = n) s =
           filter (fun x => content_len x = n) acc ++ filter (fun x => content_len x = n) l.
Proof.
  induction l as [|d l IH]; intros acc Hs; simpl.
  - rewrite app_nil_r. split; [reflexivity |]. split; [exact Hs |].
    intros n. now rewrite app_nil_r.
  - destruct (IH (insert_desc d acc) (insert_desc_sorted d acc Hs)) as (Hp & Hs' & Hf).
    split; [| split; [exact Hs' |]].
    + rewrite Hp, insert_desc_perm. simpl. apply Permutation_middle.
    + intros n. rewrite Hf, (insert_desc_stable n d acc Hs), <- app_assoc.
      f_equal. now rewrite (filter_cons _ d l), (filter_cons _ d []); destruct (decide _).
Qed.

(** A page of 45 letters is not usable, however much white space pads it. *)
Example padded_page_is_not_usable :
  let page := "abcdefghijklmnopqrstuvwxyzabcdefghijklmnopqrs"%string in
  len page = 45 ∧
  usable (mkDocument (VStr (nbsp +:+ nbsp +:+ nbsp +:+ nbsp +:+ nbsp +:+ page +:+ nbsp
                            +:+ nbsp +:+ nbsp +:+ nbsp +:+ nbsp)) []) = false.
Proof. split; reflexivity. Qed.

(** X11.  The context of a summary respects the token budget.  The
    documents [summarize_chapter] hands to the chain are usable documents
    of the retrieval, their token estimates add up to at most 10000, and
    they are the longest ones: a leading part of the usable documents in
    descending length, which stops only at a document that would exceed the
    budget. *)
Theorem summary_context_within_budget (chapter_docs : list Document) :
  let cleaned := sort_desc (filter (fun d => usable d = true) chapter_docs) in
  let selected := selected_context chapter_docs in
  total_tokens selected <= 10000 ∧
  (∀ d, d ∈ selected -> d ∈ chapter_docs ∧ usable d = true) ∧
  ∃ rest, cleaned = selected ++ rest ∧
    match rest with
    | [] => True
    | d :: _ => 10000 < total_tokens selected + doc_tokens d
    end.
Proof.
  cbv zeta. unfold selected_context.
  set (cleaned := sort_desc (filter (fun d => usable d = true) chapter_docs)).
  destruct (select_docs_prefix cleaned 0) as (rest & Hl & Hr).
  split; [| split].
  - pose proof (select_docs_budget cleaned 0). lia.
  - intros d Hd.
    assert (Hc : d ∈ cleaned) by (rewrite Hl; apply elem_of_app; now left).
    unfold cleaned, sort_desc in Hc.
    destruct (sort_desc_acc (filter (fun d => usable d = true) chapter_docs) []
                ltac:(constructor)) as (Hp & _ & _).
    cbv zeta in Hp. rewrite Hp in Hc. simpl in Hc.
    now apply list_elem_of_filter in Hc as [Hu Hin].
  - exists rest. split; [exact Hl |]. destruct rest; [exact I | lia].
Qed.

(** X12.  The sort of the retrieval is a stable sort by descending length:
    [sort_desc] rearranges its documents, a longer document never follows a
    shorter one, and documents of the same length keep the order in which
    the retrieval returned them. *)
Theorem context_sorted_longest_first (l : list Document) :
  sort_desc l ≡ₚ l ∧
  StronglySorted longer_first (sort_desc l) ∧
  ∀ n, filter (fun d => content_len d = n) (sort_desc l) =
         filter (fun d => content_len d = n) l.
Proof.
  destruct (sort_desc_acc l [] ltac:(constructor)) as (Hp & Hs & Hf).
  split; [exact Hp |]. split; [exact Hs |]. intros n. apply Hf.
Qed.

End Selection.

(** ** Revision questions *)

Section Strings.

Lemma len_nonneg (s : string) : 0 <= len s.
Proof. induction s as [|c s IH]; simpl; [lia |]. destruct (N.eqb _ _); lia. Qed.

Lemma len_append (s t : string) : len (s +:+ t) = len s + len t.
Proof.
  induction s as [|c s IH]; [reflexivity |].
  change (String c s +:+ t) with (String c (s +:+ t)). simpl. rewrite IH. lia.
Qed.

Lemma len_cons (c : ascii) (s : string) : len s <= len (String c s).
Proof. simpl. destruct (N.eqb _ _); lia. Qed.

Lemma len_lstrip_upto (n : nat) :
  ∀ s, (String.length s <= n)%nat -> len (lstrip s) <= len s.
Proof.
  induction n as [|n IH]; intros s Hn.
  { destruct s; [simpl; lia | simpl in Hn; lia]. }
  destruct s as [|c1 s1]; [simpl; lia |].
  pose proof (len_cons c1 s1) as H1. cbn [lstrip]. simpl in Hn.
  destruct (is_space c1); [specialize (IH s1); lia |].
  destruct s1 as [|c2 s2]; [lia |].
  pose proof (len_cons c2 s2) as H2. simpl in Hn.
  destruct (is_space2 c1 c2); [specialize (IH s2); lia |].
  destruct s2 as [|c3 s3]; [lia |].
  pose proof (len_cons c3 s3) as H3. simpl in Hn.
  destruct (is_space3 c1 c2 c3); [specialize (IH s3); lia | lia].
Qed.

Lemma len_lstrip (s : string) : len (lstrip s) <= len s.
Proof. now apply (len_lstrip_upto (String.length s)). Qed.

Lemma rstrip_cons (c : ascii) (s : string) :
  rstrip (String c s) =
    if one_space (String c (rstrip s)) then EmptyString else String c (rstrip s).
Proof. reflexivity. Qed.

Lemma len_rstrip (s : string) : len (rstrip s) <= len s.
Proof.
  induction s as [|c s IH]; [simpl; lia |].
  rewrite rstrip_cons. destruct (one_space _).
  - pose proof (len_nonneg (String c s)). simpl len at 1. lia.
  - simpl. destruct (N.eqb _ _); lia.
Qed.

Lemma len_strip (s : string) : len (strip s) <= len s.
Proof. unfold strip. pose proof (len_rstrip (lstrip s)). pose proof (len_lstrip s). lia. Qed.

Lemma len_slice_to (n : nat) (s : string) : len (slice_to n s) <= Z.of_nat n.
Proof.
  revert n. induction s as [|c s IH]; intros n; simpl; [lia |].
  destruct (N.eqb (N.land (N_of_ascii c) 192) 128) eqn:E; simpl; rewrite ?E.
  - specialize (IH n). lia.
  - destruct n as [|n]; simpl; [lia |]. rewrite E. specialize (IH n). lia.
Qed.

Lemma rstrip_idemp (s : string) : rstrip (rstrip s) = rstrip s.
Proof.
  induction s as [|c s IH]; [reflexivity |].
  rewrite rstrip_cons. destruct (one_space (String c (rstrip s))) eqn:E; [reflexivity |].
  rewrite rstrip_cons, IH, E. reflexivity.
Qed.

(** A string that does not start with white space is left alone by
    [lstrip]; what [lstrip] returns does not start with white space, and
    neither does what [rstrip] leaves of such a string. *)
Lemma lstrip_fixed (s : string) : head_space s = false -> lstrip s = s.
Proof.
  destruct s as [|c1 s1]; [reflexivity |]. cbn [head_space lstrip].
  destruct (is_space c1); [discriminate |]. cbn [orb].
  destruct s1 as [|c2 s2]; [reflexivity |].
  destruct (is_space2 c1 c2); [discriminate |]. cbn [orb].
  destruct s2 as [|c3 s3]; [reflexivity |].
  now intros ->.
Qed.

Lemma head_space_lstrip_upto (n : nat) :
  ∀ s, (String.length s <= n)%nat -> head_space (lstrip s) = false.
Proof.
  induction n as [|n IH]; intros s Hn.
  { destruct s; [reflexivity | simpl in Hn; lia]. }
  destruct s as [|c1 s1]; [reflexivity |]. cbn [lstrip]. simpl in Hn.
  destruct (is_space c1) eqn:E1; [apply IH; lia |].
  destruct s1 as [|c2 s2]; [cbn [head_space]; now rewrite E1 |]. simpl in Hn.
  destruct (is_space2 c1 c2) eqn:E2; [apply IH; lia |].
  destruct s2 as [|c3 s3]; [cbn [head_space]; now rewrite E1, E2 |]. simpl in Hn.
  destruct (is_space3 c1 c2 c3) eqn:E3; [apply IH; lia |].
  cbn [head_space]. now rewrite E1, E2, E3.
Qed.

Lemma head_space_rstrip (s : string) : head_space s = false -> head_space (rstrip s) = false.
Proof.
  destruct s as [|c1 s1]; [reflexivity |]. cbn [head_space].
  destruct (is_space c1) eqn:E1; [discriminate |]. cbn [orb]. intros Hs.
  rewrite rstrip_cons. destruct (one_space _); [reflexivity |].
  cbn [head_space]. rewrite E1. cbn [orb].
  destruct s1 as [|c2 s2]; [reflexivity |].
  destruct (is_space2 c1 c2) eqn:E2; [discriminate Hs |]. cbn [orb] in Hs.
  rewrite rstrip_cons. destruct (one_space _); [reflexivity |].
  rewrite E2. cbn [orb].
  destruct s2 as [|c3 s3]; [reflexivity |].
  rewrite rstrip_cons. destruct (one_space _); [reflexivity | exact Hs].
Qed.

Lemma lstrip_rstrip (s : string) : lstrip (rstrip (lstrip s)) = rstrip (lstrip s).
Proof.
  apply lstrip_fixed, head_space_rstrip. now apply (head_space_lstrip_upto (String.length s)).
Qed.

Lemma strip_idemp (s : string) : strip (strip s) = strip s.
Proof. unfold strip. now rewrite lstrip_rstrip, rstrip_idemp. Qed.

(** What [rstrip] returns does not end with white space. *)
Lemma space2_tail (c1 c2 : ascii) : is_space2 c1 c2 = true -> is_space c2 = false.
Proof.
  unfold is_space2, is_space. cbv zeta. generalize (N_of_ascii c1), (N_of_ascii c2).
  intros a b Hs. apply not_true_is_false. intros G. revert Hs G.
  rewrite !orb_true_iff, !andb_true_iff, !orb_true_iff, !N.eqb_eq, !N.leb_le. lia.
Qed.

Lemma space3_tail (c1 c2 c3 : ascii) :
  is_space3 c1 c2 c3 = true -> is_space c3 = false ∧ is_space2 c2 c3 = false.
Proof.
  unfold is_space3, is_space2, is_space. cbv zeta.
  generalize (N_of_ascii c1), (N_of_ascii c2), (N_of_ascii c3). intros a b c Hs.
  split; apply not_true_is_false; intros G; revert Hs G;
    rewrite ?orb_true_iff, ?andb_true_iff, ?orb_true_iff, ?andb_true_iff, ?orb_true_iff,
      ?N.eqb_eq, ?N.leb_le; lia.
Qed.

Lemma one_space_rstrip (x : string) : one_space x = true -> rstrip x = EmptyString.
Proof.
  destruct x as [|c1 [|c2 [|c3 [|c4 x]]]]; try discriminate; cbn [one_space]; intros Hx.
  - rewrite rstrip_cons. cbn [rstrip one_space]. now rewrite Hx.
  - pose proof (space2_tail c1 c2 Hx) as H2.
    rewrite !rstrip_cons. cbn [rstrip one_space]. rewrite H2. cbn [one_space]. now rewrite Hx.
  - destruct (space3_tail c1 c2 c3 Hx) as [H3 H23].
    rewrite !rstrip_cons. cbn [rstrip one_space]. rewrite H3. cbn [one_space].
    rewrite H23. cbn [one_space]. now rewrite Hx.
Qed.

Lemma rstrip_app_space (p x : string) :
  rstrip x = EmptyString -> rstrip (p +:+ x) = rstrip p.
Proof.
  intros Hx. induction p as [|c p IH]; [exact Hx |].
  change (String c p +:+ x) with (String c (p +:+ x)). now rewrite !rstrip_cons, IH.
Qed.

Lemma length_rstrip (s : string) : (String.length (rstrip s) <= String.length s)%nat.
Proof.
  induction s as [|c s IH]; [reflexivity |].
  rewrite rstrip_cons. destruct (one_space _); simpl; lia.
Qed.

Lemma rstrip_fixed_tail (s p x : string) :
  rstrip s = s -> s = p +:+ x -> one_space x = false.
Proof.
  intros Hs -> . destruct (one_space x) eqn:Hx; [| reflexivity]. exfalso.
  pose proof (length_rstrip p) as Hl.
  rewrite (rstrip_app_space p x (one_space_rstrip x Hx)) in Hs.
  rewrite Hs, length_append in Hl.
  destruct x; [discriminate Hx | simpl in Hl; lia].
Qed.

Lemma strip_ends (s : string) :
  head_space (strip s) = false ∧ ∀ p x, strip s = p +:+ x -> one_space x = false.
Proof.
  split.
  - unfold strip. apply head_space_rstrip.
    now apply (head_space_lstrip_upto (String.length s)).
  - intros p x. apply rstrip_fixed_tail. unfold strip. apply rstrip_idemp.
Qed.

(** White space beyond ASCII is white space for [strip]. *)
Example strip_unicode_space :
  strip (nbsp +:+ " " +:+ em_space +:+ "caf" +:+ String "195" (String "169" (nbsp +:+ "x"))
         +:+ em_space +:+ String "010" nbsp)
  = ("caf" +:+ String "195" (String "169" (nbsp +:+ "x")))%string.
Proof. reflexivity. Qed.

End Strings.

Section KeepFirst.

Lemma keep_first_spec (key : string -> string) (l : list string) :
  ∀ seen : gset string,
    NoDup (keep_first key l seen) ∧
    (∀ x, x ∈ keep_first key l seen ↔
          x ≠ EmptyString ∧ (x ∉ seen) ∧ ∃ q, q ∈ l ∧ x = key q) ∧
    sublist (keep_first key l seen) (map key l).
Proof.
  induction l as [|q l IH]; intros seen; simpl.
  - split; [constructor |]. split; [| constructor].
    intros x. split; [intros Hx; now apply elem_of_nil in Hx |].
    intros (_ & _ & q & Hq & _). now apply elem_of_nil in Hq.
  - destruct (String.eqb_spec (key q) EmptyString) as [Hk|Hk].
    { destruct (IH seen) as (Hn & Hm & Hs). split; [exact Hn |]. split.
      - intros x. rewrite Hm. split.
        + intros (Hx & Hsn & q' & Hq' & ->). repeat split; try assumption.
          exists q'. split; [now right | reflexivity].
        + intros (Hx & Hsn & q' & Hq' & ->). repeat split; try assumption.
          apply elem_of_cons in Hq' as [-> | Hq']; [contradiction | eauto].
      - now apply sublist_cons. }
    destruct (decide (key q ∈ seen)) as [Hin|Hin].
    { destruct (IH seen) as (Hn & Hm & Hs). split; [exact Hn |]. split.
      - intros x. rewrite Hm. split.
        + intros (Hx & Hsn & q' & Hq' & ->). repeat split; try assumption.
          exists q'. split; [now right | reflexivity].
        + intros (Hx & Hsn & q' & Hq' & ->). repeat split; try assumption.
          apply elem_of_cons in Hq' as [-> | Hq']; [contradiction | eauto].
      - now apply sublist_cons. }
    destruct (IH ({[ key q ]} ∪ seen)) as (Hn & Hm & Hs). split; [| split].
    + constructor; [| exact Hn]. rewrite Hm. intros (_ & Hsn & _).
      apply Hsn, elem_of_union_l. now apply elem_of_singleton.
    + intros x. rewrite elem_of_cons, Hm. split.
      * intros [-> | (Hx & Hsn & q' & Hq' & ->)].
        -- repeat split; try assumption. exists q. split; [now left | reflexivity].
        -- repeat split; try assumption;
             [intros Hx'; now apply Hsn, elem_of_union_r |].
           exists q'. split; [now right | reflexivity].
      * intros (Hx & Hsn & q' & Hq' & ->).
        destruct (decide (key q' = key q)) as [E|E]; [now left | right].
        repeat split; try assumption;
          [intros [Hx'%elem_of_singleton | Hx']%elem_of_union; contradiction |].
        apply elem_of_cons in Hq' as [-> | Hq']; [contradiction | eauto].
    + now apply sublist_skip.
Qed.

End KeepFirst.

Section RevisionFilterFacts.

Context `{Text}.

Lemma likely_question_long (text : string) :
  _is_likely_question text = true -> 15 <= len (strip text).
Proof.
  unfold _is_likely_question.
  destruct (String.eqb _ _); simpl; [discriminate |].
  destruct (len (strip text) <? 15) eqn:E; [discriminate |].
  intros _. now apply Z.ltb_ge in E.
Qed.

Lemma clean_line_cases (s : string) : _clean_line s = EmptyString ∨ _clean_line s = strip s.
Proof.
  unfold _clean_line. destruct (String.eqb _ _); [now left |].
  destruct (existsb _ _); [now left | now right].
Qed.

Lemma doc_text_stripped (d : Document) : strip (doc_text d) = doc_text d.
Proof. unfold doc_text. apply strip_idemp. Qed.

(** What the first loop of [extract_revision_questions] collects. *)
Lemma likely_questions_spec (docs : list Document) :
  sublist (likely_questions docs) (map doc_text docs) ∧
  ∀ q, q ∈ likely_questions docs ↔
       (∃ d, d ∈ docs ∧ doc_text d = q) ∧
       q ≠ EmptyString ∧ _clean_line q = q ∧ _is_likely_question q = true.
Proof.
  induction docs as [|d docs [IHs IHm]]; simpl.
  - split; [constructor |]. intros q. split; [intros Hq; now apply elem_of_nil in Hq |].
    intros [(d & Hd & _) _]. now apply elem_of_nil in Hd.
  - assert (Hrest : ∀ q, doc_text d = q ->
              (q ≠ EmptyString ∧ _clean_line q = q ∧ _is_likely_question q = true) ->
              String.eqb (doc_text d) EmptyString = false ∧
              negb (String.eqb (_clean_line (doc_text d)) EmptyString)
                && _is_likely_question (_clean_line (doc_text d)) = true).
    { intros q <- (Hq & Hc & Hl). split; [now apply String.eqb_neq |].
      rewrite Hc, Hl. now apply String.eqb_neq in Hq as ->. }
    destruct (String.eqb_spec (doc_text d) EmptyString) as [He|He].
    { split; [now apply sublist_cons |]. intros q. rewrite IHm. split.
      - intros [(d' & Hd' & Ht) Hq]. split; [| exact Hq]. exists d'. split; [now right | exact Ht].
      - intros [(d' & Hd' & Ht) Hq]. split; [| exact Hq].
        apply elem_of_cons in Hd' as [-> | Hd']; [| eauto].
        destruct Hq as (Hq & _). congruence. }
    destruct (negb _ && _) eqn:Ek.
    + apply andb_true_iff in Ek as [Hne Hl]. apply negb_true_iff, String.eqb_neq in Hne.
      assert (Hc : _clean_line (doc_text d) = doc_text d).
      { destruct (clean_line_cases (doc_text d)) as [E|E]; [contradiction |].
        now rewrite E, doc_text_stripped. }
      rewrite Hc in *. split; [now apply sublist_skip |].
      intros q. rewrite elem_of_cons, IHm. split.
      * intros [-> | [(d' & Hd' & Ht) Hq]].
        -- split; [exists d; split; [now left | reflexivity] | now repeat split].
        -- split; [| exact Hq]. exists d'. split; [now right | exact Ht].
      * intros [(d' & Hd' & Ht) Hq].
        apply elem_of_cons in Hd' as [-> | Hd']; [now left | right].
        split; [eauto | exact Hq].
    + split; [now apply sublist_cons |]. intros q. rewrite IHm. split.
      * intros [(d' & Hd' & Ht) Hq]. split; [| exact Hq]. exists d'. split; [now right | exact Ht].
      * intros [(d' & Hd' & Ht) Hq]. split; [| exact Hq].
        apply elem_of_cons in Hd' as [-> | Hd']; [| eauto].
        destruct (Hrest q Ht Hq) as [_ Hk]. congruence.
Qed.

Lemma clean_line_stripped (q : string) : _clean_line q = q -> strip q = q.
Proof.
  intros Hc. destruct (clean_line_cases q) as [E|E]; [| congruence].
  rewrite E in Hc. now subst q.
Qed.

(** A short text is no question, whatever white space surrounds it. *)
Example padded_short_text_is_dropped :
  extract_revision_questions
    [mkDocument (VStr (nbsp +:+ nbsp +:+ nbsp +:+ nbsp +:+ nbsp +:+ nbsp +:+ nbsp +:+ nbsp
                       +:+ nbsp +:+ nbsp +:+ "short?")) []] = [].
Proof.
  unfold extract_revision_questions. cbn [likely_questions].
  match goal with
  | |- context [doc_text ?d] => replace (doc_text d) with "short?"%string by reflexivity
  end.
  unfold _clean_line. cbv zeta. change (strip "short?") with "short?"%string.
  cbn [String.eqb Ascii.eqb Bool.eqb]. destruct (existsb _ _); reflexivity.
Qed.

(** X13.  [extract_revision_questions] returns each question once, in the
    order of the documents: its result has no duplicates, follows the order
    of the document texts, and holds exactly the texts of the documents that
    are not empty, pass [_clean_line] unchanged (so are stripped and are not
    noise) and look like a question; every one has at least 15 characters. *)
Theorem extracted_questions_are_distinct (revision_docs : list Document) :
  let questions := extract_revision_questions revision_docs in
  NoDup questions ∧
  sublist questions (map doc_text revision_docs) ∧
  (∀ q, q ∈ questions ↔
        (∃ d, d ∈ revision_docs ∧ doc_text d = q) ∧
        q ≠ EmptyString ∧ _clean_line q = q ∧ _is_likely_question q = true) ∧
  (∀ q, q ∈ questions -> 15 <= len q).
Proof.
  cbv zeta. unfold extract_revision_questions.
  destruct (keep_first_spec strip (likely_questions revision_docs) ∅) as (Hn & Hm & Hs).
  destruct (likely_questions_spec revision_docs) as (Hls & Hlm).
  assert (Hstrip : ∀ q, q ∈ likely_questions revision_docs -> strip q = q).
  { intros q Hq. apply Hlm in Hq as (_ & _ & Hc & _). now apply clean_line_stripped. }
  assert (Hmem : ∀ q, q ∈ keep_first strip (likely_questions revision_docs) ∅ ↔
                      q ∈ likely_questions revision_docs).
  { intros q. rewrite Hm. split.
    - intros (_ & _ & q' & Hq' & ->). now rewrite (Hstrip q' Hq').
    - intros Hq. split; [apply Hlm in Hq; tauto |]. split; [apply not_elem_of_empty |].
      exists q. split; [exact Hq | symmetry; now apply Hstrip]. }
  split; [exact Hn |]. split; [| split].
  - etransitivity; [exact Hs |].
    replace (map strip (likely_questions revision_docs)) with (likely_questions revision_docs);
      [exact Hls |].
    clear -Hstrip. induction (likely_questions revision_docs) as [|q l IH]; [reflexivity |].
    simpl. rewrite (Hstrip q) by now left. f_equal. apply IH.
    intros q' Hq'. apply Hstrip. now right.
  - intros q. now rewrite Hmem, Hlm.
  - intros q Hq. apply Hmem, Hlm in Hq as (_ & _ & Hc & Hl).
    apply likely_question_long in Hl. now rewrite (clean_line_stripped q Hc) in Hl.
Qed.

Lemma cleaned_question_bound (text : string) : len (_clean_question_text text) <= 200.
Proof.
  unfold _clean_question_text. cbv zeta.
  set (t := re_sub _ _ false (re_sub _ _ true _)).
  etransitivity; [apply len_strip |].
  destruct (200 <? len t) eqn:E.
  - rewrite len_append. pose proof (len_slice_to 197 t).
    change (len "...") with 3. lia.
  - now apply Z.ltb_ge in E.
Qed.

(** X14.  A cleaned question has at most 200 characters and no white space
    around it, whatever the text and whatever the substitutions leave:
    [strip] leaves it as it is, it does not begin with a white-space code
    point and it does not end with one (white space as [str.strip] sees it,
    beyond ASCII as well). *)
Theorem cleaned_question_is_bounded (text : string) :
  let r := _clean_question_text text in
  len r <= 200 ∧
  strip r = r ∧
  head_space r = false ∧
  (∀ p x, r = p +:+ x -> one_space x = false).
Proof.
  cbv zeta. split; [apply cleaned_question_bound |].
  unfold _clean_question_text. cbv zeta. split; [apply strip_idemp |]. apply strip_ends.
Qed.

End RevisionFilterFacts.

(** ** The revision handler *)

Section RevisionHandlerFacts.

Context `{Environment} `{Upstream} `{Text} `{RevisionChain}.

Lemma answer_revision_coalesced (q : string) :
  answer_revision_questions_async q =
    coalesced 60 [AStr "revision"; AStr q] (fun b => revision_compute b q).
Proof. reflexivity. Qed.

(** The retrievals leave the state alone, and their outcome does not depend
    on it. *)
Lemma fetch_revision_docs_run (major : string) (w : World) :
  ∃ docs, ∀ w', fetch_revision_docs major w' = (w', Ok docs).
Proof.
  unfold fetch_revision_docs, try_except, bind, lift, ret. cbv zeta.
  destruct (similarity_search _ _ _) as [[|d l]|e]; [| eauto ..].
  destruct (similarity_search _ _ _) as [l|e]; eauto.
Qed.

Lemma fetch_content_docs_run (major q : string) (w w' : World) :
  fetch_content_docs major q w' = (w', outcome (fetch_content_docs major q) w).
Proof.
  unfold outcome, fetch_content_docs, bind, _fetch_docs_by_root, _fetch_docs_by, lift, ret.
  cbv zeta. destruct (similarity_search _ _ _) as [[|d l]|e]; reflexivity.
Qed.

Lemma revision_compute_eq (b : bool) (q : string) (w : World) :
  let args := [AStr "revision"; AStr q] in
  ∃ revision_docs,
    (∀ w', outcome (fetch_revision_docs (before_dot q)) w' = Ok revision_docs) ∧
    revision_compute b q w =
      match outcome (fetch_content_docs (before_dot q) q) w with
      | Raise e => (w, Raise e)
      | Ok content_docs =>
          match revision_questions revision_docs with
          | [] => (set (VList []) args ;;; ret (VList [])) w
          | filtered =>
              match build_chain q with
              | Raise e => (w, Raise e)
              | Ok _ =>
                  try_finally
                    (results <- (fun w0 => (w0, gather (map (answer_single_question q
                                                                content_docs) filtered))) ;;
                     set (VList results) args ;;; ret (VList results))
                    (if b then release_lock args else ret tt) w
              end
          end
      end.
Proof.
  cbv zeta. destruct (fetch_revision_docs_run (before_dot q) w) as [docs Hdocs].
  exists docs. split; [intros w'; unfold outcome; now rewrite Hdocs |].
  unfold revision_compute. cbv zeta. unfold bind at 1. rewrite Hdocs.
  unfold bind at 1. rewrite (fetch_content_docs_run _ _ w w).
  destruct (outcome (fetch_content_docs (before_dot q) q) w) as [cd|e]; [| reflexivity].
  destruct (revision_questions docs); [reflexivity |].
  unfold bind at 1, lift at 1. now destruct (build_chain q).
Qed.

Lemma gather_ok {A B} (f : A -> result B) (l : list A) :
  ∀ results, gather (map f l) = Ok results -> Forall2 (fun q r => f q = Ok r) l results.
Proof.
  induction l as [|a l IH]; simpl; intros results E.
  - injection E as <-. constructor.
  - destruct (f a) as [r|e] eqn:Ef; [| discriminate E].
    destruct (gather (map f l)) as [rs|e] eqn:Eg; [| discriminate E].
    injection E as <-. constructor; [exact Ef | now apply IH].
Qed.

Lemma gather_raise {A B} (f : A -> result B) (l : list A) (e : exn) :
  gather (map f l) = Raise e -> ∃ q, q ∈ l ∧ f q = Raise e.
Proof.
  induction l as [|a l IH]; simpl; intros E; [discriminate E |].
  destruct (f a) as [r|e'] eqn:Ef.
  - destruct (gather (map f l)) as [rs|e'] eqn:Eg; [discriminate E |].
    injection E as ->. destruct (IH eq_refl) as (q & Hq & Hr).
    exists q. split; [now right | exact Hr].
  - injection E as ->. exists a. split; [now left | exact Ef].
Qed.

Lemma answered_records (q : string) (content_docs : list Document) (qs : list string)
    (results : list value) :
  Forall2 (fun x r => answer_single_question q content_docs x = Ok r) qs results ->
  ∃ answers,
    Forall2 (fun x a => ∃ context, question_chain q context x = Ok a) qs answers ∧
    results = zip_with question_record qs answers.
Proof.
  induction 1 as [|x r qs results Hx _ (answers & Ha & ->)].
  - exists []. split; [constructor | reflexivity].
  - unfold answer_single_question in Hx. cbv zeta in Hx.
    destruct (question_chain q _ x) as [out|e] eqn:Ec; [| discriminate Hx].
    injection Hx as <-. exists (out :: answers). split; [| reflexivity].
    constructor; [eauto | exact Ha].
Qed.

(** What [revision_questions] keeps. *)
Lemma revision_questions_spec (revision_docs : list Document) :
  let questions := revision_questions revision_docs in
  NoDup questions ∧
  ∀ x, x ∈ questions ->
       x ≠ EmptyString ∧ len x <= 200 ∧ 6 <= len (lower x) ∧
       ∃ raw, raw ∈ extract_revision_questions revision_docs ∧ x = _clean_question_text raw.
Proof.
  cbv zeta. unfold revision_questions. cbv zeta.
  destruct (keep_first_spec _clean_question_text
              (extract_revision_questions revision_docs) ∅) as (Hn & Hm & _).
  split; [now apply NoDup_filter |].
  intros x Hx. apply list_elem_of_filter in Hx as [Hnoise Hx].
  apply Hm in Hx as (Hne & _ & raw & Hraw & ->).
  split; [exact Hne |]. split; [apply cleaned_question_bound |].
  split; [| eauto].
  unfold is_noise in Hnoise. cbv zeta in Hnoise.
  destruct (len (lower (_clean_question_text raw)) <? 6) eqn:E; [discriminate Hnoise |].
  now apply Z.ltb_ge in E.
Qed.

(** Where the value a handler returns comes from: its first read of the
    cache, its second read after a failed [acquire_lock], or its
    computation, in the states the call itself goes through. *)
Lemma coalesced_outcome (lock_ttl : Z) (args : list arg) (compute : bool -> M value)
    (w : World) (v : value) :
  outcome (coalesced lock_ttl args compute) w = Ok v ->
  let w1 := after (get args true 30) w in
  let w2 := after (acquire_lock args lock_ttl) w1 in
  let w3 := after (get args true 30) w2 in
  (outcome (get args true 30) w = Ok v ∧ truthy v = true) ∨
  (outcome (acquire_lock args lock_ttl) w1 = Ok false ∧
   outcome (get args true 30) w2 = Ok v ∧ truthy v = true) ∨
  (outcome (acquire_lock args lock_ttl) w1 = Ok true ∧ outcome (compute true) w2 = Ok v) ∨
  (outcome (acquire_lock args lock_ttl) w1 = Ok false ∧ outcome (compute false) w3 = Ok v).
Proof.
  cbv zeta. unfold outcome, after, coalesced, bind.
  destruct (get args true 30 w) as [w1 [c|e]]; [| discriminate].
  destruct (truthy c) eqn:Ht.
  { simpl. intros [= <-]. now left. }
  simpl. destruct (acquire_lock args lock_ttl w1) as [w2 [[]|e]]; [| | discriminate].
  { simpl. intros Hv. right. right. left. now split. }
  simpl. destruct (get args true 30 w2) as [w3 [c2|e]]; [| discriminate].
  destruct (truthy c2) eqn:Ht2.
  { simpl. intros [= <-]. right. left. now repeat split. }
  simpl. intros Hv. right. right. right. now split.
Qed.

Lemma publish_outcome {A} (r : result A) (f : A -> value) (args : list arg)
    (cleanup : M unit) (w : World) (v : value) :
  (try_finally (out <- (fun w0 => (w0, r)) ;; set (f out) args ;;; ret (f out)) cleanup w).2
    = Ok v ->
  ∃ out, r = Ok out ∧ v = f out.
Proof.
  unfold try_finally, bind. destruct r as [out|e]; simpl.
  - pose proof (set_never_raises (f out) args w) as Hs. unfold outcome in Hs.
    destruct (set (f out) args w) as [w1 [[]|e]]; [| discriminate Hs]. simpl.
    destruct (cleanup w1) as [w2 [[]|e]]; simpl; [| discriminate].
    intros [= <-]. eauto.
  - destruct (cleanup w) as [w2 [[]|e']]; discriminate.
Qed.

(** What a computation of the handler returns. *)
Lemma revision_compute_outcome (b : bool) (chapter_query : string) (w w' : World) (v : value) :
  outcome (revision_compute b chapter_query) w' = Ok v ->
  ∃ (revision_docs content_docs : list Document) (answers : list (string * string)),
    let questions := revision_questions revision_docs in
    outcome (fetch_revision_docs (before_dot chapter_query)) w = Ok revision_docs ∧
    outcome (fetch_content_docs (before_dot chapter_query) chapter_query) w = Ok content_docs ∧
    NoDup questions ∧
    (∀ q, q ∈ questions -> q ≠ EmptyString ∧ len q <= 200 ∧ 6 <= len (lower q)) ∧
    gather (map (answer_single_question chapter_query content_docs) questions)
      = Ok (zip_with question_record questions answers) ∧
    Forall2 (fun q a => ∃ context, question_chain chapter_query context q = Ok a)
      questions answers ∧
    v = VList (zip_with question_record questions answers).
Proof.
  intros Hv.
  destruct (revision_compute_eq b chapter_query w') as (docs & Hdocs & Heq).
  cbv zeta in Heq. unfold outcome in Hv. rewrite Heq in Hv. clear Heq.
  destruct (revision_questions_spec docs) as (Hn & Hq). cbv zeta in Hn, Hq.
  assert (Hq' : ∀ q, q ∈ revision_questions docs ->
                     q ≠ EmptyString ∧ len q <= 200 ∧ 6 <= len (lower q)).
  { intros q Hin. destruct (Hq q Hin) as (Hx & Hy & Hz & _). auto. }
  assert (Hcd : outcome (fetch_content_docs (before_dot chapter_query) chapter_query) w'
                = outcome (fetch_content_docs (before_dot chapter_query) chapter_query) w).
  { unfold outcome at 1. now rewrite (fetch_content_docs_run _ _ w w'). }
  rewrite Hcd in Hv.
  destruct (outcome (fetch_content_docs _ _) w) as [cd|e]; [| discriminate Hv].
  destruct (revision_questions docs) as [|q0 qs] eqn:Eq.
  - exists docs, cd, []. cbv zeta. rewrite Eq. split; [apply Hdocs |].
    split; [reflexivity |]. split; [constructor |]. split; [exact Hq' |].
    split; [reflexivity |]. split; [constructor |].
    unfold bind in Hv.
    pose proof (set_never_raises (VList []) [AStr "revision"; AStr chapter_query] w') as Hs.
    unfold outcome in Hs.
    destruct (set (VList []) _ w') as [w1 [[]|e]]; [| discriminate Hs].
    simpl in Hv. now injection Hv as <-.
  - destruct (build_chain chapter_query) as [[]|e]; [| discriminate Hv].
    apply (publish_outcome _ VList) in Hv as (results & Hg & ->).
    pose proof Hg as Hg'.
    apply gather_ok, answered_records in Hg' as (answers & Ha & ->).
    exists docs, cd, answers. cbv zeta. rewrite Eq.
    split; [apply Hdocs |]. split; [reflexivity |]. split; [exact Hn |].
    split; [exact Hq' |]. split; [exact Hg |]. split; [exact Ha | reflexivity].
Qed.

(** X15.  What the revision handler returns.  The value is the truthy
    value one of the two reads of the call found in the cache (the read of
    the state the call starts in, or the read after its failed
    [acquire_lock]); or else it is the list the call computed: the result of
    gathering the answers to the questions of the chapter, one record for
    each question and in their order, where the questions are distinct, not
    empty, of at most 200 characters and at least 6 in lower case, and each
    record pairs its question with the answer the chain gave to it. *)
Theorem revision_answers_each_question_once (w : World) (chapter_query : string) (v : value) :
  outcome (answer_revision_questions_async chapter_query) w = Ok v ->
  let args := [AStr "revision"; AStr chapter_query] in
  let w2 := after (acquire_lock args 60) (after (get args true 30) w) in
  (truthy v = true ∧
   (outcome (get args true 30) w = Ok v ∨
    outcome (acquire_lock args 60) (after (get args true 30) w) = Ok false ∧
    outcome (get args true 30) w2 = Ok v)) ∨
  ∃ (revision_docs content_docs : list Document) (answers : list (string * string)),
    let questions := revision_questions revision_docs in
    outcome (fetch_revision_docs (before_dot chapter_query)) w = Ok revision_docs ∧
    outcome (fetch_content_docs (before_dot chapter_query) chapter_query) w = Ok content_docs ∧
    NoDup questions ∧
    (∀ q, q ∈ questions -> q ≠ EmptyString ∧ len q <= 200 ∧ 6 <= len (lower q)) ∧
    gather (map (answer_single_question chapter_query content_docs) questions)
      = Ok (zip_with question_record questions answers) ∧
    Forall2 (fun q a => ∃ context, question_chain chapter_query context q = Ok a)
      questions answers ∧
    v = VList (zip_with question_record questions answers).
Proof.
  intros Hv. cbv zeta. rewrite answer_revision_coalesced in Hv.
  apply coalesced_outcome in Hv. cbv zeta in Hv.
  destruct Hv as [[Hc Ht] | [(Ha & Hc & Ht) | [[_ Hv] | [_ Hv]]]].
  - left. split; [exact Ht | now left].
  - left. split; [exact Ht | right; now split].
  - right. exact (revision_compute_outcome true chapter_query w _ v Hv).
  - right. exact (revision_compute_outcome false chapter_query w _ v Hv).
Qed.

End RevisionHandlerFacts.

Lemma revision_answers_each_question_once_witness :
  let question := "What is the function of the cell membrane?"%string in
  let answer := ("It controls what enters and leaves the cell."%string,
                 "Hudhibiti kinachoingia na kutoka kwenye seli."%string) in
  let w := mkWorld (local_cache 600) 0 in
  let handler := answer_revision_questions_async (H0 := one_question) (H1 := plain_text)
                   (H2 := answers_with (Ok answer)) "1" in
  outcome handler w = Ok (VList [question_record question answer]) ∧
  ∃ (revision_docs content_docs : list Document) (answers : list (string * string)),
    outcome (fetch_revision_docs (H0 := one_question) "1") w = Ok revision_docs ∧
    VList [question_record question answer]
      = VList (zip_with question_record (revision_questions (H1 := plain_text) revision_docs)
                 answers).
Proof.
  cbv zeta.
  assert (Hrun : outcome (answer_revision_questions_async (H0 := one_question)
                            (H1 := plain_text)
                            (H2 := answers_with
                                     (Ok ("It controls what enters and leaves the cell."%string,
                                          "Hudhibiti kinachoingia na kutoka kwenye seli."%string)))
                            "1") (mkWorld (local_cache 600) 0)
                 = Ok (VList [question_record "What is the function of the cell membrane?"
                                ("It controls what enters and leaves the cell."%string,
                                 "Hudhibiti kinachoingia na kutoka kwenye seli."%string)]))
    by (vm_compute; reflexivity).
  split; [exact Hrun |].
  destruct (revision_answers_each_question_once (H0 := one_question) (H1 := plain_text)
              (H2 := answers_with _) (mkWorld (local_cache 600) 0) "1" _ Hrun)
    as [[_ [Hhit | [_ Hhit]]] | (docs & cd & answers & Hd & _ & _ & _ & _ & _ & Hv)].
  - exfalso. revert Hhit. vm_compute. intros E. discriminate E.
  - exfalso. revert Hhit. vm_compute. intros E. discriminate E.
  - exists docs, cd, answers. split; [exact Hd | exact Hv].
Defined.

(** ** The handlers on a key for which nothing is cached *)

Section FreshKey.

Context `{Environment}.

Lemma local_set (v : value) (a : list arg) : preserves is_local (set v a).
Proof. intros w Hl. rewrite set_local by exact Hl. exact Hl. Qed.

Lemma command_healthy {A}
    (f : gmap string (string * Z) -> gmap string (string * Z) * result A) (r : Redis) :
  healthy r -> healthy (command f r).1.
Proof. unfold healthy, command. intros ->. now destruct (f (db r)). Qed.

Lemma answers_on_redis {A} (cmd : Z -> Redis -> Redis * result A) :
  (∀ now r, healthy r -> healthy (cmd now r).1) -> preserves store_answers (on_redis cmd).
Proof.
  intros Hc w (r & [Hu Hr] & Hh). unfold on_redis. rewrite Hr.
  specialize (Hc (clock w) r Hh). destruct (cmd (clock w) r) as [r' x]. simpl in *.
  exists r'. split; [split; [exact Hu | reflexivity] | exact Hc].
Qed.

Lemma answers_mem_store (k : string) (v : value) : preserves store_answers (mem_store k v).
Proof. intros w (r & [Hu Hr] & Hh). exists r. split; [split |]; assumption. Qed.

Lemma answers_set (v : value) (a : list arg) : preserves store_answers (set v a).
Proof.
  intros w Hw. unfold set. destruct (use_redis_and_client w); [| now apply answers_mem_store].
  cbv zeta. generalize (ttl_seconds (self w)). intros ttl. revert w Hw.
  apply preserves_try_except; [| apply answers_mem_store].
  apply preserves_bind; [| intros _]; apply answers_on_redis; intros now r;
    apply command_healthy.
Qed.

Lemma release_shared (w : World) (a : list arg) :
  store_answers w ->
  store_answers (after (release_lock a) w) ∧
  lock_held (_hash_key a) (after (release_lock a) w) = false.
Proof.
  intros (r & [Hu Hr] & Hh). destruct w as [[ttl mem ur rd] clk]. simpl in *. subst ur rd.
  destruct r as [d fs]. unfold healthy in Hh. simpl in Hh. subst fs.
  unfold after, release_lock, use_redis_and_client, try_except, on_redis, redis_delete,
    command. simpl. split.
  - eexists. split; [split; reflexivity | reflexivity].
  - unfold lock_held, use_redis_and_client, visible. simpl. now rewrite lookup_delete_eq.
Qed.

(** A computation that ends with [release_lock] in its [finally] leaves
    the lock free. *)
Lemma finally_release {A} (body : M A) (a : list arg) (w : World) :
  is_local w ∨ store_answers w ->
  preserves is_local body -> preserves store_answers body ->
  lock_held (_hash_key a) (after (try_finally body (release_lock a)) w) = false.
Proof.
  intros Hw Hl Hs. unfold after, try_finally.
  assert (Hw1 : is_local (body w).1 ∨ store_answers (body w).1)
    by (destruct Hw; [left; now apply Hl | right; now apply Hs]).
  destruct (body w) as [w1 x]. simpl in Hw1.
  assert (Hfree : lock_held (_hash_key a) (after (release_lock a) w1) = false).
  { destruct Hw1 as [Hl1 | Hs1]; [| now apply release_shared].
    destruct (release_local w1 a Hl1) as (_ & Hl2 & _ & _ & Hk & _).
    rewrite lock_held_local_eq by exact Hl2. now rewrite Hk. }
  unfold after in Hfree.
  destruct x; destruct (release_lock a w1) as [w2 [[]|e']]; exact Hfree.
Qed.

(** What a computation of the shape the handlers share returns. *)
Lemma publish_result {A} (r : result A) (f : A -> value) (a : list arg) (w : World) :
  outcome (try_finally (out <- (fun w0 => (w0, r)) ;; set (f out) a ;;; ret (f out))
             (release_lock a)) w
  = match r with Ok out => Ok (f out) | Raise e => Raise e end.
Proof.
  unfold outcome, try_finally, bind. destruct r as [out|e]; simpl.
  - pose proof (set_never_raises (f out) a w) as Hs. unfold outcome in Hs.
    destruct (set (f out) a w) as [w1 [[]|e]]; [| discriminate Hs]. simpl.
    pose proof (release_lock_never_raises a w1) as Hr. unfold outcome in Hr.
    destruct (release_lock a w1) as [w2 [[]|e]]; [reflexivity | discriminate Hr].
  - pose proof (release_lock_never_raises a w) as Hr. unfold outcome in Hr.
    destruct (release_lock a w) as [w2 [[]|e']]; [reflexivity | discriminate Hr].
Qed.

Lemma publish_preserves {A} (P : World -> Prop) (r : result A) (f : A -> value)
    (a : list arg) :
  (∀ v, preserves P (set v a)) ->
  preserves P (out <- (fun w0 => (w0, r)) ;; set (f out) a ;;; ret (f out)).
Proof.
  intros Hs. apply preserves_bind; [intros w Hw; exact Hw |].
  intros out. apply preserves_bind; [apply Hs | intros _; apply preserves_ret].
Qed.

(** On a key for which nothing is cached the caller gets the lock, and
    computes in a state that differs by the lock record only. *)
Lemma coalesced_fresh (lock_ttl : Z) (args : list arg) (compute : bool -> M value)
    (w : World) :
  0 < lock_ttl -> fresh_for args w ->
  ∃ w2, coalesced lock_ttl args compute w = compute true w2 ∧
        (is_local w2 ∨ store_answers w2) ∧
        lock_held (_hash_key args) w2 = true ∧
        clock w2 = clock w ∧
        ttl_seconds (self w2) = ttl_seconds (self w) ∧
        (store_answers w -> store_answers w2).
Proof.
  intros Httl [(Hl & He & Hk) | (r & [Hu Hr] & Hh & He & Hk)].
  - exists (with_mem (<[mem_lock_key (_hash_key args) := (VDict [], clock w)]>
                        (_mem_cache (self w))) w).
    split; [| split; [now left | split; [| split; [reflexivity | split; [reflexivity |]]]]].
    + unfold coalesced, bind. rewrite get_local by exact Hl. rewrite He. simpl.
      rewrite acquire_local by now apply local_not_client. now rewrite Hk.
    + rewrite lock_held_local_eq by exact Hl. simpl. rewrite lookup_insert_eq.
      apply bool_decide_eq_true. eauto.
    + intros (r & [Hu _] & _). unfold is_local in Hl. congruence.
  - destruct w as [[ttl mem ur rd] clk]. simpl in *. subst ur rd.
    destruct r as [d fs]. unfold healthy in Hh. simpl in *. subst fs.
    exists (mkWorld (mkQueryCache ttl mem true
                       (Some (mkRedis (<[_redis_key (_hash_key args) +:+ lock_suffix :=
                                           ("1"%string, clk + seconds lock_ttl)]> d) []))) clk).
    assert (Hans : store_answers
              (mkWorld (mkQueryCache ttl mem true
                 (Some (mkRedis (<[_redis_key (_hash_key args) +:+ lock_suffix :=
                                     ("1"%string, clk + seconds lock_ttl)]> d) []))) clk))
      by (eexists; split; [split; reflexivity | reflexivity]).
    split; [| split; [now right | split; [| split; [reflexivity | split; [reflexivity |]]]]].
    + unfold coalesced, bind. rewrite get_shared_nothing by assumption. simpl.
      rewrite (acquire_shared _ (mkRedis d [])); [| split; reflexivity | exact I | exact Httl].
      cbv zeta. simpl. now rewrite Hk.
    + unfold lock_held, use_redis_and_client, visible, live. simpl.
      rewrite lookup_insert_eq. simpl.
      destruct (clk <=? clk + seconds lock_ttl) eqn:E;
        [apply bool_decide_eq_true; eauto | apply Z.leb_gt in E; unfold seconds in E; lia].
    + intros _. exact Hans.
Qed.

End FreshKey.

Section FreshHandlers.

Context `{Environment} `{Upstream}.

(** X19.  On a key for which nothing is cached, with the local mapping or a
    shared store that answers, [answer_general_question] returns what the
    chain answers, or raises what the chain raises, and ends with the lock
    free. *)
Theorem answer_on_fresh_key (w : World) (question : string) :
  fresh_for [AStr "ask"; AStr question] w ->
  outcome (answer_general_question question) w =
    match answer_chain question with
    | Ok out => Ok (bilingual out.1 out.2)
    | Raise e => Raise e
    end ∧
  lock_held (_hash_key [AStr "ask"; AStr question])
    (after (answer_general_question question) w) = false.
Proof.
  intros Hf. set (args := [AStr "ask"; AStr question]) in *.
  destruct (coalesced_fresh 30 args (fun b => answer_compute b question) w)
    as (w2 & Heq & Hv & _); [lia | exact Hf |].
  rewrite answer_general_question_coalesced. fold args.
  unfold outcome, after. rewrite Heq. unfold answer_compute, lift. fold args. split.
  - exact (publish_result (answer_chain question) (fun out => bilingual out.1 out.2) args w2).
  - apply (finally_release _ args w2 Hv); apply publish_preserves;
      [intros v; apply local_set | intros v; apply answers_set].
Qed.

(** X20.  On a key for which nothing is cached, with the local mapping or a
    shared store that answers, and once the retrieval has returned usable
    content, [summarize_chapter] returns what the chain answers for the
    selected documents, or raises what the chain raises, and ends with the
    lock free. *)
Theorem summarize_on_fresh_key (w : World) (q : string) (docs : list Document) :
  fresh_for [AStr "summarize"; AStr q] w ->
  outcome (_fetch_docs_by "content" q 200) w = Ok docs ->
  selected_context docs ≠ [] ->
  outcome (summarize_chapter q) w =
    match summary_chain q (selected_context docs) with
    | Ok out => Ok (bilingual out.1 out.2)
    | Raise e => Raise e
    end ∧
  lock_held (_hash_key [AStr "summarize"; AStr q]) (after (summarize_chapter q) w) = false.
Proof.
  intros Hf Hd Hsel. set (args := [AStr "summarize"; AStr q]) in *.
  destruct (coalesced_fresh 30 args (fun b => summarize_compute b q) w)
    as (w2 & Heq & Hv & _); [lia | exact Hf |].
  rewrite summarize_chapter_coalesced. fold args.
  unfold outcome at 1, after. rewrite Heq, summarize_compute_eq. fold args.
  replace (outcome (_fetch_docs_by "content" q 200) w2) with (Ok docs)
    by (rewrite <- Hd; reflexivity).
  destruct (selected_context docs) as [|d0 sel] eqn:Es; [contradiction |]. split.
  - exact (publish_result (summary_chain q (d0 :: sel)) (fun out => bilingual out.1 out.2)
             args w2).
  - apply (finally_release _ args w2 Hv); apply publish_preserves;
      [intros v; apply local_set | intros v; apply answers_set].
Qed.

End FreshHandlers.

Section FreshRevision.

Context `{Environment} `{Upstream} `{Text} `{RevisionChain}.

(** X16.  On a key for which nothing is cached, with the local mapping or a
    shared store that answers, and when the chapter has questions, the
    revision handler first builds its prompt and its chain, before its
    [try].  When that raises, the exception leaves the handler and the lock
    the call acquired stays behind.  When it succeeds, the handler returns
    the records of all the answers when every question is answered, else
    raises what one of the questions raised, and in both cases ends with the
    lock free. *)
Theorem revision_on_fresh_key (w : World) (q : string)
    (revision_docs content_docs : list Document) :
  fresh_for [AStr "revision"; AStr q] w ->
  outcome (fetch_revision_docs (before_dot q)) w = Ok revision_docs ->
  outcome (fetch_content_docs (before_dot q) q) w = Ok content_docs ->
  revision_questions revision_docs ≠ [] ->
  match build_chain q with
  | Raise e =>
      outcome (answer_revision_questions_async q) w = Raise e ∧
      lock_held (_hash_key [AStr "revision"; AStr q])
        (after (answer_revision_questions_async q) w) = true
  | Ok _ =>
      match gather (map (answer_single_question q content_docs)
                      (revision_questions revision_docs)) with
      | Ok results => outcome (answer_revision_questions_async q) w = Ok (VList results)
      | Raise _ =>
          ∃ e question, question ∈ revision_questions revision_docs ∧
            answer_single_question q content_docs question = Raise e ∧
            outcome (answer_revision_questions_async q) w = Raise e
      end ∧
      lock_held (_hash_key [AStr "revision"; AStr q])
        (after (answer_revision_questions_async q) w) = false
  end.
Proof.
  intros Hf Hr Hc Hq. set (args := [AStr "revision"; AStr q]) in *.
  destruct (coalesced_fresh 60 args (fun b => revision_compute b q) w)
    as (w2 & Heq & Hv & Hlock & _); [lia | exact Hf |].
  rewrite answer_revision_coalesced in *. fold args.
  destruct (revision_compute_eq true q w2) as (docs & Hdocs & Hrun). cbv zeta in Hrun.
  fold args in Hrun. rewrite <- Heq in Hrun.
  assert (docs = revision_docs) as -> by (specialize (Hdocs w); congruence).
  replace (outcome (fetch_content_docs (before_dot q) q) w2) with (Ok content_docs) in Hrun
    by (rewrite <- Hc; unfold outcome; now rewrite (fetch_content_docs_run _ _ w w2)).
  destruct (revision_questions revision_docs) as [|q0 qs] eqn:Es; [contradiction |].
  destruct (build_chain q) as [[]|e0].
  2: { unfold outcome, after. rewrite Hrun. split; [reflexivity | exact Hlock]. }
  unfold outcome at 1 2, after. rewrite Hrun. split.
  - pose proof (publish_result (gather (map (answer_single_question q content_docs) (q0 :: qs)))
                  VList args w2) as Hout.
    unfold outcome in Hout.
    destruct (gather (map (answer_single_question q content_docs) (q0 :: qs)))
      as [results|e] eqn:Eg; [exact Hout |].
    destruct (gather_raise _ _ _ Eg) as (question & Hin & Hraised).
    exists e, question. split; [exact Hin | split; [exact Hraised | exact Hout]].
  - apply (finally_release _ args w2 Hv); apply publish_preserves;
      [intros v; apply local_set | intros v; apply answers_set].
Qed.

(** X17.  The revision handler retrieves the content of the chapter before
    its [try]: when that retrieval raises on a key for which nothing is
    cached, the exception leaves the handler and the lock the call acquired
    stays behind, with the local mapping and with a shared store. *)
Theorem revision_leaves_lock_behind (w : World) (q : string) (e : exn) :
  fresh_for [AStr "revision"; AStr q] w ->
  outcome (fetch_content_docs (before_dot q) q) w = Raise e ->
  outcome (answer_revision_questions_async q) w = Raise e ∧
  lock_held (_hash_key [AStr "revision"; AStr q])
    (after (answer_revision_questions_async q) w) = true.
Proof.
  intros Hf Hc. set (args := [AStr "revision"; AStr q]) in *.
  destruct (coalesced_fresh 60 args (fun b => revision_compute b q) w)
    as (w2 & Heq & _ & Hlock & _); [lia | exact Hf |].
  rewrite answer_revision_coalesced. fold args.
  unfold outcome at 1, after. rewrite Heq.
  destruct (revision_compute_eq true q w2) as (docs & _ & ->).
  replace (outcome (fetch_content_docs (before_dot q) q) w2) with (@Raise (list Document) e)
    by (rewrite <- Hc; unfold outcome; now rewrite (fetch_content_docs_run _ _ w w2)).
  split; [reflexivity | exact Hlock].
Qed.

End FreshRevision.

Section EmptyResult.

Context `{Environment} `{Text} `{RevisionChain}.

(** A computation that returned the empty list has stored it. *)
Lemma revision_compute_empty `{Upstream} (b : bool) (q : string) (w : World) :
  is_local w ->
  outcome (revision_compute b q) w = Ok (VList []) ->
  let w' := after (revision_compute b q) w in
  is_local w' ∧
  ∃ t, _mem_cache (self w') !! _hash_key [AStr "revision"; AStr q] = Some (VList [], t).
Proof.
  intros Hl Hv. cbv zeta. unfold outcome in Hv. unfold after.
  destruct (revision_compute_eq b q w) as (docs & _ & Heq). cbv zeta in Heq.
  rewrite Heq in *. clear Heq.
  destruct (outcome (fetch_content_docs _ _) w) as [cd|e]; [| discriminate Hv].
  destruct (revision_questions docs) as [|q0 qs].
  - unfold bind. rewrite set_local by exact Hl. simpl.
    split; [exact Hl |]. eexists. apply lookup_insert_eq.
  - destruct (build_chain q) as [[]|e]; [| discriminate Hv].
    apply (publish_outcome _ VList) in Hv as (results & Hg & Hr).
    injection Hr as <-. apply gather_ok in Hg. inversion Hg.
Qed.

(** X18.  An empty list of answers is stored but never served.  In the
    local variant, after a call of the revision handler that returned the
    empty list, the next call for the same chapter computes again, however
    soon it comes: when the content retrieval then raises, so does the
    call. *)
Theorem empty_revision_result_is_recomputed (first later : Upstream) (w : World)
    (q : string) (d : Z) (e : exn) :
  is_local w ->
  outcome (answer_revision_questions_async (H0 := first) q) w = Ok (VList []) ->
  outcome (fetch_content_docs (H0 := later) (before_dot q) q) w = Raise e ->
  outcome (answer_revision_questions_async (H0 := later) q)
    (elapse d (after (answer_revision_questions_async (H0 := first) q) w)) = Raise e.
Proof.
  intros Hl Hv He. set (args := [AStr "revision"; AStr q]) in *.
  (* the first call has computed, and stored the empty list *)
  assert (Hstored : let w1 := after (answer_revision_questions_async (H0 := first) q) w in
            is_local w1 ∧ ∃ t, _mem_cache (self w1) !! _hash_key args = Some (VList [], t)).
  { cbv zeta. destruct (get_local_total w args true 30 Hl) as [c Hc].
    destruct (get_local_after w args true 30 Hl) as (Hl1 & _).
    rewrite (answer_revision_coalesced (H0 := first)) in *. fold args in Hv |- *.
    unfold outcome in Hv. unfold after at 1 2.
    destruct (truthy c) eqn:Ht.
    { rewrite (coalesced_hit w args _ c Hc Ht) in Hv. simpl in Hv.
      injection Hv as ->. discriminate Ht. }
    rewrite (coalesced_local_miss w args _ c Hl Hc Ht) in *. cbv zeta in *.
    destruct (_mem_cache (self w) !! mem_lock_key (_hash_key args)).
    - exact (revision_compute_empty (H2 := first) false q _ Hl1 Hv).
    - refine (revision_compute_empty (H2 := first) true q _ _ Hv). exact Hl1. }
  cbv zeta in Hstored. destruct Hstored as (Hl1 & t & Hm).
  revert Hl1 Hm. generalize (after (answer_revision_questions_async (H0 := first) q) w).
  intros w1 Hl1 Hm.
  (* the next call misses, and computes *)
  assert (Hl2 : is_local (elapse d w1)) by exact Hl1.
  assert (Hmiss : ∃ c2, outcome (get args true 30) (elapse d w1) = Ok c2 ∧ truthy c2 = false).
  { unfold outcome. rewrite get_local by exact Hl2. simpl. rewrite Hm.
    destruct (_ <? _); simpl; eauto. }
  destruct Hmiss as (c2 & Hc2 & Ht2).
  destruct (get_local_after (elapse d w1) args true 30 Hl2) as (Hl3 & _).
  rewrite (answer_revision_coalesced (H0 := later)). fold args. unfold outcome at 1.
  rewrite (coalesced_local_miss (elapse d w1) args _ c2 Hl2 Hc2 Ht2). cbv zeta.
  assert (Hraise : ∀ b w0, (revision_compute (H0 := later) b q w0).2 = Raise e).
  { intros b w0. destruct (revision_compute_eq (H0 := later) b q w0) as (docs & _ & ->).
    replace (outcome (fetch_content_docs (H0 := later) (before_dot q) q) w0)
      with (@Raise (list Document) e); [reflexivity |].
    rewrite <- He. unfold outcome.
    now rewrite (fetch_content_docs_run (H0 := later) _ _ w w0). }
  destruct (_mem_cache (self (elapse d w1)) !! mem_lock_key (_hash_key args)); apply Hraise.
Qed.

End EmptyResult.

Lemma answer_on_fresh_key_witness :
  let answer := ("A cell is the unit of life."%string, "Seli ni kitengo cha uhai."%string) in
  let w := mkWorld (shared_cache 600 (mkRedis ∅ [])) 0 in
  outcome (answer_general_question (H0 := one_page (Ok answer)) "What is a cell?") w
    = Ok (bilingual answer.1 answer.2) ∧
  lock_held (_hash_key [AStr "ask"; AStr "What is a cell?"])
    (after (answer_general_question (H0 := one_page (Ok answer)) "What is a cell?") w) = false.
Proof.
  cbv zeta.
  apply (answer_on_fresh_key
           (H0 := one_page (Ok ("A cell is the unit of life."%string,
                                "Seli ni kitengo cha uhai."%string)))
           (mkWorld (shared_cache 600 (mkRedis ∅ [])) 0) "What is a cell?").
  right. exists (mkRedis ∅ []).
  split; [split; reflexivity |]. split; [reflexivity |].
  unfold visible. cbn [db]. rewrite !lookup_empty. split; reflexivity.
Defined.

Lemma summarize_on_fresh_key_witness :
  let w := mkWorld (shared_cache 600 (mkRedis ∅ [])) 0 in
  outcome (summarize_chapter (H0 := one_page (Raise UpstreamError)) "1") w
    = Raise UpstreamError ∧
  lock_held (_hash_key [AStr "summarize"; AStr "1"])
    (after (summarize_chapter (H0 := one_page (Raise UpstreamError)) "1") w) = false.
Proof.
  cbv zeta.
  apply (summarize_on_fresh_key (H0 := one_page (Raise UpstreamError))
           (mkWorld (shared_cache 600 (mkRedis ∅ [])) 0) "1" [sample_doc]).
  - right. exists (mkRedis ∅ []).
    split; [split; reflexivity |]. split; [reflexivity |].
    unfold visible. cbn [db]. rewrite !lookup_empty. split; reflexivity.
  - reflexivity.
  - vm_compute. intros E. discriminate E.
Defined.

Lemma revision_on_fresh_key_witness :
  let answer := ("It controls what enters and leaves the cell."%string,
                 "Hudhibiti kinachoingia na kutoka kwenye seli."%string) in
  let w := mkWorld (shared_cache 600 (mkRedis ∅ [])) 0 in
  let key := _hash_key [AStr "revision"; AStr "1"] in
  let answered := answer_revision_questions_async (H0 := one_question) (H1 := plain_text)
                    (H2 := answers_with (Ok answer)) "1" in
  let refused := answer_revision_questions_async (H0 := one_question) (H1 := plain_text)
                   (H2 := prompt_refused) "1" in
  (outcome answered w
     = Ok (VList [question_record "What is the function of the cell membrane?" answer]) ∧
   lock_held key (after answered w) = false) ∧
  (outcome refused w = Raise UpstreamError ∧ lock_held key (after refused w) = true).
Proof.
  cbv zeta.
  assert (Hf : fresh_for [AStr "revision"; AStr "1"]
                 (mkWorld (shared_cache 600 (mkRedis ∅ [])) 0)).
  { right. exists (mkRedis ∅ []).
    split; [split; reflexivity |]. split; [reflexivity |].
    unfold visible. cbn [db]. rewrite !lookup_empty. split; reflexivity. }
  assert (Hq : revision_questions (H1 := plain_text) [question_doc] ≠ [])
    by (vm_compute; intros E; discriminate E).
  split.
  - pose proof (revision_on_fresh_key (H0 := one_question) (H1 := plain_text)
                  (H2 := answers_with (Ok ("It controls what enters and leaves the cell."%string,
                                           "Hudhibiti kinachoingia na kutoka kwenye seli."%string)))
                  (mkWorld (shared_cache 600 (mkRedis ∅ [])) 0) "1" [question_doc] [question_doc]
                  Hf eq_refl eq_refl Hq) as Hrun.
    cbn [build_chain answers_with] in Hrun.
    match type of Hrun with
    | context [gather ?l] =>
        assert (Hg : gather l
                     = Ok [question_record "What is the function of the cell membrane?"
                             ("It controls what enters and leaves the cell."%string,
                              "Hudhibiti kinachoingia na kutoka kwenye seli."%string)])
          by (vm_compute; reflexivity);
        rewrite Hg in Hrun
    end.
    exact Hrun.
  - pose proof (revision_on_fresh_key (H0 := one_question) (H1 := plain_text)
                  (H2 := prompt_refused)
                  (mkWorld (shared_cache 600 (mkRedis ∅ [])) 0) "1" [question_doc] [question_doc]
                  Hf eq_refl eq_refl Hq) as Hrun.
    cbn [build_chain prompt_refused] in Hrun.
    exact Hrun.
Defined.

Lemma revision_leaves_lock_behind_witness :
  let w := mkWorld (shared_cache 600 (mkRedis ∅ [])) 0 in
  outcome (answer_revision_questions_async (H0 := retrieval_down) (H1 := plain_text)
             (H2 := answers_with (Raise UpstreamError)) "1") w = Raise UpstreamError ∧
  lock_held (_hash_key [AStr "revision"; AStr "1"])
    (after (answer_revision_questions_async (H0 := retrieval_down) (H1 := plain_text)
              (H2 := answers_with (Raise UpstreamError)) "1") w) = true.
Proof.
  cbv zeta.
  apply (revision_leaves_lock_behind (H0 := retrieval_down) (H1 := plain_text)
           (H2 := answers_with (Raise UpstreamError))
           (mkWorld (shared_cache 600 (mkRedis ∅ [])) 0) "1" UpstreamError).
  - right. exists (mkRedis ∅ []).
    split; [split; reflexivity |]. split; [reflexivity |].
    unfold visible. cbn [db]. rewrite !lookup_empty. split; reflexivity.
  - reflexivity.
Defined.

Lemma empty_revision_result_is_recomputed_witness :
  let w := mkWorld (local_cache 600) 0 in
  let first := answer_revision_questions_async (H0 := nothing_stored) (H1 := plain_text)
                 (H2 := answers_with (Raise UpstreamError)) "1" in
  outcome first w = Ok (VList []) ∧
  outcome (answer_revision_questions_async (H0 := retrieval_down) (H1 := plain_text)
             (H2 := answers_with (Raise UpstreamError)) "1")
    (elapse 1000 (after first w)) = Raise UpstreamError.
Proof.
  cbv zeta.
  assert (Hfirst : outcome (answer_revision_questions_async (H0 := nothing_stored)
                              (H1 := plain_text) (H2 := answers_with (Raise UpstreamError)) "1")
                     (mkWorld (local_cache 600) 0) = Ok (VList []))
    by (vm_compute; reflexivity).
  split; [exact Hfirst |].
  apply (empty_revision_result_is_recomputed (H0 := plain_text)
           (H1 := answers_with (Raise UpstreamError)) nothing_stored retrieval_down
           (mkWorld (local_cache 600) 0) "1" 1000 UpstreamError);
    [reflexivity | exact Hfirst | reflexivity].
Defined.

(** ** Results in the shared store *)

Section SharedResults.

Context `{Environment}.

Lemma set_publishes (w : World) (v : value) (a : list arg) :
  store_answers w -> 0 < ttl_seconds (self w) ->
  published a (dumps v) (clock w + seconds (ttl_seconds (self w))) (after (set v a) w) ∧
  clock (after (set v a) w) = clock w.
Proof.
  intros (r & Hs & Hh) Httl. unfold after. rewrite (set_shared w r) by assumption.
  simpl. split; [| reflexivity]. split.
  - eexists. split; [split; [apply Hs | reflexivity] | reflexivity].
  - eexists. split; [reflexivity |]. simpl.
    rewrite lookup_delete_ne by apply redis_lock_key_not_entry. apply lookup_insert_eq.
Qed.

Lemma release_keeps_entry (w : World) (a : list arg) (s : string) (exp : Z) :
  published a s exp w ->
  published a s exp (after (release_lock a) w) ∧ clock (after (release_lock a) w) = clock w.
Proof.
  intros [(r & [Hu Hr] & Hh) (r' & Hr' & Hd)].
  destruct w as [[ttl mem ur rd] clk]. simpl in *. subst ur rd.
  injection Hr' as <-. destruct r as [d fs]. unfold healthy in Hh. simpl in *. subst fs.
  unfold after, release_lock, use_redis_and_client, try_except, on_redis, redis_delete,
    command. simpl. split; [| reflexivity]. split.
  - eexists. split; [split; reflexivity | reflexivity].
  - eexists. split; [reflexivity |]. simpl.
    now rewrite lookup_delete_ne by apply redis_lock_key_not_entry.
Qed.

Lemma get_published (w : World) (a : list arg) (s : string) (exp : Z) (v : value)
    (wait : bool) (lt : Z) :
  published a s exp w -> clock w <= exp -> s ≠ EmptyString -> loads s = Some v ->
  get a wait lt w = (w, Ok v).
Proof.
  intros [(r & Hs & Hh) (r' & Hr' & Hd)] Hexp Hne Hl.
  assert (r' = r) as -> by (destruct Hs as [_ Hr]; congruence).
  rewrite (get_shared_hit w r a wait lt s);
    [now apply decode_ok | exact Hs | exact Hh | | exact Hne].
  unfold visible. rewrite Hd. unfold live. simpl.
  destruct (_ <=? _) eqn:E; [reflexivity | apply Z.leb_gt in E; lia].
Qed.

(** Another process sees the same store through its own local mapping,
    and later. *)
Lemma published_elsewhere (w : World) (a : list arg) (s : string) (exp : Z)
    (m : gmap string (value * Z)) (d : Z) :
  published a s exp w -> published a s exp (with_mem m (elapse d w)).
Proof.
  intros [(r & [Hu Hr] & Hh) Hd]. split; [| exact Hd].
  exists r. split; [split |]; assumption.
Qed.

Lemma summarize_compute_publishes `{Upstream} (b : bool) (q : string) (w : World) (v : value) :
  store_answers w -> 0 < ttl_seconds (self w) ->
  outcome (summarize_compute b q) w = Ok v ->
  let w' := after (summarize_compute b q) w in
  published [AStr "summarize"; AStr q] (dumps v)
    (clock w + seconds (ttl_seconds (self w))) w' ∧
  clock w' = clock w ∧ truthy v = true.
Proof.
  intros Hs Httl Hv. cbv zeta. set (args := [AStr "summarize"; AStr q]).
  unfold outcome in Hv. unfold after. rewrite summarize_compute_eq in *. fold args in Hv |- *.
  destruct (outcome (_fetch_docs_by "content" q 200) w) as [docs|e]; [| discriminate Hv].
  destruct (selected_context docs) as [|d0 sel].
  - cbv zeta in *. unfold bind in *.
    destruct (set_publishes w (bilingual ("No usable content found for Chapter " +:+ q +:+ ".")
                                 "") args Hs Httl) as [Hp Hc].
    pose proof (set_never_raises (bilingual ("No usable content found for Chapter "
                                               +:+ q +:+ ".") "") args w) as Hok.
    unfold after in Hp, Hc. unfold outcome in Hok.
    destruct (set _ args w) as [w1 [[]|e]]; [| discriminate Hok].
    simpl in *. injection Hv as <-. auto.
  - destruct (publish_outcome _ _ _ _ _ _ Hv) as (out & Hr & ->).
    rewrite Hr. unfold try_finally, bind. simpl.
    destruct (set_publishes w (bilingual out.1 out.2) args Hs Httl) as [Hp Hc].
    pose proof (set_never_raises (bilingual out.1 out.2) args w) as Hok.
    unfold after in Hp, Hc. unfold outcome in Hok.
    destruct (set _ args w) as [w1 [[]|e]]; [| discriminate Hok]. simpl in *.
    destruct b; simpl; [| auto].
    destruct (release_keeps_entry w1 args _ _ Hp) as [Hp' Hc'].
    pose proof (release_lock_never_raises args w1) as Hok'.
    unfold after in Hp', Hc'. unfold outcome in Hok'.
    destruct (release_lock args w1) as [w2 [[]|e]]; [| discriminate Hok'].
    simpl in *. split; [exact Hp' |]. split; [congruence | reflexivity].
Qed.

(** X21.  A summary published to the shared store is served to every
    process that shares the store.  When [summarize_chapter] has returned a
    result on a key for which nothing was cached, a call for the same
    chapter from any process (whatever its local mapping), made no more than
    the time-to-live later, returns that result from the store, whatever the
    vector store and the chain would do then.  The store answers, the
    time-to-live is positive and the result survives encoding and
    decoding. *)
Theorem shared_summary_is_served (first later : Upstream) (w : World) (q : string)
    (v : value) (d : Z) (m : gmap string (value * Z)) :
  store_answers w -> fresh_for [AStr "summarize"; AStr q] w ->
  0 < ttl_seconds (self w) ->
  outcome (summarize_chapter (H0 := first) q) w = Ok v ->
  dumps v ≠ EmptyString -> loads (dumps v) = Some v ->
  d <= seconds (ttl_seconds (self w)) ->
  outcome (summarize_chapter (H0 := later) q)
    (with_mem m (elapse d (after (summarize_chapter (H0 := first) q) w))) = Ok v.
Proof.
  intros Hs Hf Httl Hv Hne Hrt Hd. set (args := [AStr "summarize"; AStr q]) in *.
  destruct (coalesced_fresh 30 args (fun b => summarize_compute (H0 := first) b q) w)
    as (w2 & Heq & _ & _ & Hc2 & Ht2 & Hs2); [lia | exact Hf |].
  rewrite (summarize_chapter_coalesced (H0 := first)) in *. fold args in Hv |- *.
  unfold outcome in Hv. unfold after. rewrite Heq in *.
  destruct (summarize_compute_publishes (H0 := first) true q w2 v (Hs2 Hs)) as (Hp & Hc & Htr);
    [lia | exact Hv |].
  fold args in Hp. unfold after in Hp, Hc.
  revert Hp Hc. generalize (summarize_compute (H0 := first) true q w2).1. intros wf Hp Hc.
  rewrite Hc2, Ht2 in Hp.
  assert (Hg : get args true 30 (with_mem m (elapse d wf)) = (with_mem m (elapse d wf), Ok v)).
  { apply (get_published _ args (dumps v) (clock w + seconds (ttl_seconds (self w))));
      [now apply published_elsewhere | simpl; lia | exact Hne | exact Hrt]. }
  rewrite (summarize_chapter_coalesced (H0 := later)). fold args.
  unfold outcome. rewrite (coalesced_hit _ args _ v); [reflexivity | | exact Htr].
  unfold outcome. now rewrite Hg.
Qed.

End SharedResults.

Lemma shared_summary_is_served_witness :
  let summary := ("Cells are units of life."%string, "Seli ni vitengo vya uhai."%string) in
  let w := mkWorld (shared_cache 600 (mkRedis ∅ [])) 0 in
  let elsewhere : gmap string (value * Z) := {[ "other"%string := (VNone, 0) ]} in
  outcome (summarize_chapter (H0 := retrieval_down) "1")
    (with_mem elsewhere
       (elapse 600000 (after (summarize_chapter (H0 := one_page (Ok summary)) "1") w)))
  = Ok (bilingual summary.1 summary.2).
Proof.
  cbv zeta.
  apply (shared_summary_is_served
           (one_page (Ok ("Cells are units of life."%string,
                          "Seli ni vitengo vya uhai."%string)))
           retrieval_down (mkWorld (shared_cache 600 (mkRedis ∅ [])) 0) "1").
  - exists (mkRedis ∅ []). split; [split; reflexivity | reflexivity].
  - right. exists (mkRedis ∅ []).
    split; [split; reflexivity |]. split; [reflexivity |].
    unfold visible. cbn [db]. rewrite !lookup_empty. split; reflexivity.
  - simpl. lia.
  - vm_compute. reflexivity.
  - vm_compute. intros E. discriminate E.
  - vm_compute. reflexivity.
  - unfold seconds. simpl. lia.
Defined.

(** ** parse_bilingual *)

Section Markers.

Lemma contains_prefix (p s : string) : String.prefix p s = true -> contains p s = true.
Proof. destruct s; simpl; intros ->; reflexivity. Qed.

Lemma contains_from (p x y : string) : contains p (x +:+ p +:+ y) = true.
Proof.
  induction x as [|c x IH].
  - change (EmptyString +:+ p +:+ y) with (p +:+ y).
    apply contains_prefix, prefix_append.
  - change (String c x +:+ p +:+ y) with (String c (x +:+ p +:+ y)). simpl.
    rewrite IH. apply orb_true_r.
Qed.

Lemma contains_cons (p : string) (c : ascii) (s : string) :
  contains p (String c s) = false ->
  String.prefix p (String c s) = false ∧ contains p s = false.
Proof. simpl. intros E. now apply orb_false_iff in E. Qed.

Lemma remove_all_none (old s : string) : contains old s = false -> remove_all old 0 s = s.
Proof.
  induction s as [|c s IH]; [reflexivity |]. intros E.
  apply contains_cons in E as [Ep Ec]. cbn [remove_all]. rewrite Ep. now rewrite IH.
Qed.

(** The marker has no proper border: an occurrence cannot start inside
    what precedes the marker and end inside it. *)
Lemma swahili_no_straddle (x y : string) :
  String.prefix "SWAHILI:" (x +:+ "SWAHILI:" +:+ y) = true ->
  x = EmptyString ∨ String.prefix "SWAHILI:" x = true.
Proof.
  destruct x as [|c1 x]; [now left |]. right. revert H.
  repeat (lazymatch goal with
          | |- String.prefix _ (String ?c ?x +:+ _) = true -> _ =>
              change (String c x +:+ "SWAHILI:" +:+ y)
                with (String c (x +:+ "SWAHILI:" +:+ y));
              cbn [String.prefix];
              destruct (ascii_dec _ c) as [<-|]; [| discriminate];
              destruct x as [|? x]
          | |- String.prefix _ (EmptyString +:+ _) = true -> _ =>
              cbn; discriminate
          end).
  all: try (intros _; reflexivity).
  all: try (cbn; discriminate).
Qed.

Lemma split_once_first (x y : string) :
  contains "SWAHILI:" x = false ->
  split_once "SWAHILI:" (x +:+ "SWAHILI:" +:+ y) = Some (x, y).
Proof.
  induction x as [|c x IH]; intros E.
  - change (EmptyString +:+ "SWAHILI:" +:+ y) with ("SWAHILI:" +:+ y).
    destruct y; reflexivity.
  - apply contains_cons in E as [Ep Ec].
    destruct (String.prefix "SWAHILI:" (String c x +:+ "SWAHILI:" +:+ y)) eqn:Es.
    { apply swahili_no_straddle in Es as [Es|Es]; congruence. }
    change (String c x +:+ "SWAHILI:" +:+ y) with (String c (x +:+ "SWAHILI:" +:+ y)) in *.
    cbn [split_once]. rewrite Es, (IH Ec). reflexivity.
Qed.

End Markers.

Section ParseBilingualFacts.

Context `{Environment} `{Text}.

(** X22.  [parse_bilingual] reads the format the prompts ask for.  For an
    output that, white space around it apart, is the marker ENGLISH:, a text
    that holds no marker, the marker SWAHILI: and a second text, it returns
    the two texts stripped, whatever the second one holds. *)
Theorem parse_bilingual_explicit_format (output english swahili : string) :
  strip output = "ENGLISH:" +:+ english +:+ "SWAHILI:" +:+ swahili ->
  contains "ENGLISH:" english = false ->
  contains "SWAHILI:" english = false ->
  parse_bilingual (VStr output) = Ok (strip english, strip swahili).
Proof.
  intros Hs He Hw. unfold parse_bilingual, output_string. cbv zeta. rewrite Hs.
  assert (Hc1 : contains "ENGLISH:" ("ENGLISH:" +:+ english +:+ "SWAHILI:" +:+ swahili) = true)
    by apply (contains_from "ENGLISH:" EmptyString).
  assert (Hc2 : contains "SWAHILI:" ("ENGLISH:" +:+ english +:+ "SWAHILI:" +:+ swahili) = true)
    by apply (contains_from "SWAHILI:" ("ENGLISH:" +:+ english)).
  rewrite Hc1, Hc2. cbn [andb].
  assert (Hw' : contains "SWAHILI:" ("ENGLISH:" +:+ english) = false).
  { cbn. destruct english; cbn; try exact Hw; reflexivity. }
  change ("ENGLISH:" +:+ english +:+ "SWAHILI:" +:+ swahili)
    with (("ENGLISH:" +:+ english) +:+ "SWAHILI:" +:+ swahili).
  rewrite (split_once_first _ swahili Hw').
  f_equal. f_equal. f_equal.
  change ("ENGLISH:" +:+ english) with (String "E" (String "N" (String "G" (String "L"
    (String "I" (String "S" (String "H" (String ":" english)))))))).
  cbn [remove_all]. 
  assert (Hp : String.prefix "ENGLISH:" (String "E" (String "N" (String "G" (String "L"
    (String "I" (String "S" (String "H" (String ":" english)))))))) = true)
    by (destruct english; reflexivity).
  rewrite Hp. cbn. now apply remove_all_none.
Qed.

End ParseBilingualFacts.

Lemma parse_bilingual_explicit_format_witness :
  parse_bilingual (H0 := plain_text) (VStr formatted_answer)
  = Ok ("A cell."%string, "Seli."%string).
Proof.
  apply (parse_bilingual_explicit_format (H0 := plain_text) formatted_answer
           (" A cell." +:+ nbsp +:+ String "010" EmptyString) " Seli.").
  - reflexivity.
  - reflexivity.
  - reflexivity.
Defined.

(** ** The variant chosen by the constructor *)

Section Wiring.

Context `{Environment}.
Variables (u c : bool).

Lemma wired_on_redis {A} (cmd : Z -> Redis -> Redis * result A) :
  preserves (wired u c) (on_redis cmd).
Proof.
  intros w [Hu Hc]. unfold on_redis. destruct (_redis (self w)) as [r|] eqn:E.
  - destruct (cmd (clock w) r) as [r' x]. split; [exact Hu |]. simpl.
    rewrite <- Hc. rewrite !bool_decide_eq_true_2 by eauto. reflexivity.
  - split; [exact Hu |]. simpl. now rewrite E.
Qed.

Lemma wired_mem_store (k : string) (v : value) : preserves (wired u c) (mem_store k v).
Proof. intros w Hw. exact Hw. Qed.

Lemma wired_sleep (d : Z) : preserves (wired u c) (time_sleep d).
Proof.
  intros w [Hu Hc]. split; [exact Hu |]. simpl. rewrite <- Hc.
  destruct (_redis (self w)); [| reflexivity].
  rewrite !bool_decide_eq_true_2 by eauto. reflexivity.
Qed.

Lemma wired_poll (rk : string) (lt : Z) (fuel : nat) :
  ∀ (waited : Z) (w : World) (res : World * result value),
    wired u c w -> poll fuel rk lt waited w = Some res -> wired u c res.1.
Proof.
  induction fuel as [|fuel IH]; intros waited w res Hw Hp; [discriminate |].
  simpl in Hp. destruct (waited <? seconds lt); [| now inversion Hp; subst].
  pose proof (wired_on_redis (redis_get rk) w Hw) as Hw1.
  destruct (on_redis (redis_get rk) w) as [w1 [val|e]]; simpl in Hw1;
    [| now inversion Hp; subst].
  destruct (val_truthy val) as [s|].
  { inversion Hp; subst. now apply preserves_decode. }
  pose proof (wired_on_redis (redis_exists (rk +:+ lock_suffix)) w1 Hw1) as Hw2.
  destruct (on_redis (redis_exists _) w1) as [w2 [[]|e]]; simpl in Hw2;
    [| now inversion Hp; subst | now inversion Hp; subst].
  eapply IH; [| exact Hp]. now apply wired_sleep.
Qed.

Lemma wired_get (a : list arg) (wait : bool) (lt : Z) : preserves (wired u c) (get a wait lt).
Proof.
  intros w Hw. unfold get. destruct (_use_redis (self w)); cbv zeta.
  - pose proof (wired_on_redis (redis_get (_redis_key (_hash_key a))) w Hw) as Hw1.
    destruct (on_redis (redis_get _) w) as [w1 [val|e]]; simpl in Hw1; [| exact Hw1].
    destruct (val_truthy val) as [s|]; [now apply preserves_decode |].
    destruct wait; [| exact Hw1].
    destruct (poll _ _ _ _ _) as [res|] eqn:Hp; simpl; [| exact Hw1].
    eapply wired_poll; eassumption.
  - destruct (_ !! _) as [[result timestamp]|]; [| exact Hw].
    destruct (_ <? _); exact Hw.
Qed.

Lemma wired_set (v : value) (a : list arg) : preserves (wired u c) (set v a).
Proof.
  intros w Hw. unfold set. destruct (use_redis_and_client w); [| exact Hw].
  cbv zeta. generalize (ttl_seconds (self w)). intros ttl. revert w Hw.
  apply preserves_try_except; [| apply wired_mem_store].
  apply preserves_bind; [| intros _]; apply wired_on_redis.
Qed.

Lemma wired_acquire (a : list arg) (lock_ttl : Z) :
  preserves (wired u c) (acquire_lock a lock_ttl).
Proof.
  intros w Hw. unfold acquire_lock. destruct (use_redis_and_client w).
  - cbv zeta. revert w Hw.
    apply preserves_try_except; [apply wired_on_redis | apply preserves_ret].
  - destruct (_ !! _); exact Hw.
Qed.

Lemma wired_release (a : list arg) : preserves (wired u c) (release_lock a).
Proof.
  intros w Hw. unfold release_lock. destruct (use_redis_and_client w).
  - cbv zeta. revert w Hw.
    apply preserves_try_except; [apply wired_on_redis | apply preserves_ret].
  - destruct (_ !! _); exact Hw.
Qed.

Lemma wired_clear : preserves (wired u c) clear.
Proof.
  intros w Hw. unfold clear.
  assert (Hm : preserves (wired u c) (modify (with_mem ∅))) by (intros w' Hw'; exact Hw').
  destruct (use_redis_and_client w); revert w Hw;
    (apply preserves_bind; [| intros _; exact Hm]); [| apply preserves_ret].
  apply preserves_try_except; [| apply preserves_ret].
  apply preserves_bind; [apply wired_on_redis |].
  intros [|k keys]; [apply preserves_ret | apply wired_on_redis].
Qed.

Lemma wired_count : preserves (wired u c) get_cache_count.
Proof.
  intros w Hw. unfold get_cache_count. destruct (use_redis_and_client w); [| exact Hw].
  revert w Hw. apply preserves_try_except; [| apply preserves_gets].
  apply preserves_bind; [apply wired_on_redis | intros keys; apply preserves_ret].
Qed.

Lemma wired_run (tr : list op) : ∀ w, wired u c w -> wired u c (run tr w).
Proof.
  induction tr as [|o tr IH]; intros w Hw; [exact Hw |].
  apply IH. destruct o; simpl.
  - now apply wired_get.
  - now apply wired_set.
  - now apply wired_acquire.
  - now apply wired_release.
  - now apply wired_clear.
  - now apply wired_count.
  - exact Hw.
Qed.

End Wiring.

Section Constructor.

Context `{Environment}.

Lemma init_wired (ttl : Z) (url : option string) (available : bool)
    (from_url : string -> result Redis) (now : Z) :
  ∃ u c, wired u c (mkWorld (__init__ ttl url available from_url) now) ∧
         (u = true -> c = true).
Proof.
  unfold __init__. cbv zeta.
  destruct url as [url|]; [| exists false, false; repeat split; discriminate].
  destruct (available && _); [| exists false, false; repeat split; discriminate].
  destruct (from_url url) as [client|e]; [| exists false, false; repeat split; discriminate].
  destruct (redis_ping client) as [client' [b|e]].
  - exists true, true. repeat split.
  - exists false, true. repeat split.
Qed.

(** With a client at hand the reads of the store do not raise
    [AttributeError]. *)
Lemma on_redis_get_error (rk : string) (w : World) (e : exn) :
  is_Some (_redis (self w)) -> (on_redis (redis_get rk) w).2 = Raise e -> e = ConnectionError.
Proof.
  intros [r Hr]. unfold on_redis, redis_get, command. rewrite Hr.
  destruct (faults r) as [|[] fs]; simpl; congruence.
Qed.

Lemma on_redis_exists_error (k : string) (w : World) (e : exn) :
  is_Some (_redis (self w)) -> (on_redis (redis_exists k) w).2 = Raise e -> e = ConnectionError.
Proof.
  intros [r Hr]. unfold on_redis, redis_exists, command. rewrite Hr.
  destruct (faults r) as [|[] fs]; simpl; congruence.
Qed.

Lemma decode_never_raises (s : string) (w : World) : ∃ v, (decode s w).2 = Ok v.
Proof. unfold decode, try_except, json_loads. destruct (loads s); simpl; eauto. Qed.

Lemma wired_client (u : bool) (w : World) : wired u true w -> is_Some (_redis (self w)).
Proof. intros [_ Hc]. now apply bool_decide_eq_true in Hc. Qed.

Lemma poll_error (u : bool) (rk : string) (lt : Z) (fuel : nat) :
  ∀ (waited : Z) (w : World) (res : World * result value) (e : exn),
    wired u true w -> poll fuel rk lt waited w = Some res -> res.2 = Raise e ->
    e = ConnectionError.
Proof.
  induction fuel as [|fuel IH]; intros waited w res e Hw Hp He; [discriminate |].
  simpl in Hp. destruct (waited <? seconds lt); [| inversion Hp; subst; discriminate He].
  pose proof (wired_on_redis u true (redis_get rk) w Hw) as Hw1.
  pose proof (on_redis_get_error rk w) as He1.
  destruct (on_redis (redis_get rk) w) as [w1 [val|e1]]; simpl in Hw1, He1.
  2:{ inversion Hp; subst. simpl in He. injection He as <-.
      apply He1; [now apply (wired_client u) | reflexivity]. }
  destruct (val_truthy val) as [s|].
  { inversion Hp; subst. destruct (decode_never_raises s w1) as [v Hv]. congruence. }
  pose proof (wired_on_redis u true (redis_exists (rk +:+ lock_suffix)) w1 Hw1) as Hw2.
  pose proof (on_redis_exists_error (rk +:+ lock_suffix) w1) as He2.
  destruct (on_redis (redis_exists _) w1) as [w2 [[]|e2]]; simpl in Hw2, He2.
  - eapply IH; [| exact Hp | exact He]. now apply wired_sleep.
  - inversion Hp; subst. discriminate He.
  - inversion Hp; subst. simpl in He. injection He as <-.
    apply He2; [now apply (wired_client u) | reflexivity].
Qed.

(** X23.  The two guards of the methods agree.  [get] tests [_use_redis]
    alone where the other methods test [_use_redis and _redis]; for a cache
    built by the constructor, whatever the url, the module and the
    connection, and after any sequence of calls, the two tests give the same
    answer, the variant is the one the constructor chose, and the only
    exception [get] can raise is the connection error of the store: it never
    calls a method on [None]. *)
Theorem constructor_keeps_guards_aligned (ttl : Z) (url : option string) (available : bool)
    (from_url : string -> result Redis) (now : Z) (tr : list op) :
  let w0 := mkWorld (__init__ ttl url available from_url) now in
  let w := run tr w0 in
  _use_redis (self w) = use_redis_and_client w ∧
  _use_redis (self w) = _use_redis (self w0) ∧
  ∀ a wait lt e, outcome (get a wait lt) w = Raise e -> e = ConnectionError.
Proof.
  cbv zeta. destruct (init_wired ttl url available from_url now) as (u & c & Hw0 & Huc).
  pose proof (wired_run u c tr _ Hw0) as Hw.
  revert Hw. generalize (run tr (mkWorld (__init__ ttl url available from_url) now)).
  intros w Hw. destruct Hw0 as [Hu0 _]. pose proof Hw as [Hu Hc].
  split; [| split; [congruence |]].
  - unfold use_redis_and_client. rewrite Hu, Hc. destruct u; [now rewrite Huc | reflexivity].
  - intros a wait lt e. unfold outcome, get. rewrite Hu. destruct u; cbv zeta.
    + rewrite (Huc eq_refl) in *.
      pose proof (wired_on_redis true true (redis_get (_redis_key (_hash_key a))) w Hw) as Hw1.
      pose proof (on_redis_get_error (_redis_key (_hash_key a)) w) as He1.
      destruct (on_redis (redis_get _) w) as [w1 [val|e1]]; simpl in Hw1, He1.
      2:{ simpl. intros [= <-]. apply He1; [now apply (wired_client true) | reflexivity]. }
      destruct (val_truthy val) as [s|].
      { destruct (decode_never_raises s w1) as [v Hv]. congruence. }
      destruct wait; [| discriminate].
      destruct (poll _ _ _ _ _) as [res|] eqn:Hp; simpl; [| discriminate].
      now apply (poll_error true _ _ _ _ _ _ e Hw1 Hp).
    + destruct (_ !! _) as [[result timestamp]|]; [| discriminate].
      destruct (_ <? _); discriminate.
Qed.

(** X24.  A store that cannot be reached when the cache is built turns the
    cache into a local one for good: every later call works on the local
    mapping, and no call reaches the store, although the client object is
    kept. *)
Theorem unreachable_store_means_local (ttl : Z) (url : string) (client : Redis)
    (from_url : string -> result Redis) (now : Z) (tr : list op) :
  url ≠ EmptyString -> from_url url = Ok client ->
  (redis_ping client).2 = Raise ConnectionError ->
  let w := run tr (mkWorld (__init__ ttl (Some url) true from_url) now) in
  is_local w ∧ _redis (self w) = Some (redis_ping client).1.
Proof.
  intros Hurl Hfrom Hping. cbv zeta.
  assert (Hw0 : mkWorld (__init__ ttl (Some url) true from_url) now =
                mkWorld (mkQueryCache ttl ∅ false (Some (redis_ping client).1)) now).
  { unfold __init__. cbv zeta. apply String.eqb_neq in Hurl. rewrite Hurl, Hfrom. simpl.
    destruct (redis_ping client) as [client' [b|e]]; [discriminate Hping | reflexivity]. }
  rewrite Hw0. clear Hw0. generalize (redis_ping client).1. intros r.
  assert (Hinv : ∀ w, is_local w ∧ _redis (self w) = Some r ->
                      ∀ o, is_local (step o w) ∧ _redis (self (step o w)) = Some r).
  { intros w [Hl Hr] o. pose proof (local_not_client w Hl) as Hc.
    destruct o; simpl; unfold after.
    - rewrite get_local by exact Hl.
      destruct (_ !! _) as [[result timestamp]|]; [destruct (_ <? _) |]; now split.
    - rewrite set_local by exact Hl. now split.
    - rewrite acquire_local by exact Hc. destruct (_ !! _); now split.
    - unfold release_lock. rewrite Hc. destruct (_ !! _); now split.
    - unfold clear, bind. rewrite Hc. now split.
    - unfold get_cache_count. rewrite Hc. now split.
    - now split. }
  assert (Hrun : ∀ w, is_local w ∧ _redis (self w) = Some r ->
                      is_local (run tr w) ∧ _redis (self (run tr w)) = Some r).
  { induction tr as [|o tr IH]; intros w Hw; [exact Hw |]. apply IH. now apply Hinv. }
  apply Hrun. now split.
Qed.

End Constructor.

Lemma unreachable_store_means_local_witness :
  let w := run (H := alone) [OpSet (VStr "x") [AStr "ask"; AStr "q"]; OpClear]
             (mkWorld (__init__ 600 (Some "redis://cache:6379"%string) true
                         (fun _ => Ok unreachable)) 0) in
  is_local w ∧ _redis (self w) = Some (mkRedis ∅ []).
Proof.
  cbv zeta.
  apply (unreachable_store_means_local (H := alone) 600 "redis://cache:6379" unreachable
           (fun _ => Ok unreachable) 0);
    [intros E; discriminate E | reflexivity | reflexivity].
Defined.

(** ** Request coalescing *)

Section Coalescing.

Context `{Environment}.

(** The loop of [get] when the entry is published during its first sleep. *)
Lemma poll_published (ttl : Z) (mem : gmap string (value * Z))
    (d : gmap string (string * Z)) (clk : Z) (rk s : string) (exp lt : Z) (fuel : nat) :
  visible clk d rk = None ->
  is_Some (visible clk d (rk +:+ lock_suffix)) ->
  others clk d !! rk = Some (s, exp) -> clk + poll_interval <= exp ->
  s ≠ EmptyString -> 0 < lt ->
  poll (S (S fuel)) rk lt 0 (mkWorld (mkQueryCache ttl mem true (Some (mkRedis d []))) clk)
  = Some (decode s (mkWorld (mkQueryCache ttl mem true (Some (mkRedis (others clk d) [])))
                      (clk + poll_interval))).
Proof.
  intros He Hl Ho Hexp Hs Hlt.
  assert (H0lt : (0 <? seconds lt) = true) by (apply Z.ltb_lt; unfold seconds; lia).
  assert (H1lt : (0 + poll_interval <? seconds lt) = true)
    by (apply Z.ltb_lt; unfold seconds, poll_interval; lia).
  assert (Hv : visible (clk + poll_interval) (others clk d) rk = Some s).
  { unfold visible. rewrite Ho. unfold live. cbn [snd fst].
    destruct (_ <=? _) eqn:E; [reflexivity | apply Z.leb_gt in E; lia]. }
  cbn [poll]. rewrite H0lt.
  unfold on_redis, redis_get, redis_exists, command, time_sleep. simpl.
  rewrite He. simpl. rewrite (bool_decide_eq_true_2 _ Hl). simpl.
  rewrite H1lt, Hv. rewrite val_truthy_nonempty by exact Hs. reflexivity.
Qed.

(** X25.  Request coalescing.  A caller of [summarize_chapter] that finds
    no entry but the lock of another worker, which publishes its result
    while the caller sleeps for the first time, returns that result after
    one polling interval.  It does not consult the vector store or the
    chain, and leaves the records of the store as the other worker left
    them. *)
Theorem waiter_receives_published_result `{Upstream} (w : World) (r : Redis) (q s : string)
    (exp : Z) (v : value) :
  let rk := _redis_key (_hash_key [AStr "summarize"; AStr q]) in
  is_shared w r -> healthy r ->
  visible (clock w) (db r) rk = None ->
  is_Some (visible (clock w) (db r) (rk +:+ lock_suffix)) ->
  others (clock w) (db r) !! rk = Some (s, exp) -> clock w + poll_interval <= exp ->
  s ≠ EmptyString -> loads s = Some v -> truthy v = true ->
  summarize_chapter q w =
    (with_clock (clock w + poll_interval)
       (with_redis (Some (mkRedis (others (clock w) (db r)) [])) w),
     Ok v).
Proof.
  cbv zeta. intros [Hu Hr] Hh He Hl Ho Hexp Hs Hld Ht.
  destruct w as [[ttl mem ur rd] clk]. simpl in *. subst ur rd.
  destruct r as [d fs]. unfold healthy in Hh. simpl in *. subst fs.
  set (args := [AStr "summarize"; AStr q]) in *.
  assert (Hg : get args true 30 (mkWorld (mkQueryCache ttl mem true (Some (mkRedis d []))) clk)
               = (mkWorld (mkQueryCache ttl mem true (Some (mkRedis (others clk d) [])))
                    (clk + poll_interval), Ok v)).
  { rewrite (get_shared_miss _ (mkRedis d [])); [| split; reflexivity | reflexivity | exact He].
    change (poll_fuel 30) with (S (S 59)).
    rewrite (poll_published ttl mem d clk _ s exp 30 59) by (assumption || lia).
    simpl. now apply decode_ok. }
  unfold summarize_chapter, bind. fold args. rewrite Hg. now rewrite Ht.
Qed.

End Coalescing.

Lemma waiter_receives_published_result_witness :
  let args := [AStr "summarize"; AStr "1"] in
  let rk := _redis_key (_hash_key args) in
  let v := bilingual "Cells are units of life." "Seli ni vitengo vya uhai." in
  let other_worker := publishing rk (Json.dumps v) 600500 in
  let w := mkWorld (shared_cache 600 (mkRedis {[ rk +:+ lock_suffix := ("1"%string, 30000) ]} []))
             0 in
  outcome (summarize_chapter (H := other_worker) (H0 := retrieval_down) "1") w = Ok v ∧
  clock (after (summarize_chapter (H := other_worker) (H0 := retrieval_down) "1") w) = 500.
Proof.
  cbv zeta.
  pose proof (waiter_receives_published_result
                (H := publishing (_redis_key (_hash_key [AStr "summarize"; AStr "1"]))
                        (Json.dumps (bilingual "Cells are units of life."
                                       "Seli ni vitengo vya uhai.")) 600500)
                (H0 := retrieval_down)
                (mkWorld (shared_cache 600
                            (mkRedis {[ _redis_key (_hash_key [AStr "summarize"; AStr "1"])
                                        +:+ lock_suffix := ("1"%string, 30000) ]} [])) 0)
                (mkRedis {[ _redis_key (_hash_key [AStr "summarize"; AStr "1"])
                            +:+ lock_suffix := ("1"%string, 30000) ]} [])
                "1"
                (Json.dumps (bilingual "Cells are units of life." "Seli ni vitengo vya uhai."))
                600500
                (bilingual "Cells are units of life." "Seli ni vitengo vya uhai.")) as Hw.
  cbv zeta in Hw. unfold outcome, after. rewrite Hw.
  - split; reflexivity.
  - split; reflexivity.
  - reflexivity.
  - unfold visible. cbn [db]. rewrite lookup_singleton_ne by apply redis_lock_key_not_entry.
    reflexivity.
  - unfold visible. cbn [db]. rewrite lookup_singleton_eq. vm_compute. eauto.
  - cbn [others publishing db]. apply lookup_insert_eq.
  - vm_compute. intros E. discriminate E.
  - vm_compute. intros E. discriminate E.
  - vm_compute. reflexivity.
  - reflexivity.
Defined.
